(** * hivwholeseq: read-pair CIGAR normalisation (utils/mapping.py)

    A shallow embedding of the read trimming and mate-pair reconciliation
    code of [hivwholeseq/utils/mapping.py], and the properties the
    specification states about it.

    Conventions of the embedding.
    - A pysam read is a record of the attributes the code reads and
      writes; an assignment to an attribute changes that field only.
      The read-only attribute [rlen] is the length of the stored
      sequence.
    - Python integers are [Z]; a CIGAR is a Python list of
      [(operation, length)] tuples, embedded as [list (Z * Z)], with
      operation 0 for MATCH, 1 for INSERTION and 2 for DELETION.
    - Python strings are lists of characters; slices follow Python in
      full, negative and out-of-range bounds included.
    - A function that mutates its argument in place takes the object and
      returns its final state next to the Python return value.
    - [raise] is the [Raised] constructor of [outcome]; the state
      returned with it is the state at the [raise].
    - [while] loops run on fuel, and are proved to leave within the fuel
      they are given.
    - The debugging arguments ([include_tests], [VERBOSE]) are at their
      default values, under which the corresponding blocks do not run. *)

From Stdlib Require Import ZArith Bool Ascii String List Lia.
Import ListNotations.
Local Open Scope Z_scope.

(** ** Python values *)

Module Py.

(** The exceptions the embedded functions can raise. *)
Inductive exn : Type :=
| ValueError_cigar_type (block_type : Z)   (* 'CIGAR type ... not recognized' *)
| ValueError_short_left                    (* 'Read too short to be trimmed from left' *)
| ValueError_short_right                   (* 'Read too short to be trimmed from right' *)
| IndexError.                              (* list index out of range *)

Inductive outcome (A : Type) : Type :=
| Returned (a : A)
| Raised (e : exn).

Arguments Returned {A} a.
Arguments Raised {A} e.

Definition bind {A B} (m : outcome A) (k : A -> outcome B) : outcome B :=
  match m with
  | Returned a => k a
  | Raised e => Raised e
  end.

Definition raises {A} (m : outcome A) : Prop := exists e, m = Raised e.

(** A slice bound [i] on a sequence of length [len]: negative bounds count
    from the end, and every bound is clamped to [0 .. len]. *)
Definition clamp (len i : Z) : Z :=
  if i <? 0 then Z.max 0 (len + i) else Z.min i len.

(** [l[lo:hi]], with [None] for an omitted bound. *)
Definition slice {A} (l : list A) (lo hi : option Z) : list A :=
  let len := Z.of_nat (length l) in
  let a := match lo with Some i => clamp len i | None => 0 end in
  let b := match hi with Some j => clamp len j | None => len end in
  firstn (Z.to_nat (b - a)) (skipn (Z.to_nat a) l).

(** [sum(...)] over integers. *)
Definition sum (l : list Z) : Z := fold_right Z.add 0 l.

(** [a.nonzero()[0]] for a one-dimensional boolean array. *)
Fixpoint nonzero_from (i : nat) (l : list bool) : list nat :=
  match l with
  | [] => []
  | b :: l' => if b then i :: nonzero_from (S i) l' else nonzero_from (S i) l'
  end.

Definition nonzero (l : list bool) : list nat := nonzero_from 0 l.

(** [a.any()] and [a.all()]. *)
Definition any (l : list bool) : bool := existsb (fun b => b) l.
Definition all (l : list bool) : bool := forallb (fun b => b) l.

End Py.

Import Py.

Notation "x <- m ;; k" := (Py.bind m (fun x => k))
  (at level 61, m at next level, right associativity).
Notation "' pat <- m ;; k" := (Py.bind m (fun x => match x with pat => k end))
  (at level 61, pat pattern, m at next level, right associativity).

(** ** Data model *)

Definition Cigar : Type := list (Z * Z).

Record AlignedRead : Type := mkRead {
  qname : string;
  seq : list ascii;
  qual : list ascii;
  cigar : Cigar;
  pos : Z;
  mpos : Z;
  isize : Z;
  is_reverse : bool
}.

Definition rlen (r : AlignedRead) : Z := Z.of_nat (length (seq r)).

Definition set_seq (v : list ascii) (r : AlignedRead) : AlignedRead :=
  mkRead (qname r) v (qual r) (cigar r) (pos r) (mpos r) (isize r) (is_reverse r).
Definition set_qual (v : list ascii) (r : AlignedRead) : AlignedRead :=
  mkRead (qname r) (seq r) v (cigar r) (pos r) (mpos r) (isize r) (is_reverse r).
Definition set_cigar (v : Cigar) (r : AlignedRead) : AlignedRead :=
  mkRead (qname r) (seq r) (qual r) v (pos r) (mpos r) (isize r) (is_reverse r).
Definition set_pos (v : Z) (r : AlignedRead) : AlignedRead :=
  mkRead (qname r) (seq r) (qual r) (cigar r) v (mpos r) (isize r) (is_reverse r).
Definition set_mpos (v : Z) (r : AlignedRead) : AlignedRead :=
  mkRead (qname r) (seq r) (qual r) (cigar r) (pos r) v (isize r) (is_reverse r).
Definition set_isize (v : Z) (r : AlignedRead) : AlignedRead :=
  mkRead (qname r) (seq r) (qual r) (cigar r) (pos r) (mpos r) v (is_reverse r).

(** A read pair is a two-element sequence of distinct read objects; the
    code indexes it with a boolean ([False] is 0, [True] is 1). *)
Definition ReadPair : Type := (AlignedRead * AlignedRead)%type.

Definition get_read (reads : ReadPair) (i : bool) : AlignedRead :=
  if i then snd reads else fst reads.

(** In-place change of the read object stored at index [i]. *)
Definition upd_read (reads : ReadPair) (i : bool)
           (f : AlignedRead -> AlignedRead) : ReadPair :=
  if i then (fst reads, f (snd reads)) else (f (fst reads), snd reads).

(** [sum(bl for (bt, bl) in cigar if bt in (0, 2))] *)
Definition ref_span (c : Cigar) : Z :=
  Py.sum (map snd (filter (fun b => (fst b =? 0) || (fst b =? 2)) c)).

(** [sum(bl for (bt, bl) in cigar if bt in (0, 1))] *)
Definition read_span (c : Cigar) : Z :=
  Py.sum (map snd (filter (fun b => (fst b =? 0) || (fst b =? 1)) c)).

(** ** CIGAR interval algebra *)

(** [criterion = lambda x: (x[0] == 0) and (x[1] >= match_len_min)] *)
Definition criterion (match_len_min : Z) (x : Z * Z) : bool :=
  (fst x =? 0) && (match_len_min <=? snd x).

Definition first_good_cigar (match_len_min : Z) (c : Cigar) : nat :=
  hd 0%nat (Py.nonzero (map (criterion match_len_min) c)).

Definition last_good_cigar (match_len_min : Z) (c : Cigar) : nat :=
  last (Py.nonzero (map (criterion match_len_min) c)) 0%nat.

(** The two accumulation loops of [get_range_good_cigars] have the same
    body: walk the blocks, advancing the read and the reference offsets. *)
Fixpoint walk_blocks (blocks : Cigar) (p_read p_ref : Z) : outcome (Z * Z) :=
  match blocks with
  | [] => Returned (p_read, p_ref)
  | (block_type, block_len) :: rest =>
      if block_type =? 0 then walk_blocks rest (p_read + block_len) (p_ref + block_len)
      else if block_type =? 1 then walk_blocks rest (p_read + block_len) p_ref
      else if block_type =? 2 then walk_blocks rest p_read (p_ref + block_len)
      else Raised (ValueError_cigar_type block_type)
  end.

(** [cigar[first_good_cigar: last_good_cigar + 1]] *)
Definition good_span (match_len_min : Z) (c : Cigar) : Cigar :=
  let first := first_good_cigar match_len_min c in
  let last := last_good_cigar match_len_min c in
  firstn (S last - first) (skipn first c).

(** [get_range_good_cigars(cigar, pos, match_len_min, trim_left,
    trim_right)]; [Returned None] stands for the returned pair
    [(None, None)]. *)
Definition get_range_good_cigars (c : Cigar) (pos0 match_len_min trim_left trim_right : Z)
  : outcome (option ((Z * Z) * (Z * Z))) :=
  let good_cigars := map (criterion match_len_min) c in
  if negb (Py.any good_cigars) then Returned None
  else
    let first := first_good_cigar match_len_min c in
    let last := last_good_cigar match_len_min c in
    '(start_read, start_ref) <- walk_blocks (firstn first c) 0 pos0 ;;
    '(end_read, end_ref) <- walk_blocks (good_span match_len_min c) start_read start_ref ;;
    let '(start_read, start_ref) :=
      if negb (Nat.eqb first 0)
      then (start_read + trim_left, start_ref + trim_left)
      else (start_read, start_ref) in
    let '(end_read, end_ref) :=
      if negb (Nat.eqb last (length c - 1))
      then (end_read - trim_right, end_ref - trim_right)
      else (end_read, end_ref) in
    Returned (Some ((start_read, end_read), (start_ref, end_ref))).

(** ** Read trimmer *)

(** The test guarding each edge walk of [trim_short_cigars]:
    [(cigar[i][0] != 0) or (cigar[i][1] < match_len_min)]. *)
Definition edge_block_short (match_len_min : Z) (b : Z * Z) : bool :=
  negb (fst b =? 0) || (snd b <? match_len_min).

(** The left walk.  [None] stands for the loop running to its [else]
    clause; otherwise the new CIGAR and the two offsets at the [break]. *)
Fixpoint trim_left_walk (match_len_min trim_pad : Z) (c : Cigar) (pos_ref pos_read : Z)
  : option (Cigar * Z * Z) :=
  match c with
  | [] => None
  | (bt, bl) :: rest =>
      if bt =? 2 then trim_left_walk match_len_min trim_pad rest (pos_ref + bl) pos_read
      else if bt =? 1 then trim_left_walk match_len_min trim_pad rest pos_ref (pos_read + bl)
      else if bl <? match_len_min
           then trim_left_walk match_len_min trim_pad rest (pos_ref + bl) (pos_read + bl)
      else Some ((0, bl - trim_pad) :: rest, pos_ref + trim_pad, pos_read + trim_pad)
  end.

(** The right walk visits the blocks from the last to the first; it is
    given the reversed CIGAR, so that [rest] is [cigar[:icig]] reversed. *)
Fixpoint trim_right_walk (match_len_min trim_pad : Z) (rc : Cigar) (pos_read : Z)
  : option (Cigar * Z) :=
  match rc with
  | [] => None
  | (bt, bl) :: rest =>
      if bt =? 2 then trim_right_walk match_len_min trim_pad rest pos_read
      else if bt =? 1 then trim_right_walk match_len_min trim_pad rest (pos_read - bl)
      else if bl <? match_len_min
           then trim_right_walk match_len_min trim_pad rest (pos_read - bl)
      else Some (rev rest ++ [(0, bl - trim_pad)], pos_read - trim_pad)
  end.

(** Result of trimming one edge: the read as it is afterwards, or the
    walk found no block to anchor on (the read is then untouched). *)
Inductive edge_result : Type :=
| Trimmed (read : AlignedRead)
| NoAnchor.

Definition trim_left_edge (read : AlignedRead) (match_len_min trim_pad : Z)
  : outcome edge_result :=
  match cigar read with
  | [] => Raised IndexError
  | c0 :: _ =>
      if edge_block_short match_len_min c0 then
        match trim_left_walk match_len_min trim_pad (cigar read) (pos read) 0 with
        | Some (cigar_new, pos_ref, pos_read) =>
            let qual' := Py.slice (qual read) (Some pos_read) None in
            let seq' := Py.slice (seq read) (Some pos_read) None in
            Returned (Trimmed (set_pos pos_ref (set_cigar cigar_new
                                 (set_qual qual' (set_seq seq' read)))))
        | None => Returned NoAnchor
        end
      else Returned (Trimmed read)
  end.

Definition trim_right_edge (read : AlignedRead) (match_len_min trim_pad : Z)
  : outcome edge_result :=
  match rev (cigar read) with
  | [] => Raised IndexError
  | cl :: _ =>
      if edge_block_short match_len_min cl then
        match trim_right_walk match_len_min trim_pad (rev (cigar read))
                              (Z.of_nat (length (seq read))) with
        | Some (cigar_new, pos_read) =>
            let qual' := Py.slice (qual read) None (Some pos_read) in
            let seq' := Py.slice (seq read) None (Some pos_read) in
            Returned (Trimmed (set_cigar cigar_new (set_qual qual' (set_seq seq' read))))
        | None => Returned NoAnchor
        end
      else Returned (Trimmed read)
  end.

(** [trim_short_cigars(read, match_len_min, trim_pad, throw)]: the state
    of [read] on exit, and the value returned ([None] when the function
    falls off its end, which it does on success with [throw] set). *)
Definition trim_short_cigars (read : AlignedRead) (match_len_min trim_pad : Z)
           (throw : bool) : AlignedRead * outcome (option bool) :=
  match trim_left_edge read match_len_min trim_pad with
  | Raised e => (read, Raised e)
  | Returned NoAnchor =>
      (read, if throw then Raised ValueError_short_left else Returned (Some true))
  | Returned (Trimmed read1) =>
      match trim_right_edge read1 match_len_min trim_pad with
      | Raised e => (read1, Raised e)
      | Returned NoAnchor =>
          (read1, if throw then Raised ValueError_short_right else Returned (Some true))
      | Returned (Trimmed read2) =>
          (read2, Returned (if throw then None else Some false))
      end
  end.

(** ** Mate-pair reconciler *)

Definition fix_read_pair (reads : ReadPair) : ReadPair :=
  let i_fwd := is_reverse (fst reads) in
  let i_rev := negb i_fwd in
  (* Mate position *)
  let reads := upd_read reads i_rev (set_mpos (pos (get_read reads i_fwd))) in
  let reads := upd_read reads i_fwd (set_mpos (pos (get_read reads i_rev))) in
  (* Insert size *)
  let isize' := pos (get_read reads i_rev) - pos (get_read reads i_fwd)
                + ref_span (cigar (get_read reads i_rev)) in
  let reads := upd_read reads i_fwd (set_isize isize') in
  upd_read reads i_rev (set_isize (- isize')).

(** [trim_short_cigars_pair(reads, **kwargs)]: the keyword arguments are
    those of [trim_short_cigars]. *)
Definition trim_short_cigars_pair (reads : ReadPair) (match_len_min trim_pad : Z)
           (throw : bool) : ReadPair * outcome unit :=
  let '(read0, o0) := trim_short_cigars (fst reads) match_len_min trim_pad throw in
  match o0 with
  | Raised e => ((read0, snd reads), Raised e)
  | Returned _ =>
      let '(read1, o1) := trim_short_cigars (snd reads) match_len_min trim_pad throw in
      match o1 with
      | Raised e => ((read0, read1), Raised e)
      | Returned _ => (fix_read_pair (read0, read1), Returned tt)
      end
  end.

(** ** Integrity tests *)

Definition test_read_pair_integrity (read_pair : ReadPair) : bool :=
  let i_fwd := is_reverse (fst read_pair) in
  let i_rev := negb i_fwd in
  let r0 := fst read_pair in
  let r1 := snd read_pair in
  if pos (get_read read_pair i_fwd) <? 0 then true
  else if negb (mpos r0 =? pos r1) || negb (mpos r1 =? pos r0) then true
  else if (isize (get_read read_pair i_fwd) <=? 0)
          || (0 <=? isize (get_read read_pair i_rev)) then true
  else if negb (pos (get_read read_pair i_fwd) + isize (get_read read_pair i_fwd)
                =? pos (get_read read_pair i_rev)
                   + ref_span (cigar (get_read read_pair i_rev))) then true
  else if negb (read_span (cigar r0) =? rlen r0)
          || negb (read_span (cigar r1) =? rlen r1) then true
  else false.

Definition test_read_pair_crossoverhang (read_pair : ReadPair) : bool :=
  let i_fwd := is_reverse (fst read_pair) in
  let i_rev := negb i_fwd in
  (isize (get_read read_pair i_fwd) <? ref_span (cigar (get_read read_pair i_fwd)))
  || (pos (get_read read_pair i_rev) <? pos (get_read read_pair i_fwd)).

(** ** Pair-level policies: quality trimming *)

(** [np.fromstring(read.qual, np.int8) - 33]: the bytes of the quality
    string as signed 8-bit integers, the subtraction staying in [int8]. *)
Definition wrap_int8 (x : Z) : Z := (x + 128) mod 256 - 128.

Definition phred_of_qual (q : list ascii) : list Z :=
  map (fun ch => wrap_int8 (Z.of_nat (nat_of_ascii ch) - 33)) q.

(** [(a >= phred_min).sum()] *)
Definition count_good (phred_min : Z) (a : list Z) : Z :=
  Z.of_nat (length (filter (fun q => phred_min <=? q) a)).

(** Constants local to [trim_read_pair_low_quality]. *)
Definition read_size_min : Z := 50.
Definition win_size : Z := 10.
Definition win_qual_threshold : Z := 9.
Definition shift : Z := 5.

(** Exit of an edge loop: the loop variable when the condition fails, or
    the [return True] inside the loop. *)
Inductive edge_scan : Type :=
| Window (p : Z)
| Trash.

(** The [while] loop of the left edge, one iteration per unit of fuel;
    [None] is fuel running out.  The loop is entered with [win_qual = 0],
    so the first test succeeds. *)
Fixpoint left_edge_loop (fuel : nat) (phred : list Z) (phred_min rlen0 read_start : Z)
  : option edge_scan :=
  match fuel with
  | O => None
  | S fuel' =>
      if rlen0 - read_size_min <? read_start then Some Trash
      else
        let win_phred := Py.slice phred (Some read_start) (Some (read_start + win_size)) in
        let win_qual := count_good phred_min win_phred in
        let read_start := read_start + shift in
        if win_qual <? win_qual_threshold
        then left_edge_loop fuel' phred phred_min rlen0 read_start
        else Some (Window read_start)
  end.

Fixpoint right_edge_loop (fuel : nat) (phred : list Z) (phred_min read_start read_end : Z)
  : option edge_scan :=
  match fuel with
  | O => None
  | S fuel' =>
      if read_end <? read_start + read_size_min then Some Trash
      else
        let win_phred := Py.slice phred (Some (read_end - win_size)) (Some read_end) in
        let win_qual := count_good phred_min win_phred in
        let read_end := read_end - shift in
        if win_qual <? win_qual_threshold
        then right_edge_loop fuel' phred phred_min read_start read_end
        else Some (Window read_end)
  end.

(** Iterations granted to an edge loop on a read of length [rlen0]; both
    loops leave within that many (lemmas [left_edge_loop_terminates] and
    [right_edge_loop_terminates]). *)
Definition edge_fuel (rlen0 : Z) : nat := S (Z.to_nat rlen0).

Definition left_edge (phred : list Z) (phred_min rlen0 : Z) : edge_scan :=
  match left_edge_loop (edge_fuel rlen0) phred phred_min rlen0 0 with
  | Some (Window read_start) => Window (read_start - shift)
  | Some Trash => Trash
  | None => Trash (* not reached: lemma [edge_loops_total] *)
  end.

Definition right_edge (phred : list Z) (phred_min rlen0 read_start : Z) : edge_scan :=
  match right_edge_loop (edge_fuel rlen0) phred phred_min read_start rlen0 with
  | Some (Window read_end) => Window (read_end + shift)
  | Some Trash => Trash
  | None => Trash (* not reached: lemma [edge_loops_total] *)
  end.

(** Rewriting the CIGAR at the start of the kept span.  The code walks
    [read.cigar] while popping from the end of a reversed copy; [work] is
    that copy read in forward order, so that popping drops its head and
    [cigar[-1] = x] replaces its head.  [work] is never shorter than the
    blocks still to visit, so neither operation meets an empty list. *)
Definition replace_head (work : Cigar) (b : Z * Z) : Cigar :=
  match work with
  | [] => []
  | _ :: rest => b :: rest
  end.

Fixpoint trim_start_walk (blocks work : Cigar) (read_start read_pos ref_start : Z)
  : Cigar * Z :=
  match blocks with
  | [] => (work, ref_start)
  | (bt, bl) :: rest =>
      if (bt =? 0) || (bt =? 1) then
        if read_start <? read_pos + bl then
          (replace_head work (bt, read_pos + bl - read_start),
           if bt =? 0 then ref_start + (read_start - read_pos) else ref_start)
        else
          trim_start_walk rest (tl work) read_start (read_pos + bl)
                          (if bt =? 0 then ref_start + bl else ref_start)
      else if bt =? 2 then trim_start_walk rest (tl work) read_start read_pos ref_start
      else trim_start_walk rest work read_start read_pos ref_start
  end.

(** The same walk with the list operations as Python has them: [pop]
    and item assignment raise [IndexError] on an empty list.  Started on
    a copy of the CIGAR it walks, it agrees with [trim_start_walk]
    (lemma [trim_start_walk_checked_returns]). *)
Fixpoint trim_start_walk_checked (blocks work : Cigar) (read_start read_pos ref_start : Z)
  : outcome (Cigar * Z) :=
  match blocks with
  | [] => Returned (work, ref_start)
  | (bt, bl) :: rest =>
      match work with
      | [] =>
          if (bt =? 0) || (bt =? 1) || (bt =? 2) then Raised IndexError
          else trim_start_walk_checked rest work read_start read_pos ref_start
      | _ :: work' =>
          if (bt =? 0) || (bt =? 1) then
            if read_start <? read_pos + bl then
              Returned ((bt, read_pos + bl - read_start) :: work',
                        if bt =? 0 then ref_start + (read_start - read_pos) else ref_start)
            else
              trim_start_walk_checked rest work' read_start (read_pos + bl)
                                      (if bt =? 0 then ref_start + bl else ref_start)
          else if bt =? 2
               then trim_start_walk_checked rest work' read_start read_pos ref_start
          else trim_start_walk_checked rest work read_start read_pos ref_start
      end
  end.

Definition trim_start (read : AlignedRead) (read_start : Z) : Cigar * Z :=
  if read_start =? 0 then (cigar read, pos read)
  else trim_start_walk (cigar read) (cigar read) read_start 0 (pos read).

(** Rewriting the CIGAR at the end of the kept span; [read_end] is
    relative to the new start.  The two policies differ in the branch
    for deletions. *)
Fixpoint trim_end_walk (stop_at_deletion : bool) (c : Cigar) (read_end read_pos : Z)
  : Cigar :=
  match c with
  | [] => []
  | (bt, bl) :: rest =>
      if (bt =? 0) || (bt =? 1) then
        if read_end <=? read_pos + bl then [(bt, read_end - read_pos)]
        else (bt, bl) :: trim_end_walk stop_at_deletion rest read_end (read_pos + bl)
      else if bt =? 2 then
        if stop_at_deletion && (read_end <=? read_pos + bl) then []
        else (bt, bl) :: trim_end_walk stop_at_deletion rest read_end read_pos
      else trim_end_walk stop_at_deletion rest read_end read_pos
  end.

(** The tail shared by both policies: from the kept span
    [read_start .. read_start + read_end] to the rewritten read. *)
Definition rewrite_read (stop_at_deletion : bool) (read : AlignedRead)
           (read_start read_end : Z) : AlignedRead :=
  let '(cigar1, ref_start) := trim_start read read_start in
  let cigar2 :=
    if read_end + read_start <? rlen read
    then trim_end_walk stop_at_deletion cigar1 read_end 0
    else cigar1 in
  let seq0 := seq read in
  let qual0 := qual read in
  let read := set_pos ref_start read in
  let read := set_seq (Py.slice seq0 (Some read_start) (Some (read_start + read_end))) read in
  let read := set_qual (Py.slice qual0 (Some read_start) (Some (read_start + read_end))) read in
  set_cigar cigar2 read.

(** What one pass of the loop over the reads does to its read. *)
Inductive read_step : Type :=
| Discard                       (* return True *)
| Untouched                     (* continue *)
| Rewritten (read : AlignedRead).

(** Loop body of [trim_read_pair_low_quality].  The test
    [(...).mean() < 0.9] compares the quotient [count / n] of two
    integers with nine tenths; it is written on integers as
    [10 * count < 9 * n], which decides the same for every [n] a read
    length can take (the two differ by at least [1 / (10 * n)] when
    they differ). *)
Definition trim_low_quality_read (phred_min : Z) (read : AlignedRead) : read_step :=
  let phred := phred_of_qual (qual read) in
  let ind := map (fun q => phred_min <=? q) phred in
  if Py.all ind then Untouched
  else
    match left_edge phred phred_min (rlen read) with
    | Trash => Discard
    | Window read_start =>
        match right_edge phred phred_min (rlen read) read_start with
        | Trash => Discard
        | Window read_end =>
            let kept := Py.slice phred (Some read_start) (Some read_end) in
            if 10 * count_good phred_min kept <? 9 * Z.of_nat (length kept) then Discard
            else if (read_start =? 0) && (read_end =? rlen read) then Untouched
            else Rewritten (rewrite_read false read read_start (read_end - read_start))
        end
    end.

(** [for read in read_pair: ...] with a body that may return [True]. *)
Inductive loop_exit : Type :=
| Completed (read_pair : ReadPair) (tampered : bool)
| ReturnedTrue (read_pair : ReadPair).

Definition for_each_read (body : AlignedRead -> read_step) (read_pair : ReadPair)
  : loop_exit :=
  let second (read_pair : ReadPair) (tampered : bool) :=
    match body (snd read_pair) with
    | Discard => ReturnedTrue read_pair
    | Untouched => Completed read_pair tampered
    | Rewritten read1 => Completed (fst read_pair, read1) true
    end in
  match body (fst read_pair) with
  | Discard => ReturnedTrue read_pair
  | Untouched => second read_pair false
  | Rewritten read0 => second (read0, snd read_pair) true
  end.

(** The mate positions written once a read was tampered with, and the
    insert size computed from them. *)
Definition fix_mate_positions (read_pair : ReadPair) : ReadPair :=
  let i_fwd := is_reverse (fst read_pair) in
  let i_rev := negb i_fwd in
  let read_pair := upd_read read_pair i_fwd (set_mpos (pos (get_read read_pair i_rev))) in
  upd_read read_pair i_rev (set_mpos (pos (get_read read_pair i_fwd))).

Definition insert_size (read_pair : ReadPair) : Z :=
  let i_fwd := is_reverse (fst read_pair) in
  let i_rev := negb i_fwd in
  pos (get_read read_pair i_rev) + ref_span (cigar (get_read read_pair i_rev))
  - pos (get_read read_pair i_fwd).

Definition write_insert_size (isize' : Z) (read_pair : ReadPair) : ReadPair :=
  let i_fwd := is_reverse (fst read_pair) in
  let i_rev := negb i_fwd in
  let read_pair := upd_read read_pair i_fwd (set_isize isize') in
  upd_read read_pair i_rev (set_isize (- isize')).

(** [trim_read_pair_low_quality(read_pair, phred_min)]: the pair on exit
    and the returned boolean ([True] asks the caller to drop the pair).
    The argument [read_len_min] is not used by the function. *)
Definition trim_read_pair_low_quality (read_pair : ReadPair) (phred_min : Z)
  : ReadPair * bool :=
  match for_each_read (trim_low_quality_read phred_min) read_pair with
  | ReturnedTrue read_pair => (read_pair, true)
  | Completed read_pair false => (read_pair, false)
  | Completed read_pair true =>
      let read_pair := fix_mate_positions read_pair in
      let isize' := insert_size read_pair in
      if isize' <=? 0 then (read_pair, true)
      else (write_insert_size isize' read_pair, false)
  end.

(** ** Pair-level policies: main high-quality block *)

(** [np.diff(ind).nonzero()[0] + 1]: the positions at which [ind] changes. *)
Fixpoint switches_from (i : Z) (prev : bool) (ind : list bool) : list Z :=
  match ind with
  | [] => []
  | b :: ind' =>
      if Bool.eqb prev b then switches_from (i + 1) b ind'
      else i :: switches_from (i + 1) b ind'
  end.

Definition switches (ind : list bool) : list Z :=
  match ind with
  | [] => []
  | b :: ind' => switches_from 1 b ind'
  end.

(** [a[0::2]] *)
Fixpoint every_other {A} (a : list A) : list A :=
  match a with
  | [] => []
  | [x] => [x]
  | x :: _ :: rest => x :: every_other rest
  end.

(** [a[not first_block_good::2]] *)
Definition high_q_blocks {A} (first_block_good : bool) (a : list A) : list A :=
  if first_block_good then every_other a else every_other (tl a).

(** [a.argmax()]: the index of the first largest entry. *)
Fixpoint argmax_from (best_i : nat) (best : Z) (i : nat) (a : list Z) : nat :=
  match a with
  | [] => best_i
  | x :: a' =>
      if best <? x then argmax_from i x (S i) a'
      else argmax_from best_i best (S i) a'
  end.

Definition argmax (a : list Z) : nat :=
  match a with
  | [] => 0%nat (* not reached: lemma [main_block_has_block] *)
  | x :: a' => argmax_from 0%nat x 1%nat a'
  end.

(** The high-quality blocks of a read as two arrays, their starts and
    their ends, from the array [ind] of the positions at or above the
    cut-off. *)
Definition high_q_block_bounds (ind : list bool) : list Z * list Z :=
  let switch := switches ind in
  let ind_block_start := 0 :: switch in
  let ind_block_end := switch ++ [Z.of_nat (length ind)] in
  let first_block_good := hd false ind in
  (high_q_blocks first_block_good ind_block_start,
   high_q_blocks first_block_good ind_block_end).

(** [ind_block_end - ind_block_start] *)
Definition blocks_length (bounds : list Z * list Z) : list Z :=
  map (fun se => snd se - fst se) (combine (fst bounds) (snd bounds)).

(** Loop body of [main_block_read_pair_low_quality]. *)
Definition main_block_read (phred_min read_len_min : Z) (read : AlignedRead) : read_step :=
  let phred := phred_of_qual (qual read) in
  let ind := map (fun q => phred_min <=? q) phred in
  if negb (Py.any ind) then Discard
  else if Py.all ind then Untouched
  else
    let '(ind_block_start, ind_block_end) := high_q_block_bounds ind in
    let blocks_len := blocks_length (ind_block_start, ind_block_end) in
    let ind_largest_block := argmax blocks_len in
    if nth ind_largest_block blocks_len 0 <? read_len_min then Discard
    else
      let read_start := nth ind_largest_block ind_block_start 0 in
      let read_end := nth ind_largest_block ind_block_end 0 - read_start in
      Rewritten (rewrite_read true read read_start read_end).

Definition main_block_read_pair_low_quality (read_pair : ReadPair)
           (phred_min read_len_min : Z) : ReadPair * bool :=
  match for_each_read (main_block_read phred_min read_len_min) read_pair with
  | ReturnedTrue read_pair => (read_pair, true)
  | Completed read_pair false => (read_pair, false)
  | Completed read_pair true =>
      let read_pair := fix_mate_positions read_pair in
      (write_insert_size (insert_size read_pair) read_pair, false)
  end.

(** ** Pair-level policies: cross-overhang trimming *)

(** The loop over the forward read: the new CIGAR and [read_pos] on exit. *)
Fixpoint crossoverhang_fwd_walk (c : Cigar) (end_rev trim ref_pos read_pos : Z)
  : outcome (Cigar * Z) :=
  match c with
  | [] => Returned ([], read_pos)
  | (bt, bl) :: rest =>
      if bt =? 0 then
        if end_rev - trim <=? ref_pos + bl
        then Returned ([(bt, end_rev - ref_pos - trim)],
                       read_pos + (end_rev - ref_pos - trim))
        else
          '(c', read_pos') <- crossoverhang_fwd_walk rest end_rev trim
                                (ref_pos + bl) (read_pos + bl) ;;
          Returned ((bt, bl) :: c', read_pos')
      else if bt =? 1 then
        '(c', read_pos') <- crossoverhang_fwd_walk rest end_rev trim
                              ref_pos (read_pos + bl) ;;
        Returned ((bt, bl) :: c', read_pos')
      else if bt =? 2 then
        if end_rev - trim <=? ref_pos + bl then Returned ([], read_pos)
        else
          '(c', read_pos') <- crossoverhang_fwd_walk rest end_rev trim
                                (ref_pos + bl) read_pos ;;
          Returned ((bt, bl) :: c', read_pos')
      else Raised (ValueError_cigar_type bt)
  end.

(** The loop over the reversed CIGAR of the reverse read: the blocks in
    the order they were appended, [read_pos] and [ref_pos] on exit. *)
Fixpoint crossoverhang_rev_walk (rc : Cigar) (start_fwd trim ref_pos read_pos : Z)
  : outcome (Cigar * Z * Z) :=
  match rc with
  | [] => Returned ([], read_pos, ref_pos)
  | (bt, bl) :: rest =>
      if bt =? 0 then
        if ref_pos - bl <=? start_fwd + trim
        then Returned ([(bt, ref_pos - (start_fwd + trim))],
                       read_pos - (ref_pos - (start_fwd + trim)),
                       start_fwd + trim)
        else
          '(c', read_pos', ref_pos') <- crossoverhang_rev_walk rest start_fwd trim
                                          (ref_pos - bl) (read_pos - bl) ;;
          Returned ((bt, bl) :: c', read_pos', ref_pos')
      else if bt =? 1 then
        '(c', read_pos', ref_pos') <- crossoverhang_rev_walk rest start_fwd trim
                                        ref_pos (read_pos - bl) ;;
        Returned ((bt, bl) :: c', read_pos', ref_pos')
      else if bt =? 2 then
        if ref_pos - bl <=? start_fwd + trim then Returned ([], read_pos, ref_pos)
        else
          '(c', read_pos', ref_pos') <- crossoverhang_rev_walk rest start_fwd trim
                                          (ref_pos - bl) read_pos ;;
          Returned ((bt, bl) :: c', read_pos', ref_pos')
      else Raised (ValueError_cigar_type bt)
  end.

(** [trim_read_pair_crossoverhangs(read_pair, trim)]: the pair on exit
    and whether the call returned or raised. *)
Definition trim_read_pair_crossoverhangs (read_pair : ReadPair) (trim : Z)
  : ReadPair * outcome unit :=
  let i_fwd := is_reverse (fst read_pair) in
  let i_rev := negb i_fwd in
  (* FWD *)
  let end_rev := pos (get_read read_pair i_fwd) + isize (get_read read_pair i_fwd) in
  let read := get_read read_pair i_fwd in
  match crossoverhang_fwd_walk (cigar read) end_rev trim (pos read) 0 with
  | Raised e => (read_pair, Raised e)
  | Returned (cigar_fwd, read_pos) =>
      let seq0 := seq read in
      let qual0 := qual read in
      let read_pair :=
        upd_read read_pair i_fwd
          (fun read => set_cigar cigar_fwd
                         (set_qual (Py.slice qual0 None (Some read_pos))
                            (set_seq (Py.slice seq0 None (Some read_pos)) read))) in
      (* REV *)
      let start_fwd := pos (get_read read_pair i_fwd) in
      let read := get_read read_pair i_rev in
      match crossoverhang_rev_walk (rev (cigar read)) start_fwd trim end_rev (rlen read) with
      | Raised e => (read_pair, Raised e)
      | Returned (appended, read_pos, ref_pos) =>
          let cigar_rev := rev appended in
          let seq0 := seq read in
          let qual0 := qual read in
          let read_pair :=
            upd_read read_pair i_rev
              (fun read => set_cigar cigar_rev
                             (set_qual (Py.slice qual0 (Some read_pos) None)
                                (set_seq (Py.slice seq0 (Some read_pos) None)
                                   (set_pos ref_pos read)))) in
          (* Fix mate pair *)
          let read_pair := fix_mate_positions read_pair in
          (write_insert_size (insert_size read_pair) read_pair, Returned tt)
      end
  end.

(** ** Further functions of the module *)

(** [pair_generator(iterable)]: the items two by two.  The generator
    ends at the first [StopIteration], so an odd last item is lost. *)
Fixpoint pair_generator {A} (iterable : list A) : list (A * A) :=
  match iterable with
  | p1 :: p2 :: rest => (p1, p2) :: pair_generator rest
  | _ => []
  end.

(** [a[lo:hi] = v] on a one-dimensional array, for bounds that are not
    negative. *)
Definition set_slice {A} (a : list A) (lo hi : nat) (v : A) : list A :=
  map (fun ix => if (lo <=? fst ix)%nat && (fst ix <? hi)%nat then v else snd ix)
      (combine (List.seq 0%nat (length a)) a).

(** [get_ind_good_cigars(cigar, match_len_min, full_output=True)]: the
    array [good_cigars] and the indices of the first and of the last good
    block ([None] when there is none).  Without [full_output] the
    function returns the array alone. *)
Definition get_ind_good_cigars (c : Cigar) (match_len_min : Z)
  : list bool * option nat * option nat :=
  let good_cigars := map (criterion match_len_min) c in
  let n_good_cigars := length (filter (fun b => b) good_cigars) in
  if (2 <=? n_good_cigars)%nat then
    let tmp := Py.nonzero good_cigars in
    let first_good := hd 0%nat tmp in
    let last_good := last tmp 0%nat in
    (set_slice good_cigars first_good (last_good + 1) true,
     Some first_good, Some last_good)
  else if (n_good_cigars =? 1)%nat then
    let first_good := hd 0%nat (Py.nonzero good_cigars) in
    (good_cigars, Some first_good, Some first_good)
  else (good_cigars, None, None).

(** [a[i, 0] = v] and [a[i, 1] = v] on an array of rows of two. *)
Definition set_row_left (a : list (Z * Z)) (i : nat) (v : Z) : list (Z * Z) :=
  map (fun ix => if (fst ix =? i)%nat then (v, snd (snd ix)) else snd ix)
      (combine (List.seq 0%nat (length a)) a).

Definition set_row_right (a : list (Z * Z)) (i : nat) (v : Z) : list (Z * Z) :=
  map (fun ix => if (fst ix =? i)%nat then (fst (snd ix), v) else snd ix)
      (combine (List.seq 0%nat (length a)) a).

(** [get_trims_from_good_cigars(good_cigars, trim_left, trim_right)] *)
Definition get_trims_from_good_cigars (good_cigars : list bool) (trim_left trim_right : Z)
  : list (Z * Z) :=
  let trims_left_right := repeat (0, 0) (length good_cigars) in
  if Py.any good_cigars then
    let tmp := Py.nonzero good_cigars in
    let first_good := hd 0%nat tmp in
    let last_good := last tmp 0%nat in
    let trims_left_right :=
      if negb (Nat.eqb first_good 0)
      then set_row_left trims_left_right first_good trim_left
      else trims_left_right in
    if negb (Nat.eqb last_good (length good_cigars - 1))
    then set_row_right trims_left_right last_good trim_right
    else trims_left_right
  else trims_left_right.

(** [get_read_start_end(read)] *)
Definition get_read_start_end (read : AlignedRead) : Z * Z :=
  let start := pos read in
  (start, start + ref_span (cigar read)).

(** [test_read_pair_exotic_cigars(read_pair)]: the set of the operation
    codes of a read, less [{0, 1, 2}], is not empty when some block has
    a code outside of it. *)
Definition test_read_pair_exotic_cigars (read_pair : ReadPair) : bool :=
  let exotic (read : AlignedRead) :=
    existsb (fun b => negb ((fst b =? 0) || (fst b =? 1) || (fst b =? 2))) (cigar read) in
  if exotic (fst read_pair) then true
  else if exotic (snd read_pair) then true
  else false.

(** [test_read_pair_exceed_reference(read_pair, length)] *)
Definition test_read_pair_exceed_reference (read_pair : ReadPair) (length0 : Z) : bool :=
  let exceeds (read : AlignedRead) :=
    let '(start, end_) := get_read_start_end read in
    (length0 <? end_) || (length0 <=? start) in
  if exceeds (fst read_pair) then true
  else if exceeds (snd read_pair) then true
  else false.

(** [reads_to_seqrecord(reads)].  A [SeqRecord] is embedded as the
    fields the function fills: identifier, name and description, the
    sequence, and the per-letter annotation [phred_quality]. *)
Record SeqRecord : Type := mkSeqRecord {
  rec_id : string;
  rec_name : string;
  rec_description : string;
  rec_seq : list ascii;
  phred_quality : list Z
}.

(** What the function raises: the look-up of a letter that is not a key
    of [q_mapping], and the [ValueError] of the range check. *)
Inductive seqrecord_exn : Type :=
| KeyError (letter : ascii)
| ValueError_quality.                      (* 'Invalid character in quality string' *)

Definition SANGER_SCORE_OFFSET : Z := 33.  (* ord("!") *)

(** [q_mapping]: the table is filled for [xrange(0, 255)], which leaves
    [chr(255)] out. *)
Definition q_mapping (letter : ascii) : option Z :=
  let code := Z.of_nat (nat_of_ascii letter) in
  if code <? 255 then Some (code - SANGER_SCORE_OFFSET) else None.

(** [[q_mapping[letter] for letter in read.qual]] *)
Fixpoint qualities_of (q : list ascii) : seqrecord_exn + list Z :=
  match q with
  | [] => inr []
  | letter :: rest =>
      match q_mapping letter with
      | None => inl (KeyError letter)
      | Some quality =>
          match qualities_of rest with
          | inl e => inl e
          | inr qualities => inr (quality :: qualities)
          end
      end
  end.

(** [min(l)] and [max(l)]; the code takes them of lists that are not
    empty. *)
Definition py_min (l : list Z) : Z :=
  match l with
  | [] => 0
  | x :: l' => fold_left Z.min l' x
  end.

Definition py_max (l : list Z) : Z :=
  match l with
  | [] => 0
  | x :: l' => fold_left Z.max l' x
  end.

(** The body of the loop over the reads. *)
Definition read_to_seqrecord (read : AlignedRead) : seqrecord_exn + SeqRecord :=
  match qualities_of (qual read) with
  | inl e => inl e
  | inr qualities =>
      if match qualities with [] => false | _ => true end
         && ((py_min qualities <? 0) || (93 <? py_max qualities))
      then inl ValueError_quality
      else inr (mkSeqRecord (qname read) (qname read) (qname read) (seq read) qualities)
  end.

Fixpoint reads_to_seqrecord (reads : list AlignedRead) : seqrecord_exn + list SeqRecord :=
  match reads with
  | [] => inr []
  | read :: rest =>
      match read_to_seqrecord read with
      | inl e => inl e
      | inr record =>
          match reads_to_seqrecord rest with
          | inl e => inl e
          | inr seqs => inr (record :: seqs)
          end
      end
  end.

(** * Statements: predicates and example inputs

    Definitions used to state the properties below; they are not part of
    the embedded code. *)

(** A field-by-field comparison of two reads, leaving out the two mate
    fields. *)
Definition same_alignment (r r' : AlignedRead) : Prop :=
  qname r' = qname r /\ seq r' = seq r /\ qual r' = qual r /\
  cigar r' = cigar r /\ pos r' = pos r /\ is_reverse r' = is_reverse r.

(** A forward read at 100 and a reverse read lying wholly before it, at
    0: both 50 bases long, with consistent CIGARs. *)
Definition reads_apart : ReadPair :=
  (mkRead "pair" (repeat "A"%char 50) (repeat "?"%char 50) [(0, 50)] 100 0 0 false,
   mkRead "pair" (repeat "C"%char 50) (repeat "?"%char 50) [(0, 50)] 0 0 0 true).

(** A proper-looking pair: forward read at 100, reverse read at 300. *)
Definition reads_facing : ReadPair :=
  (mkRead "pair" (repeat "A"%char 50) (repeat "?"%char 50) [(0, 50)] 100 0 0 false,
   mkRead "pair" (repeat "C"%char 50) (repeat "?"%char 50) [(0, 50)] 300 0 0 true).

(** A block the edge walks anchor on: neither an insertion nor a
    deletion, and at least [match_len_min] long. *)
Definition anchors (match_len_min : Z) (b : Z * Z) : bool :=
  negb (fst b =? 2) && negb (fst b =? 1) && negb (snd b <? match_len_min).

(** Operation codes of the data model: MATCH, INSERTION, DELETION. *)
Definition known_op (b : Z * Z) : bool :=
  (fst b =? 0) || (fst b =? 1) || (fst b =? 2).

(** Two reads made of insertions only: neither has a block to anchor
    on, so [trim_short_cigars] reports failure for both. *)
Definition reads_untrimmable : ReadPair :=
  (mkRead "pair" (repeat "A"%char 8) (repeat "?"%char 8) [(1, 8)] 100 0 0 false,
   mkRead "pair" (repeat "C"%char 8) (repeat "?"%char 8) [(1, 8)] 120 0 0 true).

(** The quality string of scenario C: Phred 10 for the first five bases
    and Phred 30 for the other [n - 5]. *)
Definition qual_low5 (n : nat) : list ascii :=
  repeat "+"%char 5 ++ repeat "?"%char (n - 5).

(** A proper pair with an insert of three bases: the forward read starts
    at 100 with five low-quality bases, the reverse read ends at 103. *)
Definition reads_short_insert : ReadPair :=
  (mkRead "pair" (repeat "A"%char 60) (qual_low5 60) [(0, 60)] 100 43 3 false,
   mkRead "pair" (repeat "C"%char 60) (repeat "?"%char 60) [(0, 60)] 43 100 (-3) true).

(** A loop body that rewrites a read without touching its mate fields. *)
Definition keeps_mate_fields (body : AlignedRead -> read_step) : Prop :=
  forall read read', body read = Rewritten read' ->
    isize read' = isize read /\ mpos read' = mpos read /\
    is_reverse read' = is_reverse read /\ qname read' = qname read.

(** The pair a loop exit carries. *)
Definition exit_pair (e : loop_exit) : ReadPair :=
  match e with
  | Completed read_pair _ => read_pair
  | ReturnedTrue read_pair => read_pair
  end.

(** A block that is neither an insertion nor a deletion. *)
Definition no_indel (b : Z * Z) : bool :=
  negb (fst b =? 1) && negb (fst b =? 2).

(** The read has a MATCH block of length at least [match_len_min]. *)
Definition has_good_block (match_len_min : Z) (read : AlignedRead) : bool :=
  existsb (criterion match_len_min) (cigar read).

(** [trim_short_cigars] finds nothing to anchor a trim on: either the
    read has no good block when its left edge is examined, or the read
    as the left trim leaves it has none when its right edge is. *)
Definition untrimmable (match_len_min trim_pad : Z) (read : AlignedRead) : Prop :=
  has_good_block match_len_min read = false \/
  exists read1,
    trim_left_edge read match_len_min trim_pad = Returned (Trimmed read1) /\
    has_good_block match_len_min read1 = false.

(** A read whose only good block is 21 long and follows a short
    insertion: the left trim shortens the block to 18. *)
Definition read_single_anchor : AlignedRead :=
  mkRead "read" (repeat "A"%char 23) (repeat "?"%char 23) [(1, 2); (0, 21)] 100 0 0 false.

(** A block as the edge walks of [trim_short_cigars] take it: what is
    not an insertion or a deletion counts as a match. *)
Definition as_match (b : Z * Z) : Z * Z :=
  if (fst b =? 1) || (fst b =? 2) then b else (0, snd b).

(** A pair whose forward read starts with a soft clip (operation 4). *)
Definition reads_soft_clipped : ReadPair :=
  (mkRead "pair" (repeat "A"%char 50) (repeat "?"%char 50) [(4, 5); (0, 45)] 100 300 250 false,
   mkRead "pair" (repeat "C"%char 50) (repeat "?"%char 50) [(0, 50)] 300 100 (-250) true).

(** A proper pair whose reads run past each other's start: an insert of
    40 bases read by two reads of 60. *)
Definition reads_overhanging : ReadPair :=
  (mkRead "pair" (repeat "A"%char 60) (repeat "?"%char 60) [(0, 60)] 100 80 40 false,
   mkRead "pair" (repeat "C"%char 60) (repeat "?"%char 60) [(0, 60)] 80 100 (-40) true).

(** The loop returns [True] at a read before it has rewritten any:
    at the first read, or at the second after leaving the first alone. *)
Definition discards_before_rewriting
           (body : AlignedRead -> read_step) (read_pair : ReadPair) : Prop :=
  body (fst read_pair) = Discard \/
  (body (fst read_pair) = Untouched /\ body (snd read_pair) = Discard).

(** A pair whose first read has five low-quality bases at its left edge
    and whose second read is of low quality throughout. *)
Definition reads_second_bad : ReadPair :=
  (mkRead "pair" (repeat "A"%char 60) (qual_low5 60) [(0, 60)] 100 300 260 false,
   mkRead "pair" (repeat "C"%char 60) (repeat "+"%char 60) [(0, 60)] 300 100 (-260) true).

(** The same two reads in the other order. *)
Definition reads_first_bad : ReadPair :=
  (snd reads_second_bad, fst reads_second_bad).

(** The cell function of [set_slice], named for the lemmas about it. *)
Definition set_slice_cell {A} (lo hi : nat) (v : A) (ix : nat * A) : A :=
  if (lo <=? fst ix)%nat && (fst ix <? hi)%nat then v else snd ix.

(** A read as the aligner hands it over: a CIGAR of matches, insertions
    and deletions of no negative length that accounts for every base of
    the read, and one quality per base. *)
Definition well_formed (read : AlignedRead) : Prop :=
  forallb known_op (cigar read) = true /\
  Forall (fun b => 0 <= snd b) (cigar read) /\
  read_span (cigar read) = rlen read /\
  length (qual read) = length (seq read).

(** A read with an insertion and a short match before its first long
    match, and a deletion and a short match after its last. *)
Definition read_ragged : AlignedRead :=
  mkRead "read" (repeat "A"%char 70) (repeat "?"%char 70)
         [(1, 2); (0, 5); (0, 30); (1, 3); (0, 25); (2, 4); (0, 5)] 100 0 0 false.

(** A pair of two such reads, the second one on the reverse strand. *)
Definition reads_ragged : ReadPair :=
  (read_ragged,
   mkRead "read" (repeat "C"%char 70) (repeat "?"%char 70)
          [(1, 2); (0, 5); (0, 30); (1, 3); (0, 25); (2, 4); (0, 5)] 150 0 0 true).

(** [read'] is what a quality trim makes of [read]: a well-formed read
    on the same strand that starts no further left, with the mate
    fields of [read]. *)
Definition trimmed_from (read read' : AlignedRead) : Prop :=
  well_formed read' /\ pos read <= pos read' /\
  is_reverse read' = is_reverse read /\
  mpos read' = mpos read /\ isize read' = isize read.

(** A pair of two well-formed reads of 60 bases, proper, whose forward
    read has five low-quality bases at its left edge. *)
Definition reads_low_start : ReadPair :=
  (mkRead "pair" (repeat "A"%char 60) (qual_low5 60) [(0, 20); (1, 2); (0, 38)]
          100 297 260 false,
   mkRead "pair" (repeat "C"%char 60) (repeat "?"%char 60) [(0, 30); (2, 3); (0, 30)]
          297 100 (-260) true).

(** The blocks of equal quality flag a read is divided into, as pairs of
    a start and an end: the block begun at [s], which has reached
    position [i] with flag [b], and the blocks of the flags [ind] of the
    positions from [i] on. *)
Definition blocks_from (s : Z) (b : bool) (i : Z) (ind : list bool) : list (Z * Z) :=
  combine (s :: switches_from i b ind)
          (switches_from i b ind ++ [i + Z.of_nat (length ind)]).

(** The flag of position [j], for the same division. *)
Definition ind_at (b : bool) (i : Z) (ind : list bool) (j : Z) : bool :=
  if j <? i then b else nth (Z.to_nat (j - i)) ind false.

(** A read of 80 bases: ten of low quality, sixty of high quality, ten
    of low quality. *)
Definition read_good_middle : AlignedRead :=
  mkRead "read" (repeat "A"%char 80)
         (repeat "+"%char 10 ++ repeat "?"%char 60 ++ repeat "+"%char 10)
         [(0, 80)] 100 0 0 false.

(** A letter of a Sanger quality string: ["!"] (Phred 0) to ["~"]
    (Phred 93). *)
Definition sanger_letter (letter : ascii) : bool :=
  (33 <=? Z.of_nat (nat_of_ascii letter)) && (Z.of_nat (nat_of_ascii letter) <=? 126).

(** The record of a read, with the Phred scores as the quality trimmers
    compute them. *)
Definition record_of (read : AlignedRead) : SeqRecord :=
  mkSeqRecord (qname read) (qname read) (qname read) (seq read)
              (phred_of_qual (qual read)).



(** A proper pair whose reads lie well apart: an insert of 300 bases
    read by two reads of 60. *)
Definition reads_distant : ReadPair :=
  (mkRead "pair" (repeat "A"%char 60) (repeat "?"%char 60) [(0, 30); (1, 2); (0, 28)]
          100 337 300 false,
   mkRead "pair" (repeat "C"%char 60) (repeat "?"%char 60) [(0, 57); (2, 3); (0, 3)]
          337 100 (-300) true).

(** * Properties *)

(** ** Lists, slices and sums *)

Section Lists.
Context {A : Type}.

Lemma any_map (f : A -> bool) (l : list A) :
  Py.any (map f l) = existsb f l.
Proof. induction l as [|x l IH]; cbn; [reflexivity|]. now rewrite <- IH. Qed.

Lemma forallb_firstn (f : A -> bool) (n : nat) (l : list A) :
  forallb f l = true -> forallb f (firstn n l) = true.
Proof.
  revert n. induction l as [|x l IH]; intros [|n]; cbn; try reflexivity.
  intros H. apply andb_prop in H as [-> H]. cbn. now apply IH.
Qed.

Lemma forallb_skipn (f : A -> bool) (n : nat) (l : list A) :
  forallb f l = true -> forallb f (skipn n l) = true.
Proof.
  revert n. induction l as [|x l IH]; intros [|n]; cbn; try reflexivity; try tauto.
  intros H. apply andb_prop in H as [_ H]. now apply IH.
Qed.

Lemma existsb_rev (f : A -> bool) (l : list A) :
  existsb f (rev l) = existsb f l.
Proof.
  induction l as [|x l IH]; cbn; [reflexivity|].
  rewrite existsb_app, IH. cbn. rewrite orb_false_r. apply orb_comm.
Qed.

Lemma last_app_nonempty (l1 l2 : list A) (d : A) :
  l2 <> [] -> last (l1 ++ l2) d = last l2 d.
Proof.
  intros Hne. induction l1 as [|x l1 IH]; [reflexivity|].
  cbn [app]. destruct (l1 ++ l2) eqn:E.
  - apply app_eq_nil in E as [_ E]. contradiction.
  - exact IH.
Qed.

Lemma last_In (l : list A) (d : A) : l <> [] -> In (last l d) l.
Proof.
  induction l as [|x l IH]; [congruence|]. intros _.
  destruct l as [|y l]; [now left|]. right. apply IH. discriminate.
Qed.

Lemma first_good_split (f : A -> bool) (l : list A) :
  existsb f l = true ->
  exists pre b post, l = pre ++ b :: post /\ existsb f pre = false /\ f b = true.
Proof.
  induction l as [|x l IH]; cbn [existsb]; [discriminate|].
  destruct (f x) eqn:Hx.
  - intros _. now exists [], x, l.
  - cbn [orb]. intros H. destruct (IH H) as (pre & b & post & -> & Hpre & Hb).
    exists (x :: pre), b, post. cbn [app existsb]. now rewrite Hx.
Qed.

Lemma skipn_repeat (x : A) (k j : nat) :
  skipn k (repeat x j) = repeat x (j - k).
Proof.
  revert j. induction k as [|k IH]; intros [|j]; cbn; try reflexivity. apply IH.
Qed.

Lemma slice_in_range (l : list A) (a b : Z) :
  0 <= a -> a <= b -> b <= Z.of_nat (length l) ->
  Py.slice l (Some a) (Some b) = firstn (Z.to_nat (b - a)) (skipn (Z.to_nat a) l).
Proof.
  intros Ha Hab Hb. unfold Py.slice, Py.clamp.
  destruct (Z.ltb_spec a 0); [lia|]. destruct (Z.ltb_spec b 0); [lia|].
  now rewrite !Z.min_l by lia.
Qed.

Lemma slice_prefix_all (l : list A) :
  Py.slice l None (Some (Z.of_nat (length l))) = l.
Proof.
  unfold Py.slice, Py.clamp. destruct (Z.ltb_spec (Z.of_nat (length l)) 0); [lia|].
  rewrite Z.min_id, Z.sub_0_r, Nat2Z.id. cbn [Z.to_nat skipn]. apply firstn_all.
Qed.

Lemma slice_prefix (l : list A) (k : Z) :
  0 <= k -> Py.slice l None (Some k) = firstn (Z.to_nat k) l.
Proof.
  intros Hk. unfold Py.slice, Py.clamp. destruct (Z.ltb_spec k 0); [lia|].
  rewrite Z.sub_0_r. cbn [Z.to_nat skipn].
  destruct (Z.le_gt_cases k (Z.of_nat (length l))).
  - now rewrite Z.min_l.
  - rewrite Z.min_r, Nat2Z.id by lia. rewrite firstn_all. symmetry.
    apply firstn_all2. lia.
Qed.

Lemma slice_prefix_again (l : list A) (k : Z) :
  0 <= k ->
  Py.slice (Py.slice l None (Some k)) None (Some k) = Py.slice l None (Some k).
Proof.
  intros Hk. rewrite !slice_prefix by exact Hk.
  rewrite firstn_firstn. now rewrite Nat.min_id.
Qed.

Lemma slice_from_zero (l : list A) : Py.slice l (Some 0) None = l.
Proof.
  unfold Py.slice, Py.clamp. cbn [Z.ltb Z.compare].
  rewrite Z.min_l by lia. rewrite Z.sub_0_r, Nat2Z.id. cbn [Z.to_nat skipn].
  apply firstn_all.
Qed.

Lemma slice_suffix (l : list A) (k : Z) :
  0 <= k -> Py.slice l (Some k) None = skipn (Z.to_nat k) l.
Proof.
  intros Hk. unfold Py.slice, Py.clamp. destruct (Z.ltb_spec k 0); [lia|].
  destruct (Z.le_gt_cases k (Z.of_nat (length l))).
  - rewrite Z.min_l by lia. apply firstn_all2. rewrite length_skipn. lia.
  - rewrite Z.min_r, Z.sub_diag, Nat2Z.id by lia. cbn [Z.to_nat firstn].
    symmetry. apply skipn_all2. lia.
Qed.

Lemma nonzero_from_nonempty (f : A -> bool) (l : list A) :
  existsb f l = true -> forall i, Py.nonzero_from i (map f l) <> [].
Proof.
  induction l as [|x l IH]; cbn [existsb map Py.nonzero_from]; [discriminate|].
  intros H i. destruct (f x); [discriminate|]. now apply IH.
Qed.

Lemma nonzero_from_none (f : A -> bool) (l : list A) :
  existsb f l = false -> forall i, Py.nonzero_from i (map f l) = [].
Proof.
  induction l as [|x l IH]; cbn [existsb map Py.nonzero_from]; [reflexivity|].
  intros H i. apply orb_false_elim in H as [-> H]. now apply IH.
Qed.

Lemma every_other_nonempty (a : list A) : a <> [] -> every_other a <> [].
Proof. destruct a as [|x [|y a]]; [congruence | discriminate | discriminate]. Qed.

End Lists.

Lemma nonzero_from_app (l1 l2 : list bool) :
  forall i, Py.nonzero_from i (l1 ++ l2)
            = Py.nonzero_from i l1 ++ Py.nonzero_from (i + length l1) l2.
Proof.
  induction l1 as [|b l1 IH]; intros i; cbn [app Py.nonzero_from length].
  - now rewrite Nat.add_0_r.
  - rewrite IH, Nat.add_succ_comm. now destruct b.
Qed.

Lemma nonzero_from_ge (l : list bool) :
  forall i k, In k (Py.nonzero_from i l) -> (i <= k)%nat.
Proof.
  induction l as [|b l IH]; intros i k; cbn [Py.nonzero_from In]; [tauto|].
  destruct b; cbn [In]; [intros [<-|H]; [lia|]|intros H]; apply IH in H; lia.
Qed.

Lemma sum_app (l1 l2 : list Z) : Py.sum (l1 ++ l2) = Py.sum l1 + Py.sum l2.
Proof.
  unfold Py.sum. induction l1 as [|x l1 IH]; cbn [app fold_right]; [reflexivity|].
  rewrite IH. lia.
Qed.

Lemma sum_rev (l : list Z) : Py.sum (rev l) = Py.sum l.
Proof.
  induction l as [|x l IH]; cbn [rev]; [reflexivity|].
  rewrite sum_app, IH. unfold Py.sum. cbn [fold_right]. lia.
Qed.

(** ** The edge loops of the quality trimmer terminate *)

Lemma left_edge_loop_terminates (phred : list Z) (phred_min rlen0 : Z) :
  forall (fuel : nat) (read_start : Z),
    (Z.to_nat (rlen0 - read_start) < fuel)%nat ->
    exists s, left_edge_loop fuel phred phred_min rlen0 read_start = Some s.
Proof.
  induction fuel as [|fuel IH]; intros read_start Hfuel; [lia|].
  simpl. destruct (rlen0 - read_size_min <? read_start) eqn:Hout.
  - now exists Trash.
  - match goal with |- context [if ?c then _ else _] => destruct c end.
    + apply IH. apply Z.ltb_ge in Hout. unfold read_size_min, shift in *. lia.
    + eexists; reflexivity.
Qed.

Lemma right_edge_loop_terminates (phred : list Z) (phred_min read_start : Z) :
  forall (fuel : nat) (read_end : Z),
    (Z.to_nat (read_end - read_start) < fuel)%nat ->
    exists s, right_edge_loop fuel phred phred_min read_start read_end = Some s.
Proof.
  induction fuel as [|fuel IH]; intros read_end Hfuel; [lia|].
  simpl. destruct (read_end <? read_start + read_size_min) eqn:Hout.
  - now exists Trash.
  - match goal with |- context [if ?c then _ else _] => destruct c end.
    + apply IH. apply Z.ltb_ge in Hout. unfold read_size_min, shift in *. lia.
    + eexists; reflexivity.
Qed.

(** The left loop only ever leaves at a point reached from its start. *)
Lemma left_edge_loop_window_ge (phred : list Z) (phred_min rlen0 : Z) :
  forall (fuel : nat) (read_start p : Z),
    left_edge_loop fuel phred phred_min rlen0 read_start = Some (Window p) ->
    read_start + shift <= p.
Proof.
  induction fuel as [|fuel IH]; intros read_start p H; [discriminate|].
  simpl in H. destruct (rlen0 - read_size_min <? read_start); [discriminate|].
  match type of H with context [if ?c then _ else _] => destruct c end.
  - apply IH in H. unfold shift in *. lia.
  - injection H as <-. lia.
Qed.

Lemma left_edge_total (phred : list Z) (phred_min rlen0 : Z) :
  left_edge_loop (edge_fuel rlen0) phred phred_min rlen0 0 <> None.
Proof.
  destruct (left_edge_loop_terminates phred phred_min rlen0 (edge_fuel rlen0) 0) as [s Hs].
  - unfold edge_fuel. rewrite Z.sub_0_r. lia.
  - congruence.
Qed.

Lemma left_edge_window_nonneg (phred : list Z) (phred_min rlen0 p : Z) :
  left_edge phred phred_min rlen0 = Window p -> 0 <= p.
Proof.
  unfold left_edge.
  destruct (left_edge_loop (edge_fuel rlen0) phred phred_min rlen0 0) as [[q|]|] eqn:E;
    try discriminate.
  intros H. injection H as <-. apply left_edge_loop_window_ge in E. lia.
Qed.

Lemma right_edge_total (phred : list Z) (phred_min rlen0 read_start : Z) :
  0 <= read_start ->
  right_edge_loop (edge_fuel rlen0) phred phred_min read_start rlen0 <> None.
Proof.
  intros Hpos.
  destruct (right_edge_loop_terminates phred phred_min read_start (edge_fuel rlen0) rlen0)
    as [s Hs].
  - unfold edge_fuel. lia.
  - congruence.
Qed.

(** The left trim point is reached in steps of [shift] bases. *)
Lemma left_edge_loop_steps (phred : list Z) (phred_min rlen0 : Z) :
  forall (fuel : nat) (read_start p : Z),
    left_edge_loop fuel phred phred_min rlen0 read_start = Some (Window p) ->
    exists k : nat, p = read_start + shift * Z.of_nat (S k).
Proof.
  induction fuel as [|fuel IH]; intros read_start p H; [discriminate|].
  simpl in H. destruct (rlen0 - read_size_min <? read_start); [discriminate|].
  match type of H with context [if ?c then _ else _] => destruct c end.
  - apply IH in H as [k ->]. exists (S k). unfold shift. lia.
  - injection H as <-. exists 0%nat. unfold shift. lia.
Qed.

Lemma left_edge_steps (phred : list Z) (phred_min rlen0 p : Z) :
  left_edge phred phred_min rlen0 = Window p ->
  exists k : nat, p = shift * Z.of_nat k.
Proof.
  unfold left_edge.
  destruct (left_edge_loop (edge_fuel rlen0) phred phred_min rlen0 0) as [[q|]|] eqn:E;
    try discriminate.
  intros [= <-]. apply left_edge_loop_steps in E as [k ->].
  exists k. unfold shift. lia.
Qed.

(** Neither edge loop of [trim_low_quality_read] runs out of the
    iterations [edge_fuel] grants it. *)
Lemma edge_loops_total (phred : list Z) (phred_min rlen0 : Z) :
  left_edge_loop (edge_fuel rlen0) phred phred_min rlen0 0 <> None /\
  forall read_start,
    left_edge phred phred_min rlen0 = Window read_start ->
    right_edge_loop (edge_fuel rlen0) phred phred_min read_start rlen0 <> None.
Proof.
  split; [apply left_edge_total|].
  intros read_start H. apply right_edge_total.
  eapply left_edge_window_nonneg; eassumption.
Qed.

(** ** The list operations of the CIGAR rewriting stay in range *)

Lemma trim_start_walk_checked_returns (blocks : Cigar) :
  forall work read_start read_pos ref_start,
    (length blocks <= length work)%nat ->
    trim_start_walk_checked blocks work read_start read_pos ref_start
    = Returned (trim_start_walk blocks work read_start read_pos ref_start).
Proof.
  induction blocks as [|[bt bl] rest IH]; intros work read_start read_pos ref_start Hlen;
    [reflexivity|].
  cbn [length] in Hlen. destruct work as [|w work']; [cbn [length] in Hlen; lia|].
  cbn [length] in Hlen.
  cbn [trim_start_walk_checked trim_start_walk replace_head tl].
  destruct ((bt =? 0) || (bt =? 1)).
  - destruct (read_start <? read_pos + bl); [reflexivity|]. apply IH. lia.
  - destruct (bt =? 2); apply IH; cbn [length]; lia.
Qed.

Lemma trim_start_in_range (read : AlignedRead) (read_start : Z) :
  trim_start_walk_checked (cigar read) (cigar read) read_start 0 (pos read)
  = Returned (trim_start_walk (cigar read) (cigar read) read_start 0 (pos read)).
Proof. apply trim_start_walk_checked_returns. lia. Qed.

(** A read with a base at or above the cut-off has a high-quality
    block: [argmax] is not taken of an empty array. *)
Lemma switches_from_nonempty (ind : list bool) :
  forall i prev,
    existsb (fun b => negb (Bool.eqb prev b)) ind = true ->
    switches_from i prev ind <> [].
Proof.
  induction ind as [|b ind IH]; intros i prev; cbn [existsb switches_from];
    [discriminate|].
  destruct (Bool.eqb prev b) eqn:E; [|discriminate].
  apply Bool.eqb_prop in E. subst b. cbn [negb orb]. apply IH.
Qed.

Lemma main_block_has_block (ind : list bool) :
  Py.any ind = true -> blocks_length (high_q_block_bounds ind) <> [].
Proof.
  intros Hany. unfold blocks_length, high_q_block_bounds. cbn [fst snd].
  assert (Hne : forall (a b : list Z), a <> [] -> b <> [] ->
                  map (fun se => snd se - fst se) (combine a b) <> []).
  { intros [|x a] [|y b]; try congruence. discriminate. }
  destruct ind as [|b0 ind]; [discriminate|].
  cbn [hd switches length]. destruct b0; cbn [high_q_blocks tl].
  - apply Hne; apply every_other_nonempty; [discriminate|].
    destruct (switches_from 1 true ind); discriminate.
  - cbn [Py.any existsb orb] in Hany.
    assert (Hsw : switches_from 1 false ind <> []).
    { apply switches_from_nonempty. unfold Py.any in Hany. rewrite <- Hany.
      clear. induction ind as [|[] ind IH]; cbn; [reflexivity | reflexivity | exact IH]. }
    destruct (switches_from 1 false ind) as [|s sw]; [congruence|].
    cbn [app tl]. apply Hne; apply every_other_nonempty; [discriminate|].
    destruct sw; discriminate.
Qed.

(** ** The range of the good CIGAR blocks *)

(** Over MATCH, INSERTION and DELETION blocks the walk returns. *)
Lemma walk_blocks_known (blocks : Cigar) :
  forallb known_op blocks = true ->
  forall p_read p_ref, exists q_read q_ref,
    walk_blocks blocks p_read p_ref = Returned (q_read, q_ref).
Proof.
  induction blocks as [|[bt bl] rest IH]; intros Hk p_read p_ref; cbn [walk_blocks].
  - eexists _, _; reflexivity.
  - cbn [forallb] in Hk. apply andb_prop in Hk as [Hb Hk].
    unfold known_op in Hb. cbn [fst] in Hb.
    destruct (bt =? 0); [now apply IH|].
    destruct (bt =? 1); [now apply IH|].
    destruct (bt =? 2); [now apply IH|discriminate].
Qed.

(** Without insertions and deletions the walk advances both offsets by
    the same amount. *)
Lemma walk_blocks_no_indel (blocks : Cigar) :
  forallb no_indel blocks = true ->
  forall p_read p_ref q_read q_ref,
    walk_blocks blocks p_read p_ref = Returned (q_read, q_ref) ->
    q_read - p_read = q_ref - p_ref.
Proof.
  induction blocks as [|[bt bl] rest IH]; intros Hn p_read p_ref q_read q_ref;
    cbn [walk_blocks].
  - intros H. injection H as <- <-. lia.
  - cbn [forallb] in Hn. apply andb_prop in Hn as [Hb Hn].
    unfold no_indel in Hb. cbn [fst] in Hb.
    destruct (bt =? 0).
    + intros H. apply (IH Hn) in H. lia.
    + destruct (bt =? 1); [discriminate|].
      destruct (bt =? 2); [discriminate|]. discriminate.
Qed.

(** C2, as stated, fails: a CIGAR made of one insertion of 40 bases has
    a block of length at least [minMatchLen = 30], and the function
    returns the null range for it. *)
Lemma get_range_good_cigars_counterexample :
  existsb (fun b => 30 <=? snd b) [(1, 40)] = true /\
  get_range_good_cigars [(1, 40)] 0 30 3 3 = Returned None.
Proof. split; reflexivity. Qed.

(** C2, amended.  Without a MATCH block of length at least
    [match_len_min] the function returns [(None, None)].  With such a
    block, on a CIGAR of MATCH, INSERTION and DELETION blocks, it
    returns a pair of ranges; and if the blocks from the first to the
    last good one hold no insertion and no deletion, the range in the
    read is as long as the range in the reference. *)
Theorem get_range_good_cigars_ranges
        (c : Cigar) (pos0 match_len_min trim_left trim_right : Z) :
  (existsb (criterion match_len_min) c = false ->
   get_range_good_cigars c pos0 match_len_min trim_left trim_right = Returned None) /\
  (existsb (criterion match_len_min) c = true ->
   forallb known_op c = true ->
   exists start_read end_read start_ref end_ref,
     get_range_good_cigars c pos0 match_len_min trim_left trim_right
     = Returned (Some ((start_read, end_read), (start_ref, end_ref))) /\
     (forallb no_indel (good_span match_len_min c) = true ->
      end_read - start_read = end_ref - start_ref)).
Proof.
  unfold get_range_good_cigars. rewrite any_map. split; intros Hgood.
  - now rewrite Hgood.
  - intros Hk. rewrite Hgood. cbn [negb].
    destruct (walk_blocks_known (firstn (first_good_cigar match_len_min c) c)
                (forallb_firstn _ _ _ Hk) 0 pos0) as (s_read & s_ref & Hs).
    rewrite Hs. cbn [Py.bind].
    assert (Hspan : forallb known_op (good_span match_len_min c) = true).
    { unfold good_span. apply forallb_firstn. now apply forallb_skipn. }
    destruct (walk_blocks_known _ Hspan s_read s_ref) as (e_read & e_ref & He).
    rewrite He. cbn [Py.bind].
    destruct (negb (first_good_cigar match_len_min c =? 0)%nat),
      (negb (last_good_cigar match_len_min c =? length c - 1)%nat);
      eexists _, _, _, _; (split; [reflexivity|]);
      intros Hn; pose proof (walk_blocks_no_indel _ Hn _ _ _ _ He); lia.
Qed.

Lemma get_range_good_cigars_ranges_witness :
  exists start_read end_read start_ref end_ref,
    get_range_good_cigars [(0, 5); (1, 2); (0, 30)] 100 20 3 3
    = Returned (Some ((start_read, end_read), (start_ref, end_ref))) /\
    end_read - start_read = end_ref - start_ref.
Proof.
  destruct (proj2 (get_range_good_cigars_ranges [(0, 5); (1, 2); (0, 30)] 100 20 3 3)
              eq_refl eq_refl)
    as (start_read & end_read & start_ref & end_ref & Hrange & Hlen).
  exists start_read, end_read, start_ref, end_ref.
  split; [exact Hrange | apply Hlen; reflexivity].
Defined.

(** ** The first and the last good block *)

Lemma first_good_cigar_split (match_len_min : Z) (pre rest : Cigar) (b : Z * Z) :
  existsb (criterion match_len_min) pre = false ->
  criterion match_len_min b = true ->
  first_good_cigar match_len_min (pre ++ b :: rest) = length pre.
Proof.
  intros Hpre Hb. unfold first_good_cigar, Py.nonzero.
  rewrite map_app, nonzero_from_app, (nonzero_from_none _ _ Hpre).
  cbn [map Py.nonzero_from app]. rewrite Hb, length_map. reflexivity.
Qed.

Lemma last_good_cigar_split (match_len_min : Z) (rest post : Cigar) (b : Z * Z) :
  existsb (criterion match_len_min) post = false ->
  criterion match_len_min b = true ->
  last_good_cigar match_len_min (rest ++ b :: post) = length rest.
Proof.
  intros Hpost Hb. unfold last_good_cigar, Py.nonzero.
  rewrite map_app, nonzero_from_app. cbn [map Py.nonzero_from].
  rewrite Hb, (nonzero_from_none _ _ Hpost), length_map.
  now rewrite last_last.
Qed.

(** With one good block the span of the good blocks is that block. *)
Lemma good_span_one (match_len_min : Z) (pre post : Cigar) (b : Z * Z) :
  existsb (criterion match_len_min) pre = false ->
  criterion match_len_min b = true ->
  existsb (criterion match_len_min) post = false ->
  good_span match_len_min (pre ++ b :: post) = [b].
Proof.
  intros Hpre Hb Hpost. unfold good_span.
  rewrite (first_good_cigar_split _ _ _ _ Hpre Hb),
    (last_good_cigar_split _ _ _ _ Hpost Hb).
  replace (S (length pre) - length pre)%nat with 1%nat by lia.
  rewrite skipn_app, skipn_all, Nat.sub_diag. reflexivity.
Qed.

(** With more it runs from the first to the last of them, the blocks in
    between included. *)
Lemma good_span_two (match_len_min : Z) (pre mid post : Cigar) (b1 b2 : Z * Z) :
  existsb (criterion match_len_min) pre = false ->
  criterion match_len_min b1 = true ->
  criterion match_len_min b2 = true ->
  existsb (criterion match_len_min) post = false ->
  good_span match_len_min (pre ++ b1 :: mid ++ b2 :: post) = b1 :: mid ++ [b2].
Proof.
  intros Hpre H1 H2 Hpost. unfold good_span.
  rewrite (first_good_cigar_split _ _ _ _ Hpre H1).
  replace (pre ++ b1 :: mid ++ b2 :: post) with ((pre ++ b1 :: mid) ++ b2 :: post)
    by (rewrite <- app_assoc; reflexivity).
  rewrite (last_good_cigar_split _ _ _ _ Hpost H2).
  rewrite <- app_assoc. cbn [app].
  rewrite skipn_app, skipn_all, Nat.sub_diag. cbn [skipn app].
  rewrite length_app. cbn [length].
  replace (S (length pre + S (length mid)) - length pre)%nat
    with (S (length (mid ++ [b2]))) by (rewrite length_app; cbn [length]; lia).
  cbn [firstn]. f_equal.
  replace (mid ++ b2 :: post) with ((mid ++ [b2]) ++ post)
    by (rewrite <- app_assoc; reflexivity).
  rewrite firstn_app, firstn_all, Nat.sub_diag. cbn [firstn]. apply app_nil_r.
Qed.

(** Scenario A of the specification. *)
Example scenario_A_good_span :
  map (criterion 20) [(0, 5); (1, 2); (0, 30)] = [false; false; true] /\
  good_span 20 [(0, 5); (1, 2); (0, 30)] = [(0, 30)] /\
  get_range_good_cigars [(0, 5); (1, 2); (0, 30)] 100 20 3 3
  = Returned (Some ((10, 37), (108, 135))).
Proof. repeat split. Qed.

(** ** The short-CIGAR trimmer *)

Lemma anchors_known_op (match_len_min : Z) (b : Z * Z) :
  known_op b = true -> anchors match_len_min b = criterion match_len_min b.
Proof.
  destruct b as [bt bl]. unfold known_op, anchors, criterion. cbn [fst snd].
  destruct (Z.eqb_spec bt 0), (Z.eqb_spec bt 1), (Z.eqb_spec bt 2),
    (Z.ltb_spec bl match_len_min), (Z.leb_spec match_len_min bl);
    cbn; intros; try reflexivity; try discriminate; lia.
Qed.

(** The left walk breaks at the first anchoring block, and runs to its
    [else] clause when there is none. *)
Lemma trim_left_walk_none (match_len_min trim_pad : Z) (c : Cigar) :
  forall pos_ref pos_read,
    trim_left_walk match_len_min trim_pad c pos_ref pos_read = None
    <-> existsb (anchors match_len_min) c = false.
Proof.
  induction c as [|[bt bl] rest IH]; intros pos_ref pos_read; cbn [trim_left_walk existsb].
  - tauto.
  - unfold anchors at 1. cbn [fst snd].
    destruct (bt =? 2); [cbn; apply IH|].
    destruct (bt =? 1); [cbn; apply IH|].
    destruct (bl <? match_len_min); [cbn; apply IH|].
    cbn. split; discriminate.
Qed.

Lemma trim_right_walk_none (match_len_min trim_pad : Z) (rc : Cigar) :
  forall pos_read,
    trim_right_walk match_len_min trim_pad rc pos_read = None
    <-> existsb (anchors match_len_min) rc = false.
Proof.
  induction rc as [|[bt bl] rest IH]; intros pos_read; cbn [trim_right_walk existsb].
  - tauto.
  - unfold anchors at 1. cbn [fst snd].
    destruct (bt =? 2); [cbn; apply IH|].
    destruct (bt =? 1); [cbn; apply IH|].
    destruct (bl <? match_len_min); [cbn; apply IH|].
    cbn. split; discriminate.
Qed.

Lemma trim_left_walk_nonempty (match_len_min trim_pad : Z) (c : Cigar) :
  forall pos_ref pos_read cigar_new pos_ref' pos_read',
    trim_left_walk match_len_min trim_pad c pos_ref pos_read
      = Some (cigar_new, pos_ref', pos_read') ->
    cigar_new <> [].
Proof.
  induction c as [|[bt bl] rest IH]; intros pos_ref pos_read cigar_new pos_ref' pos_read';
    cbn [trim_left_walk]; [discriminate|].
  destruct (bt =? 2); [apply IH|].
  destruct (bt =? 1); [apply IH|].
  destruct (bl <? match_len_min); [apply IH|].
  intros H. injection H as <- _ _. discriminate.
Qed.

(** On a read that has a CIGAR, trimming the left edge raises nothing
    and leaves a read that still has a CIGAR. *)
Lemma trim_left_edge_returns (read : AlignedRead) (match_len_min trim_pad : Z) :
  cigar read <> [] ->
  trim_left_edge read match_len_min trim_pad = Returned NoAnchor \/
  exists read1, trim_left_edge read match_len_min trim_pad = Returned (Trimmed read1)
                /\ cigar read1 <> [].
Proof.
  intros Hne. unfold trim_left_edge.
  destruct (cigar read) as [|c0 rest] eqn:Hc; [congruence|].
  destruct (edge_block_short match_len_min c0).
  - destruct (trim_left_walk match_len_min trim_pad (c0 :: rest) (pos read) 0)
      as [[[cigar_new pos_ref] pos_read]|] eqn:Hw.
    + right. eexists. split; [reflexivity|]. cbn.
      eapply trim_left_walk_nonempty; eassumption.
    + now left.
  - right. exists read. split; [reflexivity|]. congruence.
Qed.

Lemma trim_right_edge_returns (read : AlignedRead) (match_len_min trim_pad : Z) :
  cigar read <> [] ->
  exists res, trim_right_edge read match_len_min trim_pad = Returned res.
Proof.
  intros Hne. unfold trim_right_edge.
  destruct (rev (cigar read)) as [|cl rest] eqn:Hc.
  - apply (f_equal (@rev _)) in Hc. rewrite rev_involutive in Hc. now destruct Hne.
  - destruct (edge_block_short match_len_min cl); [|eexists; reflexivity].
    destruct (trim_right_walk match_len_min trim_pad (cl :: rest)
                (Z.of_nat (length (seq read)))) as [[cigar_new pos_read]|];
      eexists; reflexivity.
Qed.

(** Without [throw], the trimmer of a read that has a CIGAR returns a
    boolean. *)
Lemma trim_short_cigars_no_throw (read : AlignedRead) (match_len_min trim_pad : Z) :
  cigar read <> [] ->
  exists b, snd (trim_short_cigars read match_len_min trim_pad false)
            = Returned (Some b).
Proof.
  intros Hne. unfold trim_short_cigars.
  destruct (trim_left_edge_returns read match_len_min trim_pad Hne)
    as [-> | (read1 & -> & Hne1)].
  - now exists true.
  - destruct (trim_right_edge_returns read1 match_len_min trim_pad Hne1) as [[read2|] ->].
    + now exists false.
    + now exists true.
Qed.

(** C9.  Called with [throw=False] on reads that have a CIGAR,
    [trim_short_cigars_pair] returns normally and returns no value: the
    boolean of each [trim_short_cigars] call is dropped, and
    [fix_read_pair] runs on the two reads as the trimmer left them,
    whether or not it could trim them. *)
Theorem trim_short_cigars_pair_ignores_failure
        (reads : ReadPair) (match_len_min trim_pad : Z) :
  cigar (fst reads) <> [] ->
  cigar (snd reads) <> [] ->
  trim_short_cigars_pair reads match_len_min trim_pad false
  = (fix_read_pair
       (fst (trim_short_cigars (fst reads) match_len_min trim_pad false),
        fst (trim_short_cigars (snd reads) match_len_min trim_pad false)),
     Returned tt).
Proof.
  intros H0 H1. unfold trim_short_cigars_pair.
  destruct (trim_short_cigars_no_throw (fst reads) match_len_min trim_pad H0) as [b0 E0].
  destruct (trim_short_cigars_no_throw (snd reads) match_len_min trim_pad H1) as [b1 E1].
  destruct (trim_short_cigars (fst reads) match_len_min trim_pad false) as [read0 o0].
  destruct (trim_short_cigars (snd reads) match_len_min trim_pad false) as [read1 o1].
  cbn [fst snd] in *. subst o0 o1. reflexivity.
Qed.

Lemma trim_short_cigars_pair_ignores_failure_witness :
  snd (trim_short_cigars (fst reads_untrimmable) 20 3 false) = Returned (Some true) /\
  snd (trim_short_cigars (snd reads_untrimmable) 20 3 false) = Returned (Some true) /\
  trim_short_cigars_pair reads_untrimmable 20 3 false
  = (fix_read_pair reads_untrimmable, Returned tt).
Proof.
  split; [reflexivity|]. split; [reflexivity|].
  rewrite (trim_short_cigars_pair_ignores_failure reads_untrimmable 20 3);
    [reflexivity | discriminate | discriminate].
Defined.

(** ** When the short-CIGAR trimmer fails *)

Lemma existsb_anchors_known (match_len_min : Z) (c : Cigar) :
  forallb known_op c = true ->
  existsb (anchors match_len_min) c = existsb (criterion match_len_min) c.
Proof.
  induction c as [|b c IH]; cbn; [reflexivity|].
  intros H. apply andb_prop in H as [Hb Hc].
  now rewrite (anchors_known_op match_len_min b Hb), IH.
Qed.

Lemma edge_block_short_criterion (match_len_min : Z) (b : Z * Z) :
  edge_block_short match_len_min b = negb (criterion match_len_min b).
Proof.
  unfold edge_block_short, criterion.
  destruct (fst b =? 0), (Z.ltb_spec (snd b) match_len_min),
    (Z.leb_spec match_len_min (snd b)); cbn; try reflexivity; lia.
Qed.

Lemma trim_left_walk_known (match_len_min trim_pad : Z) (c : Cigar) :
  forallb known_op c = true ->
  forall pos_ref pos_read cigar_new pos_ref' pos_read',
    trim_left_walk match_len_min trim_pad c pos_ref pos_read
      = Some (cigar_new, pos_ref', pos_read') ->
    forallb known_op cigar_new = true.
Proof.
  induction c as [|[bt bl] rest IH]; intros Hk pos_ref pos_read cigar_new pos_ref' pos_read';
    cbn [trim_left_walk]; [discriminate|].
  cbn [forallb] in Hk. apply andb_prop in Hk as [_ Hk].
  destruct (bt =? 2); [now apply IH|].
  destruct (bt =? 1); [now apply IH|].
  destruct (bl <? match_len_min); [now apply IH|].
  intros H. injection H as <- _ _. exact Hk.
Qed.

(** The left edge, on a read of the data model: the walk fails exactly
    when the read has no good block. *)
Lemma trim_left_edge_cases (read : AlignedRead) (match_len_min trim_pad : Z) :
  cigar read <> [] ->
  forallb known_op (cigar read) = true ->
  (has_good_block match_len_min read = false /\
   trim_left_edge read match_len_min trim_pad = Returned NoAnchor) \/
  (has_good_block match_len_min read = true /\
   exists read1,
     trim_left_edge read match_len_min trim_pad = Returned (Trimmed read1) /\
     cigar read1 <> [] /\ forallb known_op (cigar read1) = true).
Proof.
  intros Hne Hk. unfold trim_left_edge, has_good_block.
  destruct (cigar read) as [|c0 rest] eqn:Hc; [congruence|].
  rewrite edge_block_short_criterion.
  destruct (criterion match_len_min c0) eqn:Hc0; cbn [negb].
  - right. split; [cbn; now rewrite Hc0|].
    exists read. rewrite Hc. repeat split; [discriminate|exact Hk].
  - destruct (trim_left_walk match_len_min trim_pad (c0 :: rest) (pos read) 0)
      as [[[cigar_new pos_ref] pos_read]|] eqn:Hw.
    + right. split.
      * rewrite <- (existsb_anchors_known match_len_min _ Hk).
        destruct (existsb (anchors match_len_min) (c0 :: rest)) eqn:He; [reflexivity|].
        apply trim_left_walk_none with (trim_pad := trim_pad) (pos_ref := pos read)
                                       (pos_read := 0) in He. congruence.
      * eexists. split; [reflexivity|]. cbn. split.
        -- eapply trim_left_walk_nonempty; eassumption.
        -- eapply trim_left_walk_known; eassumption.
    + left. split; [|reflexivity].
      rewrite <- (existsb_anchors_known match_len_min _ Hk).
      now apply trim_left_walk_none in Hw.
Qed.

Lemma trim_right_edge_cases (read : AlignedRead) (match_len_min trim_pad : Z) :
  cigar read <> [] ->
  forallb known_op (cigar read) = true ->
  (has_good_block match_len_min read = false /\
   trim_right_edge read match_len_min trim_pad = Returned NoAnchor) \/
  (has_good_block match_len_min read = true /\
   exists read2, trim_right_edge read match_len_min trim_pad = Returned (Trimmed read2)).
Proof.
  intros Hne Hk. unfold trim_right_edge, has_good_block.
  rewrite <- (existsb_rev _ (cigar read)).
  assert (Hkr : forallb known_op (rev (cigar read)) = true).
  { apply forallb_forall. intros b Hb. apply in_rev in Hb.
    revert b Hb. now apply forallb_forall. }
  destruct (rev (cigar read)) as [|cl rest] eqn:Hc.
  - apply (f_equal (@rev _)) in Hc. rewrite rev_involutive in Hc. now destruct Hne.
  - rewrite edge_block_short_criterion.
    destruct (criterion match_len_min cl) eqn:Hcl; cbn [negb].
    + right. split; [cbn; now rewrite Hcl|]. eexists; reflexivity.
    + rewrite <- (existsb_anchors_known match_len_min _ Hkr).
      destruct (trim_right_walk match_len_min trim_pad (cl :: rest)
                  (Z.of_nat (length (seq read)))) as [[cigar_new pos_read]|] eqn:Hw.
      * right. split; [|eexists; reflexivity].
        destruct (existsb (anchors match_len_min) (cl :: rest)) eqn:He; [reflexivity|].
        apply trim_right_walk_none with (trim_pad := trim_pad)
                (pos_read := Z.of_nat (length (seq read))) in He. congruence.
      * left. split; [|reflexivity]. now apply trim_right_walk_none in Hw.
Qed.

(** C5.  On a read of the data model (a non-empty CIGAR of MATCH,
    INSERTION and DELETION blocks), [trim_short_cigars] raises exactly
    when [throw] is set and the side being trimmed has no good block to
    anchor on - the left side looking at the read on entry, the right
    side at the read as the left trim leaves it.  Without [throw] it
    returns [True] in that case and [False] otherwise. *)
Theorem trim_short_cigars_failure_signal
        (read : AlignedRead) (match_len_min trim_pad : Z) (throw : bool) :
  cigar read <> [] ->
  forallb known_op (cigar read) = true ->
  let result := snd (trim_short_cigars read match_len_min trim_pad throw) in
  (Py.raises result <-> throw = true /\ untrimmable match_len_min trim_pad read) /\
  (throw = false -> untrimmable match_len_min trim_pad read ->
   result = Returned (Some true)) /\
  (throw = false -> ~ untrimmable match_len_min trim_pad read ->
   result = Returned (Some false)).
Proof.
  intros Hne Hk. cbv zeta.
  assert (Hcases :
    (untrimmable match_len_min trim_pad read /\
     exists e, snd (trim_short_cigars read match_len_min trim_pad throw)
               = if throw then Raised e else Returned (Some true)) \/
    (~ untrimmable match_len_min trim_pad read /\
     snd (trim_short_cigars read match_len_min trim_pad throw)
     = Returned (if throw then None else Some false))).
  { unfold trim_short_cigars, untrimmable.
    destruct (trim_left_edge_cases read match_len_min trim_pad Hne Hk)
      as [[Hbad ->] | [Hgood (read1 & -> & Hne1 & Hk1)]].
    - left. split; [now left|]. exists ValueError_short_left. now destruct throw.
    - destruct (trim_right_edge_cases read1 match_len_min trim_pad Hne1 Hk1)
        as [[Hbad1 ->] | [Hgood1 (read2 & ->)]]; cbn [snd].
      + left. split; [right; exists read1; tauto|].
        exists ValueError_short_right. now destruct throw.
      + right. split; [|reflexivity].
        intros [H | (r & Hr & Hbad)]; [congruence|].
        injection Hr as <-. congruence. }
  unfold Py.raises.
  destruct Hcases as [[Hu (e & ->)] | [Hu ->]]; destruct throw.
  - split; [split; [tauto | intros _; now exists e]|]. split; discriminate.
  - split; [split; [intros [e' He']; discriminate | intros [Ht _]; discriminate]|].
    split; [reflexivity | tauto].
  - split; [split; [intros [e' He']; discriminate | tauto]|]. split; discriminate.
  - split; [split; [intros [e' He']; discriminate | intros [Ht _]; discriminate]|].
    split; [tauto | reflexivity].
Qed.

Lemma trim_short_cigars_failure_signal_witness :
  Py.raises (snd (trim_short_cigars read_single_anchor 20 3 true)) /\
  snd (trim_short_cigars read_single_anchor 20 3 false) = Returned (Some true).
Proof.
  assert (Hu : untrimmable 20 3 read_single_anchor).
  { right. eexists. split; reflexivity. }
  split.
  - apply (proj1 (trim_short_cigars_failure_signal read_single_anchor 20 3 true
                    ltac:(discriminate) eq_refl)).
    split; [reflexivity | exact Hu].
  - apply (proj1 (proj2 (trim_short_cigars_failure_signal read_single_anchor 20 3 false
                           ltac:(discriminate) eq_refl)));
      [reflexivity | exact Hu].
Defined.

(** ** Unrecognised operation codes *)

(** The edge walks do not look at the operation code beyond telling
    insertions and deletions apart from the rest. *)
Lemma trim_left_walk_as_match (match_len_min trim_pad : Z) (c : Cigar) :
  forall pos_ref pos_read,
    trim_left_walk match_len_min trim_pad (map as_match c) pos_ref pos_read
    = option_map (fun '(c', pos_ref', pos_read') => (map as_match c', pos_ref', pos_read'))
                 (trim_left_walk match_len_min trim_pad c pos_ref pos_read).
Proof.
  induction c as [|[bt bl] rest IH]; intros pos_ref pos_read; [reflexivity|].
  cbn [map trim_left_walk]. unfold as_match at 1. cbn [fst snd].
  destruct (Z.eqb_spec bt 1) as [->|H1]; [cbn; apply IH|].
  destruct (Z.eqb_spec bt 2) as [->|H2]; [cbn; apply IH|].
  cbn [orb]. cbn [Z.eqb].
  destruct (bl <? match_len_min); [apply IH|]. reflexivity.
Qed.

Lemma trim_right_walk_as_match (match_len_min trim_pad : Z) (rc : Cigar) :
  forall pos_read,
    trim_right_walk match_len_min trim_pad (map as_match rc) pos_read
    = option_map (fun '(c', pos_read') => (map as_match c', pos_read'))
                 (trim_right_walk match_len_min trim_pad rc pos_read).
Proof.
  induction rc as [|[bt bl] rest IH]; intros pos_read; [reflexivity|].
  cbn [map trim_right_walk]. unfold as_match at 1. cbn [fst snd].
  destruct (Z.eqb_spec bt 1) as [->|H1]; [cbn; apply IH|].
  destruct (Z.eqb_spec bt 2) as [->|H2]; [cbn; apply IH|].
  cbn [orb]. cbn [Z.eqb].
  destruct (bl <? match_len_min); [apply IH|].
  cbn [option_map]. now rewrite map_app, map_rev.
Qed.

(** The left walk anchors on the first block that is neither insertion
    nor deletion and is long enough, whatever its code, and rewrites it
    as a match shortened by the pad. *)
Lemma trim_left_walk_anchor (match_len_min trim_pad : Z) (pre post : Cigar) (bt bl : Z) :
  existsb (anchors match_len_min) pre = false ->
  anchors match_len_min (bt, bl) = true ->
  forall pos_ref pos_read, exists pos_ref' pos_read',
    trim_left_walk match_len_min trim_pad (pre ++ (bt, bl) :: post) pos_ref pos_read
    = Some ((0, bl - trim_pad) :: post, pos_ref', pos_read').
Proof.
  intros Hpre Hb. unfold anchors in Hb. cbn [fst snd] in Hb.
  apply andb_prop in Hb as [Hb Hlen]. apply andb_prop in Hb as [H2 H1].
  apply negb_true_iff in H1, H2, Hlen.
  induction pre as [|[pt pl] pre IH]; intros pos_ref pos_read.
  - cbn [app trim_left_walk]. rewrite H2, H1, Hlen. eexists _, _; reflexivity.
  - cbn [existsb] in Hpre. apply orb_false_elim in Hpre as [Hp Hpre].
    unfold anchors in Hp. cbn [fst snd] in Hp.
    cbn [app trim_left_walk].
    destruct (pt =? 2); [now apply IH|].
    destruct (pt =? 1); [now apply IH|].
    destruct (pl <? match_len_min); [now apply IH|discriminate].
Qed.

Lemma trim_right_walk_anchor (match_len_min trim_pad : Z) (pre post : Cigar) (bt bl : Z) :
  existsb (anchors match_len_min) post = false ->
  anchors match_len_min (bt, bl) = true ->
  forall pos_read, exists pos_read',
    trim_right_walk match_len_min trim_pad (rev (pre ++ (bt, bl) :: post)) pos_read
    = Some (pre ++ [(0, bl - trim_pad)], pos_read').
Proof.
  intros Hpost Hb. unfold anchors in Hb. cbn [fst snd] in Hb.
  apply andb_prop in Hb as [Hb Hlen]. apply andb_prop in Hb as [H2 H1].
  apply negb_true_iff in H1, H2, Hlen.
  rewrite rev_app_distr. cbn [rev]. rewrite <- app_assoc. cbn [app].
  rewrite <- (existsb_rev _ post) in Hpost.
  induction (rev post) as [|[pt pl] rpost IH]; intros pos_read.
  - cbn [app trim_right_walk]. rewrite H2, H1, Hlen.
    rewrite rev_involutive. eexists; reflexivity.
  - cbn [existsb] in Hpost. apply orb_false_elim in Hpost as [Hp Hpost].
    unfold anchors in Hp. cbn [fst snd] in Hp.
    cbn [app trim_right_walk].
    destruct (pt =? 2); [now apply IH|].
    destruct (pt =? 1); [now apply IH|].
    destruct (pl <? match_len_min); [now apply IH|discriminate].
Qed.

Lemma trim_left_edge_exception (read : AlignedRead) (match_len_min trim_pad : Z) (e : Py.exn) :
  trim_left_edge read match_len_min trim_pad = Raised e -> e = IndexError.
Proof.
  unfold trim_left_edge.
  destruct (cigar read) as [|c0 rest]; [now intros [= <-]|].
  destruct (edge_block_short match_len_min c0); [|discriminate].
  destruct (trim_left_walk match_len_min trim_pad (c0 :: rest) (pos read) 0)
    as [[[cigar_new pos_ref] pos_read]|]; discriminate.
Qed.

Lemma trim_right_edge_exception (read : AlignedRead) (match_len_min trim_pad : Z) (e : Py.exn) :
  trim_right_edge read match_len_min trim_pad = Raised e -> e = IndexError.
Proof.
  unfold trim_right_edge.
  destruct (rev (cigar read)) as [|cl rest]; [now intros [= <-]|].
  destruct (edge_block_short match_len_min cl); [|discriminate].
  destruct (trim_right_walk match_len_min trim_pad (cl :: rest)
              (Z.of_nat (length (seq read)))) as [[cigar_new pos_read]|]; discriminate.
Qed.

(** The exceptions of [trim_short_cigars]. *)
Lemma trim_short_cigars_exceptions
      (read : AlignedRead) (match_len_min trim_pad : Z) (throw : bool) (e : Py.exn) :
  snd (trim_short_cigars read match_len_min trim_pad throw) = Raised e ->
  e = IndexError \/ e = ValueError_short_left \/ e = ValueError_short_right.
Proof.
  unfold trim_short_cigars.
  destruct (trim_left_edge read match_len_min trim_pad) as [[read1|]|e0] eqn:EL.
  - destruct (trim_right_edge read1 match_len_min trim_pad) as [[read2|]|e1] eqn:ER;
      cbn [snd].
    + discriminate.
    + destruct throw; [intros [= <-]; auto | discriminate].
    + intros [= <-]. left. eapply trim_right_edge_exception; eassumption.
  - cbn [snd]. destruct throw; [intros [= <-]; auto | discriminate].
  - cbn [snd]. intros [= <-]. left. eapply trim_left_edge_exception; eassumption.
Qed.

(** The walk of [get_range_good_cigars] raises at the first block that
    is not a MATCH, an INSERTION or a DELETION. *)
Lemma walk_blocks_raises (pre post : Cigar) (bt bl : Z) :
  forallb known_op pre = true ->
  known_op (bt, bl) = false ->
  forall p_read p_ref,
    walk_blocks (pre ++ (bt, bl) :: post) p_read p_ref
    = Raised (ValueError_cigar_type bt).
Proof.
  intros Hpre Hb. unfold known_op in Hb. cbn [fst] in Hb.
  apply orb_false_elim in Hb as [Hb H2]. apply orb_false_elim in Hb as [H0 H1].
  induction pre as [|[pt pl] pre IH]; intros p_read p_ref.
  - cbn [app walk_blocks]. now rewrite H0, H1, H2.
  - cbn [forallb] in Hpre. apply andb_prop in Hpre as [Hp Hpre].
    unfold known_op in Hp. cbn [fst] in Hp. cbn [app walk_blocks].
    destruct (pt =? 0); [now apply IH|].
    destruct (pt =? 1); [now apply IH|].
    destruct (pt =? 2); [now apply IH|discriminate].
Qed.

(** With a good block after it, a block lies before the last good one. *)
Lemma last_good_cigar_after (match_len_min : Z) (pre post : Cigar) (b : Z * Z) :
  existsb (criterion match_len_min) post = true ->
  (length pre < last_good_cigar match_len_min (pre ++ b :: post))%nat.
Proof.
  intros Hpost. unfold last_good_cigar, Py.nonzero.
  rewrite map_app, nonzero_from_app. cbn [map Py.nonzero_from].
  rewrite length_map, Nat.add_0_l.
  pose proof (nonzero_from_nonempty _ _ Hpost (S (length pre))) as Hne.
  assert (Hlast : forall l, l = Py.nonzero_from (S (length pre))
                                  (map (criterion match_len_min) post) ->
                  (length pre < last l 0)%nat).
  { intros l ->. change (S (length pre) <= last (Py.nonzero_from (S (length pre))
                           (map (criterion match_len_min) post)) 0)%nat.
    eapply nonzero_from_ge. now apply last_In. }
  destruct (criterion match_len_min b).
  - rewrite last_app_nonempty by discriminate.
    change (?x :: ?l) with ([x] ++ l). rewrite last_app_nonempty by exact Hne.
    now apply Hlast.
  - rewrite last_app_nonempty by exact Hne. now apply Hlast.
Qed.

(** [get_range_good_cigars] raises on an unrecognised operation code
    that comes before the last good block. *)
Lemma get_range_good_cigars_raises
      (pre post : Cigar) (bt bl pos0 match_len_min trim_left trim_right : Z) :
  forallb known_op pre = true ->
  known_op (bt, bl) = false ->
  existsb (criterion match_len_min) post = true ->
  get_range_good_cigars (pre ++ (bt, bl) :: post) pos0 match_len_min trim_left trim_right
  = Raised (ValueError_cigar_type bt).
Proof.
  intros Hpre Hb Hpost. unfold get_range_good_cigars.
  rewrite any_map, existsb_app. cbn [existsb]. rewrite Hpost, !orb_true_r. cbn [negb].
  pose proof (last_good_cigar_after match_len_min pre post (bt, bl) Hpost) as Hlast.
  unfold good_span.
  set (c := pre ++ (bt, bl) :: post) in *.
  set (first := first_good_cigar match_len_min c).
  set (last := last_good_cigar match_len_min c) in *.
  destruct (Nat.le_gt_cases first (length pre)) as [Hle|Hgt].
  - (* the first good block lies in [pre]: the second walk raises *)
    assert (Hfirst : firstn first c = firstn first pre).
    { subst c. rewrite firstn_app.
      replace (first - length pre)%nat with 0%nat by lia.
      cbn [firstn]. apply app_nil_r. }
    rewrite Hfirst.
    destruct (walk_blocks_known _ (forallb_firstn _ first _ Hpre) 0 pos0)
      as (s_read & s_ref & ->).
    cbn [Py.bind].
    assert (Hspan : exists k, firstn (S last - first) (skipn first c)
                              = skipn first pre ++ (bt, bl) :: firstn k post).
    { subst c. rewrite skipn_app.
      replace (first - length pre)%nat with 0%nat by lia. cbn [skipn].
      rewrite firstn_app, length_skipn.
      rewrite firstn_all2 by (rewrite length_skipn; lia).
      destruct (S last - first - (length pre - first))%nat as [|k] eqn:Hk; [lia|].
      now exists k. }
    destruct Hspan as [k ->].
    now rewrite (walk_blocks_raises _ _ _ _ (forallb_skipn _ first _ Hpre) Hb).
  - (* the first good block lies after: the first walk raises *)
    assert (Hfirst : exists k, firstn first c = pre ++ (bt, bl) :: firstn k post).
    { subst c. rewrite firstn_app, firstn_all2 by lia.
      destruct (first - length pre)%nat as [|k] eqn:Hk; [lia|].
      now exists k. }
    destruct Hfirst as [k ->]. now rewrite (walk_blocks_raises _ _ _ _ Hpre Hb).
Qed.

(** So does [trim_read_pair_crossoverhangs], when the forward read
    starts with such a code; the pair is then left as it was. *)
Lemma trim_read_pair_crossoverhangs_raises
      (read_pair : ReadPair) (trim bt bl : Z) (rest : Cigar) :
  cigar (get_read read_pair (is_reverse (fst read_pair))) = (bt, bl) :: rest ->
  known_op (bt, bl) = false ->
  trim_read_pair_crossoverhangs read_pair trim
  = (read_pair, Raised (ValueError_cigar_type bt)).
Proof.
  intros Hc Hb. unfold known_op in Hb. cbn [fst] in Hb.
  apply orb_false_elim in Hb as [Hb H2]. apply orb_false_elim in Hb as [H0 H1].
  unfold trim_read_pair_crossoverhangs. rewrite Hc.
  cbn [crossoverhang_fwd_walk]. now rewrite H0, H1, H2.
Qed.

(** C10, as stated, fails in its last clause: [get_range_good_cigars] is
    not the only function to raise the CIGAR-type [ValueError];
    [trim_read_pair_crossoverhangs] raises it on a soft-clipped read. *)
Lemma cigar_type_error_counterexample :
  snd (trim_read_pair_crossoverhangs reads_soft_clipped 5)
  = Raised (ValueError_cigar_type 4).
Proof. reflexivity. Qed.

(** C10, amended.  [trim_short_cigars] never raises the CIGAR-type
    [ValueError].  Its edge walks take every block that is neither an
    INSERTION nor a DELETION for a MATCH, whatever its code: they give
    the same result on the CIGAR with those codes replaced by 0, and
    they anchor on the first such block of length at least
    [match_len_min] from their side, rewriting it as a MATCH of
    [length - trim_pad].  The error is raised by
    [get_range_good_cigars], for an unrecognised code before the last
    good block, and by [trim_read_pair_crossoverhangs], for one at the
    head of the forward read. *)
Theorem unrecognised_operation_codes :
  (forall read match_len_min trim_pad throw bt,
      snd (trim_short_cigars read match_len_min trim_pad throw)
      <> Raised (ValueError_cigar_type bt)) /\
  (forall match_len_min trim_pad c pos_ref pos_read,
      trim_left_walk match_len_min trim_pad (map as_match c) pos_ref pos_read
      = option_map (fun '(c', pos_ref', pos_read') =>
                      (map as_match c', pos_ref', pos_read'))
                   (trim_left_walk match_len_min trim_pad c pos_ref pos_read)) /\
  (forall match_len_min trim_pad rc pos_read,
      trim_right_walk match_len_min trim_pad (map as_match rc) pos_read
      = option_map (fun '(c', pos_read') => (map as_match c', pos_read'))
                   (trim_right_walk match_len_min trim_pad rc pos_read)) /\
  (forall match_len_min trim_pad pre post bt bl,
      bt <> 1 -> bt <> 2 -> match_len_min <= bl ->
      existsb (anchors match_len_min) pre = false ->
      forall pos_ref pos_read, exists pos_ref' pos_read',
        trim_left_walk match_len_min trim_pad (pre ++ (bt, bl) :: post) pos_ref pos_read
        = Some ((0, bl - trim_pad) :: post, pos_ref', pos_read')) /\
  (forall match_len_min trim_pad pre post bt bl,
      bt <> 1 -> bt <> 2 -> match_len_min <= bl ->
      existsb (anchors match_len_min) post = false ->
      forall pos_read, exists pos_read',
        trim_right_walk match_len_min trim_pad (rev (pre ++ (bt, bl) :: post)) pos_read
        = Some (pre ++ [(0, bl - trim_pad)], pos_read')) /\
  (forall pre post bt bl pos0 match_len_min trim_left trim_right,
      forallb known_op pre = true ->
      known_op (bt, bl) = false ->
      existsb (criterion match_len_min) post = true ->
      get_range_good_cigars (pre ++ (bt, bl) :: post) pos0 match_len_min
                            trim_left trim_right
      = Raised (ValueError_cigar_type bt)) /\
  (forall read_pair trim bt bl rest,
      cigar (get_read read_pair (is_reverse (fst read_pair))) = (bt, bl) :: rest ->
      known_op (bt, bl) = false ->
      snd (trim_read_pair_crossoverhangs read_pair trim)
      = Raised (ValueError_cigar_type bt)).
Proof.
  assert (Hanchors : forall match_len_min bt bl,
             bt <> 1 -> bt <> 2 -> match_len_min <= bl ->
             anchors match_len_min (bt, bl) = true).
  { intros match_len_min bt bl H1 H2 Hlen. unfold anchors. cbn [fst snd].
    destruct (Z.eqb_spec bt 2), (Z.eqb_spec bt 1), (Z.ltb_spec bl match_len_min);
      try reflexivity; lia. }
  repeat split.
  - intros read match_len_min trim_pad throw bt H.
    apply trim_short_cigars_exceptions in H as [H | [H | H]]; discriminate.
  - intros. apply trim_left_walk_as_match.
  - intros. apply trim_right_walk_as_match.
  - intros. apply trim_left_walk_anchor; auto.
  - intros. apply trim_right_walk_anchor; auto.
  - intros. now apply get_range_good_cigars_raises.
  - intros read_pair trim bt bl rest Hc Hb.
    now rewrite (trim_read_pair_crossoverhangs_raises read_pair trim bt bl rest Hc Hb).
Qed.

Lemma unrecognised_operation_codes_witness :
  (exists pos_ref' pos_read',
      trim_left_walk 20 3 ([(1, 2)] ++ (4, 30) :: [(0, 5)]) 100 0
      = Some ((0, 30 - 3) :: [(0, 5)], pos_ref', pos_read')) /\
  (exists pos_read',
      trim_right_walk 20 3 (rev ([(0, 5)] ++ (4, 30) :: [(1, 2)])) 37
      = Some ([(0, 5)] ++ [(0, 30 - 3)], pos_read')) /\
  get_range_good_cigars ([(0, 5)] ++ (4, 5) :: [(0, 30)]) 100 20 3 3
  = Raised (ValueError_cigar_type 4) /\
  snd (trim_read_pair_crossoverhangs reads_soft_clipped 5)
  = Raised (ValueError_cigar_type 4).
Proof.
  destruct unrecognised_operation_codes
    as (_ & _ & _ & Hleft & Hright & Hrange & Hcross).
  split; [|split; [|split]].
  - apply Hleft; [discriminate | discriminate | lia | reflexivity].
  - apply Hright; [discriminate | discriminate | lia | reflexivity].
  - apply Hrange; reflexivity.
  - apply (Hcross reads_soft_clipped 5 4 5 [(0, 45)]); reflexivity.
Defined.

(** ** The reads the short-CIGAR trimmer cannot trim *)

Lemma trim_left_edge_anchored
      (read : AlignedRead) (match_len_min trim_pad bl : Z) (p : Z * Z) (pre post : Cigar) :
  cigar read = (p :: pre) ++ (0, bl) :: post ->
  forallb known_op (p :: pre) = true ->
  existsb (criterion match_len_min) (p :: pre) = false ->
  match_len_min <= bl ->
  exists read1,
    trim_left_edge read match_len_min trim_pad = Returned (Trimmed read1) /\
    cigar read1 = (0, bl - trim_pad) :: post.
Proof.
  intros Hc Hk Hpre Hbl. unfold trim_left_edge. rewrite Hc.
  assert (Hp : criterion match_len_min p = false).
  { cbn [existsb] in Hpre. now apply orb_false_elim in Hpre as [-> _]. }
  cbn [app]. rewrite edge_block_short_criterion, Hp. cbn [negb].
  change (p :: pre ++ (0, bl) :: post) with ((p :: pre) ++ (0, bl) :: post).
  rewrite <- (existsb_anchors_known match_len_min _ Hk) in Hpre.
  assert (Hb : anchors match_len_min (0, bl) = true).
  { unfold anchors. cbn. destruct (Z.ltb_spec bl match_len_min); [lia|reflexivity]. }
  destruct (trim_left_walk_anchor match_len_min trim_pad _ post 0 bl Hpre Hb (pos read) 0)
    as (pos_ref' & pos_read' & ->).
  eexists. split; reflexivity.
Qed.

(** In terms of the read on entry: the trimmer fails when the read has
    no good block, and also when its one good block is not the first
    block and the pad shortens it to less than [match_len_min]. *)
Lemma untrimmable_iff (read : AlignedRead) (match_len_min trim_pad : Z) :
  forallb known_op (cigar read) = true ->
  untrimmable match_len_min trim_pad read <->
  (has_good_block match_len_min read = false \/
   exists p pre bl post,
     cigar read = (p :: pre) ++ (0, bl) :: post /\
     existsb (criterion match_len_min) (p :: pre) = false /\
     match_len_min <= bl /\ bl - trim_pad < match_len_min /\
     existsb (criterion match_len_min) post = false).
Proof.
  intros Hk. unfold untrimmable. split.
  - intros [Hbad | (read1 & Hleft & Hbad1)]; [now left|].
    destruct (has_good_block match_len_min read) eqn:Hgood; [|now left]. right.
    destruct (first_good_split _ _ Hgood) as (pre0 & [bt bl] & post & Hc & Hpre & Hb).
    unfold criterion in Hb. cbn [fst snd] in Hb. apply andb_prop in Hb as [Hbt Hbl].
    apply Z.eqb_eq in Hbt. subst bt. apply Z.leb_le in Hbl.
    destruct pre0 as [|p pre].
    + (* the first block is good: the left edge is left alone *)
      exfalso. unfold trim_left_edge in Hleft. rewrite Hc in Hleft. cbn [app] in Hleft.
      rewrite edge_block_short_criterion in Hleft. unfold criterion at 1 in Hleft.
      cbn [fst snd] in Hleft. destruct (Z.leb_spec match_len_min bl); [|lia].
      cbn in Hleft. injection Hleft as <-. congruence.
    + assert (Hkpre : forallb known_op (p :: pre) = true).
      { rewrite Hc, forallb_app in Hk. now apply andb_prop in Hk as [Hk _]. }
      destruct (trim_left_edge_anchored read match_len_min trim_pad bl p pre post
                  Hc Hkpre Hpre Hbl) as (read1' & Hleft' & Hc1).
      rewrite Hleft in Hleft'. injection Hleft' as <-.
      unfold has_good_block in Hbad1. rewrite Hc1 in Hbad1. cbn [existsb] in Hbad1.
      apply orb_false_elim in Hbad1 as [Hshort Hpost].
      unfold criterion in Hshort. cbn [fst snd Z.eqb andb] in Hshort.
      apply Z.leb_gt in Hshort.
      exists p, pre, bl, post. repeat split; assumption.
  - intros [Hbad | (p & pre & bl & post & Hc & Hpre & Hbl & Hshort & Hpost)]; [now left|].
    right.
    assert (Hkpre : forallb known_op (p :: pre) = true).
    { rewrite Hc, forallb_app in Hk. now apply andb_prop in Hk as [Hk _]. }
    destruct (trim_left_edge_anchored read match_len_min trim_pad bl p pre post
                Hc Hkpre Hpre Hbl) as (read1 & Hleft & Hc1).
    exists read1. split; [exact Hleft|].
    unfold has_good_block. rewrite Hc1. cbn [existsb]. rewrite Hpost, orb_false_r.
    unfold criterion. cbn [fst snd Z.eqb andb]. now apply Z.leb_gt.
Qed.

(** ** Mate-pair reconciliation *)

(** C8.  [fix_read_pair] writes four fields and nothing else: each read's
    mate position becomes the other read's start, the forward read's
    insert size becomes [reverse.pos - forward.pos + reverse's reference
    span], the reverse read's insert size its negation; name, sequence,
    quality, CIGAR, start and strand flag of both reads are as before. *)
Theorem fix_read_pair_writes_four_fields (reads : ReadPair) :
  let i_fwd := is_reverse (fst reads) in
  let i_rev := negb i_fwd in
  let read_fwd := get_read reads i_fwd in
  let read_rev := get_read reads i_rev in
  let reads' := fix_read_pair reads in
  mpos (get_read reads' i_rev) = pos read_fwd /\
  mpos (get_read reads' i_fwd) = pos read_rev /\
  isize (get_read reads' i_fwd)
    = pos read_rev - pos read_fwd + ref_span (cigar read_rev) /\
  isize (get_read reads' i_rev)
    = - (pos read_rev - pos read_fwd + ref_span (cigar read_rev)) /\
  same_alignment (fst reads) (fst reads') /\
  same_alignment (snd reads) (snd reads').
Proof.
  destruct reads as [r0 r1]. unfold fix_read_pair, same_alignment.
  cbn [fst snd]. destruct (is_reverse r0) eqn:Hrev; cbn; rewrite ?Hrev; cbn;
    repeat split; lia.
Qed.

(** C1, as stated, fails: starts are non-negative and both CIGARs agree
    with the sequence lengths, yet the reconciled pair does not pass the
    integrity test, because the recomputed insert size is [-50]. *)
Lemma fix_read_pair_integrity_counterexample :
  is_reverse (fst reads_apart) = false /\
  is_reverse (snd reads_apart) = true /\
  0 <= pos (fst reads_apart) /\
  0 <= pos (snd reads_apart) /\
  read_span (cigar (fst reads_apart)) = rlen (fst reads_apart) /\
  read_span (cigar (snd reads_apart)) = rlen (snd reads_apart) /\
  isize (fst (fix_read_pair reads_apart)) = -50 /\
  test_read_pair_integrity (fix_read_pair reads_apart) = true.
Proof. repeat split; try reflexivity; cbn; lia. Qed.

(** C1, amended.  With non-negative starts and CIGARs that agree with
    the sequence lengths, the integrity test returns false on the
    reconciled pair exactly when the reverse read ends after the start
    of the forward read, that is when the recomputed insert size is
    positive.  (Which read is the forward one is decided, as in the
    code, by the strand flag of the first read alone.) *)
Theorem fix_read_pair_restores_integrity (reads : ReadPair) :
  let read_fwd := get_read reads (is_reverse (fst reads)) in
  let read_rev := get_read reads (negb (is_reverse (fst reads))) in
  0 <= pos (fst reads) ->
  0 <= pos (snd reads) ->
  read_span (cigar (fst reads)) = rlen (fst reads) ->
  read_span (cigar (snd reads)) = rlen (snd reads) ->
  (test_read_pair_integrity (fix_read_pair reads) = false
   <-> pos read_fwd < pos read_rev + ref_span (cigar read_rev)).
Proof.
  destruct reads as [r0 r1]. cbv zeta. cbn [fst snd]. intros H0 H1 Hc0 Hc1.
  unfold test_read_pair_integrity, fix_read_pair. cbn [fst snd].
  destruct (is_reverse r0) eqn:Hrev; cbn -[read_span ref_span rlen Z.add Z.sub Z.opp];
    rewrite ?Hrev; cbn -[read_span ref_span rlen Z.add Z.sub Z.opp];
    change (rlen (set_isize ?v ?r)) with (rlen r);
    unfold rlen in *; cbn -[read_span ref_span Z.add Z.sub Z.opp];
    rewrite Hc0, Hc1, !Z.eqb_refl; cbn -[read_span ref_span Z.add Z.sub Z.opp];
    repeat match goal with
           | |- context [?a <? ?b] => destruct (Z.ltb_spec a b)
           | |- context [?a <=? ?b] => destruct (Z.leb_spec a b)
           | |- context [?a =? ?b] => destruct (Z.eqb_spec a b)
           end; cbn; split; intros; try discriminate; try reflexivity; lia.
Qed.

Lemma fix_read_pair_restores_integrity_witness :
  test_read_pair_integrity (fix_read_pair reads_facing) = false.
Proof.
  apply (proj2 (fix_read_pair_restores_integrity reads_facing
                  ltac:(cbn; lia) ltac:(cbn; lia) eq_refl eq_refl)).
  cbn. lia.
Defined.

(** ** Quality trimming: what the loop over the reads preserves *)

Lemma rewrite_read_mate_fields (stop : bool) (read : AlignedRead) (read_start read_end : Z) :
  let read' := rewrite_read stop read read_start read_end in
  isize read' = isize read /\ mpos read' = mpos read /\
  is_reverse read' = is_reverse read /\ qname read' = qname read.
Proof.
  unfold rewrite_read. destruct (trim_start read read_start) as [cigar1 ref_start].
  cbn. repeat split.
Qed.

Lemma trim_low_quality_read_keeps (phred_min : Z) :
  keeps_mate_fields (trim_low_quality_read phred_min).
Proof.
  intros read read'. unfold trim_low_quality_read.
  repeat match goal with
         | |- context [match ?x with _ => _ end] => destruct x
         end; try discriminate.
  intros H. injection H as <-. apply rewrite_read_mate_fields.
Qed.

Lemma main_block_read_keeps (phred_min read_len_min : Z) :
  keeps_mate_fields (main_block_read phred_min read_len_min).
Proof.
  intros read read'. unfold main_block_read.
  destruct (negb _); [discriminate|]. destruct (Py.all _); [discriminate|].
  destruct (high_q_block_bounds _) as [ind_block_start ind_block_end].
  destruct (_ <? _); [discriminate|].
  intros [= <-]. apply rewrite_read_mate_fields.
Qed.

Lemma for_each_read_mate_fields (body : AlignedRead -> read_step) (read_pair : ReadPair) :
  keeps_mate_fields body ->
  let read_pair' := exit_pair (for_each_read body read_pair) in
  (isize (fst read_pair') = isize (fst read_pair) /\
   mpos (fst read_pair') = mpos (fst read_pair) /\
   is_reverse (fst read_pair') = is_reverse (fst read_pair)) /\
  (isize (snd read_pair') = isize (snd read_pair) /\
   mpos (snd read_pair') = mpos (snd read_pair) /\
   is_reverse (snd read_pair') = is_reverse (snd read_pair)).
Proof.
  intros Hk. destruct read_pair as [r0 r1]. unfold for_each_read. cbn [fst snd].
  destruct (body r0) as [| |r0'] eqn:E0; cbn [fst snd exit_pair].
  - repeat split.
  - destruct (body r1) as [| |r1'] eqn:E1; cbn [fst snd exit_pair]; try (repeat split; fail).
    destruct (Hk _ _ E1) as (? & ? & ? & ?). repeat split; assumption.
  - destruct (Hk _ _ E0) as (? & ? & ? & ?).
    destruct (body r1) as [| |r1'] eqn:E1; cbn [fst snd exit_pair];
      try (repeat split; assumption).
    destruct (Hk _ _ E1) as (? & ? & ? & ?). repeat split; assumption.
Qed.

Lemma fix_mate_positions_fields (read_pair : ReadPair) :
  let read_pair' := fix_mate_positions read_pair in
  (isize (fst read_pair') = isize (fst read_pair) /\
   same_alignment (fst read_pair) (fst read_pair')) /\
  (isize (snd read_pair') = isize (snd read_pair) /\
   same_alignment (snd read_pair) (snd read_pair')).
Proof.
  destruct read_pair as [r0 r1]. unfold fix_mate_positions, same_alignment.
  cbn [fst snd]. destruct (is_reverse r0) eqn:Hrev; cbn; rewrite ?Hrev; cbn; repeat split.
Qed.

Lemma insert_size_fix_mate_positions (read_pair : ReadPair) :
  insert_size (fix_mate_positions read_pair) = insert_size read_pair.
Proof.
  destruct read_pair as [r0 r1]. unfold insert_size, fix_mate_positions.
  cbn [fst snd]. destruct (is_reverse r0) eqn:Hrev; cbn -[ref_span]; rewrite ?Hrev;
    reflexivity.
Qed.

(** C6.  When the loop of [trim_read_pair_low_quality] has rewritten at
    least one read and the insert size recomputed from the trimmed reads
    ([reverse.pos + reverse's reference span - forward.pos]) is not
    positive, the function returns [True], and the insert-size field of
    either read still holds its value on entry. *)
Theorem trim_low_quality_collapsed_insert_discards
        (read_pair trimmed : ReadPair) (phred_min : Z) :
  for_each_read (trim_low_quality_read phred_min) read_pair = Completed trimmed true ->
  insert_size trimmed <= 0 ->
  let '(read_pair', discard) := trim_read_pair_low_quality read_pair phred_min in
  discard = true /\
  isize (fst read_pair') = isize (fst read_pair) /\
  isize (snd read_pair') = isize (snd read_pair).
Proof.
  intros Hloop Hsize.
  pose proof (for_each_read_mate_fields _ read_pair (trim_low_quality_read_keeps phred_min))
    as Hkeep.
  unfold trim_read_pair_low_quality. rewrite Hloop in *. cbn [exit_pair] in Hkeep.
  rewrite insert_size_fix_mate_positions.
  destruct (Z.leb_spec (insert_size trimmed) 0) as [_|Hgt]; [|lia].
  destruct (fix_mate_positions_fields trimmed) as [[Hi0 _] [Hi1 _]].
  split; [reflexivity|]. rewrite Hi0, Hi1. tauto.
Qed.

Lemma trim_low_quality_collapsed_insert_discards_witness :
  test_read_pair_integrity reads_short_insert = false /\
  snd (trim_read_pair_low_quality reads_short_insert 20) = true /\
  isize (fst (fst (trim_read_pair_low_quality reads_short_insert 20))) = 3 /\
  isize (snd (fst (trim_read_pair_low_quality reads_short_insert 20))) = -3.
Proof.
  split; [reflexivity|].
  pose proof (trim_low_quality_collapsed_insert_discards reads_short_insert
                (exit_pair (for_each_read (trim_low_quality_read 20) reads_short_insert))
                20 ltac:(vm_compute; reflexivity) ltac:(vm_compute; discriminate)) as H.
  destruct (trim_read_pair_low_quality reads_short_insert 20) as [read_pair' discard].
  exact H.
Defined.

(** ** Scenario C: five low-quality bases at the left edge *)

Lemma count_good_repeat (phred_min x : Z) (k : nat) :
  phred_min <= x -> count_good phred_min (repeat x k) = Z.of_nat k.
Proof.
  intros Hx. unfold count_good. f_equal.
  induction k as [|k IH]; cbn; [reflexivity|].
  destruct (Z.leb_spec phred_min x); [|lia]. cbn. now rewrite IH.
Qed.

(** More fuel does not change the exit of an edge loop. *)
Lemma left_edge_loop_more_fuel (phred : list Z) (phred_min rlen0 : Z) (s : edge_scan) :
  forall fuel fuel' read_start,
    (fuel <= fuel')%nat ->
    left_edge_loop fuel phred phred_min rlen0 read_start = Some s ->
    left_edge_loop fuel' phred phred_min rlen0 read_start = Some s.
Proof.
  induction fuel as [|fuel IH]; intros [|fuel'] read_start Hle; cbn [left_edge_loop];
    try discriminate; try lia.
  destruct (rlen0 - read_size_min <? read_start); [tauto|].
  match goal with |- context [if ?c then _ else _] => destruct c end; [|tauto].
  apply IH. lia.
Qed.

Lemma right_edge_loop_more_fuel (phred : list Z) (phred_min read_start : Z) (s : edge_scan) :
  forall fuel fuel' read_end,
    (fuel <= fuel')%nat ->
    right_edge_loop fuel phred phred_min read_start read_end = Some s ->
    right_edge_loop fuel' phred phred_min read_start read_end = Some s.
Proof.
  induction fuel as [|fuel IH]; intros [|fuel'] read_end Hle; cbn [right_edge_loop];
    try discriminate; try lia.
  destruct (read_end <? read_start + read_size_min); [tauto|].
  match goal with |- context [if ?c then _ else _] => destruct c end; [|tauto].
  apply IH. lia.
Qed.

Lemma phred_of_qual_low5 (n : nat) :
  phred_of_qual (qual_low5 n) = repeat 10 5 ++ repeat 30 (n - 5).
Proof.
  unfold phred_of_qual, qual_low5. now rewrite map_app, !map_repeat.
Qed.

(** C7.  A read of at least 60 bases whose quality string codes Phred
    10 for the first five bases and Phred 30 for the rest, with
    [phred_min = 20].  The left loop takes two passes, the loop variable
    going from 0 to 5 to 10: the window at 0 holds five good bases, the
    window at 5 ten.  The left trim point is 5, the right one the end of
    the read, and the loop body does not return: it rewrites the read to
    its bases from the sixth on. *)
Theorem scenario_C_trims_five_bases (read : AlignedRead) (n : nat) :
  (60 <= n)%nat ->
  length (seq read) = n ->
  qual read = qual_low5 n ->
  let phred := phred_of_qual (qual read) in
  left_edge_loop 1 phred 20 (rlen read) 0 = None /\
  left_edge_loop 2 phred 20 (rlen read) 0 = Some (Window (2 * shift)) /\
  left_edge phred 20 (rlen read) = Window 5 /\
  right_edge phred 20 (rlen read) 5 = Window (rlen read) /\
  exists read',
    trim_low_quality_read 20 read = Rewritten read' /\
    seq read' = skipn 5 (seq read) /\
    qual read' = skipn 5 (qual read).
Proof.
  intros Hn Hseq Hqual. cbv zeta. unfold rlen. rewrite Hseq, Hqual, phred_of_qual_low5.
  assert (Hlen : length (repeat 10 5 ++ repeat 30 (n - 5)) = n).
  { rewrite length_app, !repeat_length. lia. }
  set (phred := repeat 10 5 ++ repeat 30 (n - 5)) in *.
  assert (Hw0 : count_good 20 (Py.slice phred (Some 0) (Some (0 + win_size))) = 5).
  { rewrite slice_in_range by (unfold win_size; lia).
    subst phred. replace (n - 5)%nat with (5 + (n - 10))%nat by lia.
    reflexivity. }
  assert (Hw5 : count_good 20 (Py.slice phred (Some (0 + shift))
                                 (Some (0 + shift + win_size))) = 10).
  { rewrite slice_in_range by (unfold win_size, shift; lia).
    subst phred. replace (n - 5)%nat with (10 + (n - 15))%nat by lia.
    reflexivity. }
  assert (Hloop2 : left_edge_loop 2 phred 20 (Z.of_nat n) 0 = Some (Window (2 * shift))).
  { cbn [left_edge_loop]. 
    destruct (Z.ltb_spec (Z.of_nat n - read_size_min) 0); [unfold read_size_min in *; lia|].
    rewrite Hw0. 
    destruct (Z.ltb_spec (Z.of_nat n - read_size_min) (0 + shift));
      [unfold read_size_min, shift in *; lia|].
    rewrite Hw5. reflexivity. }
  assert (Hleft : left_edge phred 20 (Z.of_nat n) = Window 5).
  { unfold left_edge.
    rewrite (left_edge_loop_more_fuel phred 20 (Z.of_nat n) _ 2 (edge_fuel (Z.of_nat n)) 0
               ltac:(unfold edge_fuel; lia) Hloop2).
    reflexivity. }
  assert (Hwr : count_good 20 (Py.slice phred (Some (Z.of_nat n - win_size))
                                 (Some (Z.of_nat n))) = 10).
  { rewrite slice_in_range by (unfold win_size; lia).
    replace (Z.to_nat (Z.of_nat n - win_size)) with (n - 10)%nat by (unfold win_size; lia).
    subst phred. rewrite skipn_app, repeat_length, !skipn_repeat.
    replace (5 - (n - 10))%nat with 0%nat by lia.
    replace (n - 5 - (n - 10 - 5))%nat with 10%nat by lia.
    replace (Z.to_nat (Z.of_nat n - (Z.of_nat n - win_size))) with 10%nat
      by (unfold win_size; lia).
    reflexivity. }
  assert (Hright : right_edge phred 20 (Z.of_nat n) 5 = Window (Z.of_nat n)).
  { unfold right_edge.
    assert (H1 : right_edge_loop 1 phred 20 5 (Z.of_nat n)
                 = Some (Window (Z.of_nat n - shift))).
    { cbn [right_edge_loop].
      destruct (Z.ltb_spec (Z.of_nat n) (5 + read_size_min));
        [unfold read_size_min in *; lia|].
      now rewrite Hwr. }
    rewrite (right_edge_loop_more_fuel phred 20 5 _ 1 (edge_fuel (Z.of_nat n)) _
               ltac:(unfold edge_fuel; lia) H1).
    f_equal. unfold shift. lia. }
  split.
  { cbn [left_edge_loop].
    destruct (Z.ltb_spec (Z.of_nat n - read_size_min) 0); [unfold read_size_min in *; lia|].
    now rewrite Hw0. }
  split; [exact Hloop2|]. split; [exact Hleft|]. split; [exact Hright|].
  exists (rewrite_read false read 5 (Z.of_nat n - 5)).
  split.
  - unfold trim_low_quality_read, rlen. rewrite Hseq, Hqual, phred_of_qual_low5.
    fold phred. rewrite Hleft, Hright.
    assert (Hall : Py.all (map (fun q => 20 <=? q) phred) = false) by reflexivity.
    rewrite Hall.
    assert (Hkept : Py.slice phred (Some 5) (Some (Z.of_nat n)) = repeat 30 (n - 5)).
    { rewrite slice_in_range by lia. subst phred.
      change (skipn (Z.to_nat 5) (repeat 10 5 ++ repeat 30 (n - 5)))
        with (repeat 30 (n - 5)).
      apply firstn_all2. rewrite repeat_length. lia. }
    rewrite Hkept, count_good_repeat, repeat_length by lia.
    destruct (Z.ltb_spec (10 * Z.of_nat (n - 5)) (9 * Z.of_nat (n - 5))); [lia|].
    reflexivity.
  - unfold rewrite_read. destruct (trim_start read 5) as [cigar1 ref_start].
    cbn [seq qual set_cigar set_qual set_seq set_pos].
    replace (5 + (Z.of_nat n - 5)) with (Z.of_nat n) by lia.
    split.
    + rewrite slice_in_range by lia.
      apply firstn_all2. rewrite length_skipn. lia.
    + assert (Hqlen : length (qual read) = n).
      { rewrite Hqual. unfold qual_low5. rewrite length_app, !repeat_length. lia. }
      rewrite <- Hqual. rewrite slice_in_range by lia.
      apply firstn_all2. rewrite length_skipn. lia.
Qed.

Lemma scenario_C_trims_five_bases_witness :
  exists read',
    trim_low_quality_read 20 (fst reads_short_insert) = Rewritten read' /\
    seq read' = repeat "A"%char 55 /\
    qual read' = repeat "?"%char 55.
Proof.
  destruct (scenario_C_trims_five_bases (fst reads_short_insert) 60
              ltac:(lia) eq_refl eq_refl)
    as (_ & _ & _ & _ & read' & Hstep & Hseq & Hqual).
  exists read'. split; [exact Hstep|]. split; [exact Hseq | exact Hqual].
Defined.

(** ** What a discarded pair looks like *)

Lemma for_each_read_discards (body : AlignedRead -> read_step) (read_pair : ReadPair) :
  discards_before_rewriting body read_pair ->
  for_each_read body read_pair = ReturnedTrue read_pair.
Proof.
  unfold discards_before_rewriting, for_each_read.
  intros [-> | [-> ->]]; reflexivity.
Qed.

Lemma for_each_read_returned_true
      (body : AlignedRead -> read_step) (read_pair read_pair' : ReadPair) :
  for_each_read body read_pair = ReturnedTrue read_pair' ->
  snd read_pair' = snd read_pair /\
  (read_pair' = read_pair \/
   exists read0, body (fst read_pair) = Rewritten read0 /\
                 read_pair' = (read0, snd read_pair)).
Proof.
  unfold for_each_read. destruct read_pair as [r0 r1]. cbn [fst snd].
  destruct (body r0) as [| |r0'] eqn:E0.
  - intros [= <-]. split; [reflexivity | now left].
  - destruct (body r1); try discriminate. intros [= <-]. split; [reflexivity | now left].
  - cbn [fst snd]. destruct (body r1); try discriminate.
    intros [= <-]. split; [reflexivity|]. right. now exists r0'.
Qed.

(** C3, as stated, fails for both quality policies: on the pair below
    they return [True] at the second read, after the first read has been
    rewritten (five bases shorter, starting five bases later). *)
Lemma discard_not_atomic_counterexample :
  (let '(read_pair', discard) := trim_read_pair_low_quality reads_second_bad 20 in
   discard = true /\
   pos (fst reads_second_bad) = 100 /\ pos (fst read_pair') = 105 /\
   cigar (fst reads_second_bad) = [(0, 60)] /\ cigar (fst read_pair') = [(0, 55)] /\
   length (seq (fst read_pair')) = 55%nat /\ length (qual (fst read_pair')) = 55%nat) /\
  (let '(read_pair', discard) := main_block_read_pair_low_quality reads_second_bad 20 50 in
   discard = true /\
   pos (fst read_pair') = 105 /\ cigar (fst read_pair') = [(0, 55)] /\
   length (seq (fst read_pair')) = 55%nat /\ length (qual (fst read_pair')) = 55%nat).
Proof. vm_compute. repeat split. Qed.

(** C3, amended.  When a quality policy returns [True], the insert-size
    field of either read holds its value on entry, and the pair is
    wholly as on entry if the loop returned before rewriting a read.
    (A first read rewritten before the second one stops the loop stays
    rewritten.)  [main_block_read_pair_low_quality] returns [True] from
    its loop only: the second read and the mate position of the first
    are then as on entry as well. *)
Theorem discarded_pair_state (read_pair : ReadPair) (phred_min read_len_min : Z) :
  (forall read_pair',
      trim_read_pair_low_quality read_pair phred_min = (read_pair', true) ->
      isize (fst read_pair') = isize (fst read_pair) /\
      isize (snd read_pair') = isize (snd read_pair) /\
      (discards_before_rewriting (trim_low_quality_read phred_min) read_pair ->
       read_pair' = read_pair)) /\
  (forall read_pair',
      main_block_read_pair_low_quality read_pair phred_min read_len_min
      = (read_pair', true) ->
      isize (fst read_pair') = isize (fst read_pair) /\
      isize (snd read_pair') = isize (snd read_pair) /\
      mpos (fst read_pair') = mpos (fst read_pair) /\
      snd read_pair' = snd read_pair /\
      (discards_before_rewriting (main_block_read phred_min read_len_min) read_pair ->
       read_pair' = read_pair)).
Proof.
  split; intros read_pair'.
  - unfold trim_read_pair_low_quality.
    pose proof (for_each_read_mate_fields _ read_pair (trim_low_quality_read_keeps phred_min))
      as [(Hi0 & _) (Hi1 & _)].
    destruct (for_each_read (trim_low_quality_read phred_min) read_pair)
      as [trimmed [|]|stopped] eqn:Hloop; cbn [exit_pair] in Hi0, Hi1.
    + destruct (insert_size (fix_mate_positions trimmed) <=? 0); [|discriminate].
      intros [= <-]. destruct (fix_mate_positions_fields trimmed) as [[-> _] [-> _]].
      repeat split; try assumption.
      intros Hd. apply for_each_read_discards in Hd. congruence.
    + discriminate.
    + intros [= <-]. repeat split; try assumption.
      intros Hd. apply for_each_read_discards in Hd. congruence.
  - unfold main_block_read_pair_low_quality.
    pose proof (for_each_read_mate_fields _ read_pair
                  (main_block_read_keeps phred_min read_len_min))
      as [(Hi0 & Hm0 & _) (Hi1 & _)].
    destruct (for_each_read (main_block_read phred_min read_len_min) read_pair)
      as [trimmed [|]|stopped] eqn:Hloop; cbn [exit_pair] in Hi0, Hm0, Hi1;
      try discriminate.
    intros [= <-]. destruct (for_each_read_returned_true _ _ _ Hloop) as [Hsnd _].
    repeat split; try assumption.
    intros Hd. apply for_each_read_discards in Hd. congruence.
Qed.

Lemma discarded_pair_state_witness :
  isize (fst (fst (trim_read_pair_low_quality reads_second_bad 20))) = 260 /\
  fst (trim_read_pair_low_quality reads_first_bad 20) = reads_first_bad /\
  snd (fst (main_block_read_pair_low_quality reads_second_bad 20 50))
  = snd reads_second_bad.
Proof.
  split; [|split].
  - apply (proj1 (discarded_pair_state reads_second_bad 20 50)
                 (fst (trim_read_pair_low_quality reads_second_bad 20))).
    vm_compute. reflexivity.
  - apply (proj1 (discarded_pair_state reads_first_bad 20 50)
                 (fst (trim_read_pair_low_quality reads_first_bad 20))).
    + vm_compute. reflexivity.
    + left. vm_compute. reflexivity.
  - apply (proj2 (discarded_pair_state reads_second_bad 20 50)
                 (fst (main_block_read_pair_low_quality reads_second_bad 20 50))).
    vm_compute. reflexivity.
Defined.

(** ** Cross-overhang trimming, applied twice *)

Lemma read_span_cons (bt bl : Z) (c : Cigar) :
  read_span ((bt, bl) :: c)
  = (if (bt =? 0) || (bt =? 1) then bl else 0) + read_span c.
Proof.
  unfold read_span, Py.sum. cbn [filter fst].
  destruct ((bt =? 0) || (bt =? 1)); cbn [map fold_right snd]; lia.
Qed.

Lemma ref_span_cons (bt bl : Z) (c : Cigar) :
  ref_span ((bt, bl) :: c)
  = (if (bt =? 0) || (bt =? 2) then bl else 0) + ref_span c.
Proof.
  unfold ref_span, Py.sum. cbn [filter fst].
  destruct ((bt =? 0) || (bt =? 2)); cbn [map fold_right snd]; lia.
Qed.

Lemma read_span_rev (c : Cigar) : read_span (rev c) = read_span c.
Proof. unfold read_span. now rewrite filter_rev, map_rev, sum_rev. Qed.

Lemma ref_span_rev (c : Cigar) : ref_span (rev c) = ref_span c.
Proof. unfold ref_span. now rewrite filter_rev, map_rev, sum_rev. Qed.

Lemma returned_pair_eq {A B} (a a' : A) (b b' : B) :
  a = a' -> b = b' -> Returned (a, b) = Returned (a', b').
Proof. now intros -> ->. Qed.

Lemma returned_triple_eq {A B C} (a a' : A) (b b' : B) (c c' : C) :
  a = a' -> b = b' -> c = c' -> Returned (a, b, c) = Returned (a', b', c').
Proof. now intros -> -> ->. Qed.

Lemma crossoverhang_fwd_walk_again (end_rev trim : Z) (c : Cigar) :
  forall ref_pos read_pos c' read_pos',
    crossoverhang_fwd_walk c end_rev trim ref_pos read_pos = Returned (c', read_pos') ->
    read_pos' = read_pos + read_span c' /\
    forall read_pos2,
      crossoverhang_fwd_walk c' end_rev trim ref_pos read_pos2
      = Returned (c', read_pos2 + read_span c').
Proof.
  induction c as [|[bt bl] rest IH]; intros ref_pos read_pos c' read_pos';
    cbn [crossoverhang_fwd_walk].
  - intros [= <- <-]. change (read_span []) with 0. split; [lia|]. intros read_pos2.
    cbn [crossoverhang_fwd_walk]. apply returned_pair_eq; [reflexivity | lia].
  - destruct (Z.eqb_spec bt 0) as [->|H0].
    + destruct (Z.leb_spec (end_rev - trim) (ref_pos + bl)) as [Hstop|Hgo].
      * intros [= <- <-]. rewrite read_span_cons. cbn [Z.eqb Pos.eqb orb].
        change (read_span []) with 0. split; [lia|]. intros read_pos2.
        cbn [crossoverhang_fwd_walk Z.eqb Pos.eqb].
        destruct (Z.leb_spec (end_rev - trim) (ref_pos + (end_rev - ref_pos - trim)));
          [|lia].
        apply returned_pair_eq; [reflexivity | lia].
      * destruct (crossoverhang_fwd_walk rest end_rev trim (ref_pos + bl) (read_pos + bl))
          as [[c'' q'']|e] eqn:Hrec; cbn [Py.bind]; [|discriminate].
        intros [= <- <-]. destruct (IH _ _ _ _ Hrec) as [Hq Hagain].
        rewrite read_span_cons. cbn [Z.eqb Pos.eqb orb]. split; [lia|]. intros read_pos2.
        cbn [crossoverhang_fwd_walk Z.eqb Pos.eqb].
        destruct (Z.leb_spec (end_rev - trim) (ref_pos + bl)); [lia|].
        rewrite Hagain. cbn [Py.bind]. apply returned_pair_eq; [reflexivity | lia].
    + destruct (Z.eqb_spec bt 1) as [->|H1].
      * destruct (crossoverhang_fwd_walk rest end_rev trim ref_pos (read_pos + bl))
          as [[c'' q'']|e] eqn:Hrec; cbn [Py.bind]; [|discriminate].
        intros [= <- <-]. destruct (IH _ _ _ _ Hrec) as [Hq Hagain].
        rewrite read_span_cons. cbn [Z.eqb Pos.eqb orb]. split; [lia|]. intros read_pos2.
        cbn [crossoverhang_fwd_walk Z.eqb Pos.eqb]. rewrite Hagain. cbn [Py.bind].
        apply returned_pair_eq; [reflexivity | lia].
      * destruct (Z.eqb_spec bt 2) as [->|H2]; [|discriminate].
        destruct (Z.leb_spec (end_rev - trim) (ref_pos + bl)) as [Hstop|Hgo].
        -- intros [= <- <-]. change (read_span []) with 0. split; [lia|].
           intros read_pos2. cbn [crossoverhang_fwd_walk]. apply returned_pair_eq; [reflexivity | lia].
        -- destruct (crossoverhang_fwd_walk rest end_rev trim (ref_pos + bl) read_pos)
             as [[c'' q'']|e] eqn:Hrec; cbn [Py.bind]; [|discriminate].
           intros [= <- <-]. destruct (IH _ _ _ _ Hrec) as [Hq Hagain].
           rewrite read_span_cons. cbn [Z.eqb Pos.eqb orb]. split; [lia|]. intros read_pos2.
           cbn [crossoverhang_fwd_walk Z.eqb Pos.eqb].
           destruct (Z.leb_spec (end_rev - trim) (ref_pos + bl)); [lia|].
           rewrite Hagain. cbn [Py.bind]. apply returned_pair_eq; [reflexivity | lia].
Qed.

Lemma crossoverhang_rev_walk_again (start_fwd trim : Z) (rc : Cigar) :
  forall ref_pos read_pos appended read_pos' ref_pos',
    crossoverhang_rev_walk rc start_fwd trim ref_pos read_pos
    = Returned (appended, read_pos', ref_pos') ->
    read_pos' = read_pos - read_span appended /\
    ref_pos' = ref_pos - ref_span appended /\
    forall read_pos2,
      crossoverhang_rev_walk appended start_fwd trim ref_pos read_pos2
      = Returned (appended, read_pos2 - read_span appended, ref_pos').
Proof.
  induction rc as [|[bt bl] rest IH]; intros ref_pos read_pos appended read_pos' ref_pos';
    cbn [crossoverhang_rev_walk].
  - intros [= <- <- <-]. change (read_span []) with 0. change (ref_span []) with 0.
    split; [lia|]. split; [lia|]. intros read_pos2.
    cbn [crossoverhang_rev_walk]. apply returned_triple_eq; [reflexivity | lia | lia].
  - destruct (Z.eqb_spec bt 0) as [->|H0].
    + destruct (Z.leb_spec (ref_pos - bl) (start_fwd + trim)) as [Hstop|Hgo].
      * intros [= <- <- <-]. rewrite read_span_cons, ref_span_cons.
        cbn [Z.eqb Pos.eqb orb].
        change (read_span []) with 0. change (ref_span []) with 0.
        split; [lia|]. split; [lia|]. intros read_pos2.
        cbn [crossoverhang_rev_walk Z.eqb Pos.eqb].
        destruct (Z.leb_spec (ref_pos - (ref_pos - (start_fwd + trim))) (start_fwd + trim));
          [|lia].
        apply returned_triple_eq; [reflexivity | lia | lia].
      * destruct (crossoverhang_rev_walk rest start_fwd trim (ref_pos - bl) (read_pos - bl))
          as [[[c'' q''] p'']|e] eqn:Hrec; cbn [Py.bind]; [|discriminate].
        intros [= <- <- <-]. destruct (IH _ _ _ _ _ Hrec) as (Hq & Hp & Hagain).
        rewrite read_span_cons, ref_span_cons. cbn [Z.eqb Pos.eqb orb].
        split; [lia|]. split; [lia|]. intros read_pos2.
        cbn [crossoverhang_rev_walk Z.eqb Pos.eqb].
        destruct (Z.leb_spec (ref_pos - bl) (start_fwd + trim)); [lia|].
        rewrite Hagain. cbn [Py.bind]. apply returned_triple_eq; [reflexivity | lia | lia].
    + destruct (Z.eqb_spec bt 1) as [->|H1].
      * destruct (crossoverhang_rev_walk rest start_fwd trim ref_pos (read_pos - bl))
          as [[[c'' q''] p'']|e] eqn:Hrec; cbn [Py.bind]; [|discriminate].
        intros [= <- <- <-]. destruct (IH _ _ _ _ _ Hrec) as (Hq & Hp & Hagain).
        rewrite read_span_cons, ref_span_cons. cbn [Z.eqb Pos.eqb orb].
        split; [lia|]. split; [lia|]. intros read_pos2.
        cbn [crossoverhang_rev_walk Z.eqb Pos.eqb].
        rewrite Hagain. cbn [Py.bind]. apply returned_triple_eq; [reflexivity | lia | lia].
      * destruct (Z.eqb_spec bt 2) as [->|H2]; [|discriminate].
        destruct (Z.leb_spec (ref_pos - bl) (start_fwd + trim)) as [Hstop|Hgo].
        -- intros [= <- <- <-]. change (read_span []) with 0. change (ref_span []) with 0.
           split; [lia|]. split; [lia|]. intros read_pos2.
           cbn [crossoverhang_rev_walk]. apply returned_triple_eq; [reflexivity | lia | lia].
        -- destruct (crossoverhang_rev_walk rest start_fwd trim (ref_pos - bl) read_pos)
             as [[[c'' q''] p'']|e] eqn:Hrec; cbn [Py.bind]; [|discriminate].
           intros [= <- <- <-]. destruct (IH _ _ _ _ _ Hrec) as (Hq & Hp & Hagain).
           rewrite read_span_cons, ref_span_cons. cbn [Z.eqb Pos.eqb orb].
           split; [lia|]. split; [lia|]. intros read_pos2.
           cbn [crossoverhang_rev_walk Z.eqb Pos.eqb].
           destruct (Z.leb_spec (ref_pos - bl) (start_fwd + trim)); [lia|].
           rewrite Hagain. cbn [Py.bind]. apply returned_triple_eq; [reflexivity | lia | lia].
Qed.


Lemma integrity_read_spans (read_pair : ReadPair) :
  test_read_pair_integrity read_pair = false ->
  read_span (cigar (fst read_pair)) = rlen (fst read_pair) /\
  read_span (cigar (snd read_pair)) = rlen (snd read_pair).
Proof.
  unfold test_read_pair_integrity. intros H.
  destruct (Z.eqb_spec (read_span (cigar (fst read_pair))) (rlen (fst read_pair)));
    destruct (Z.eqb_spec (read_span (cigar (snd read_pair))) (rlen (snd read_pair)));
    [tauto| | |]; exfalso; cbn [negb orb] in H;
    repeat match type of H with
           | context [if ?c then true else _] => destruct c
           end; discriminate.
Qed.

Ltac simpl_reads Hrev :=
  repeat (cbn -[ref_span read_span Py.slice crossoverhang_fwd_walk crossoverhang_rev_walk
                Z.add Z.sub Z.opp rlen rev Z.eqb Z.leb Z.ltb];
          rewrite ?Hrev).

(** One orientation of the pair: [F] is the forward read, [R] the
    reverse read. *)
Ltac trimmed_again F R Hrev :=
  destruct (crossoverhang_fwd_walk (cigar F) (pos F + isize F) _ (pos F) 0)
    as [[cigar_fwd read_pos]|e] eqn:Hfwd; [|discriminate];
  cbn [pos set_cigar set_qual set_seq];
  destruct (crossoverhang_rev_walk (rev (cigar R)) (pos F) _ (pos F + isize F) (rlen R))
    as [[[appended read_pos_r] ref_pos]|e] eqn:Hrev_walk; [|discriminate];
  unfold fix_mate_positions, insert_size, write_insert_size;
  simpl_reads Hrev;
  intros [= <-] Hint;
  apply integrity_read_spans in Hint; destruct Hint as [Hs0 Hs1];
  unfold rlen in Hs0, Hs1;
  cbn [fst snd cigar seq set_cigar set_qual set_seq set_pos set_mpos set_isize]
    in Hs0, Hs1;
  destruct (crossoverhang_fwd_walk_again _ _ _ _ _ _ _ Hfwd) as [Hq Hagain];
  destruct (crossoverhang_rev_walk_again _ _ _ _ _ _ _ _ Hrev_walk)
    as (Hrq & Hrp & Hagain_r);
  rewrite ?read_span_rev in *; rewrite ?ref_span_rev in *;
  unfold trim_read_pair_crossoverhangs, fix_mate_positions, insert_size,
    write_insert_size;
  simpl_reads Hrev;
  rewrite ?ref_span_rev;
  replace (pos F + (ref_pos + ref_span appended - pos F)) with (pos F + isize F) by lia;
  rewrite Hagain, rev_involutive, Hagain_r;
  simpl_reads Hrev;
  rewrite ?ref_span_rev;
  replace (0 + read_span cigar_fwd) with read_pos by lia;
  rewrite !slice_prefix_again by lia;
  unfold rlen;
  cbn [seq set_cigar set_qual set_seq set_pos set_mpos set_isize];
  match goal with
  | H : read_span appended = _ |- _ => rewrite <- H
  end;
  rewrite Z.sub_diag, !slice_from_zero;
  reflexivity.

(** C4.  Cross-overhang trimming is idempotent: when a pair that has
    been trimmed once passes the integrity test, trimming it again with
    the same [trim] returns it as it is, every field of both reads
    included. *)
Theorem trim_read_pair_crossoverhangs_idempotent (read_pair trimmed : ReadPair) (trim : Z) :
  trim_read_pair_crossoverhangs read_pair trim = (trimmed, Returned tt) ->
  test_read_pair_integrity trimmed = false ->
  trim_read_pair_crossoverhangs trimmed trim = (trimmed, Returned tt).
Proof.
  destruct read_pair as [a b]. unfold trim_read_pair_crossoverhangs at 1.
  cbn [fst snd]. destruct (is_reverse a) eqn:Hrev; cbn [negb get_read upd_read fst snd].
  - trimmed_again b a Hrev.
  - trimmed_again a b Hrev.
Qed.

Lemma trim_read_pair_crossoverhangs_idempotent_witness :
  test_read_pair_integrity reads_overhanging = false /\
  test_read_pair_crossoverhang reads_overhanging = true /\
  trim_read_pair_crossoverhangs
    (fst (trim_read_pair_crossoverhangs reads_overhanging 5)) 5
  = (fst (trim_read_pair_crossoverhangs reads_overhanging 5), Returned tt).
Proof.
  split; [reflexivity|]. split; [reflexivity|].
  apply (trim_read_pair_crossoverhangs_idempotent reads_overhanging
           (fst (trim_read_pair_crossoverhangs reads_overhanging 5)) 5);
    vm_compute; reflexivity.
Defined.

(** ** Trimmed pairs stay proper *)

(** The integrity test, condition by condition. *)
Lemma integrity_passes_iff (read_pair : ReadPair) :
  let read_fwd := get_read read_pair (is_reverse (fst read_pair)) in
  let read_rev := get_read read_pair (negb (is_reverse (fst read_pair))) in
  test_read_pair_integrity read_pair = false <->
  (0 <= pos read_fwd /\
   mpos (fst read_pair) = pos (snd read_pair) /\
   mpos (snd read_pair) = pos (fst read_pair) /\
   0 < isize read_fwd /\ isize read_rev < 0 /\
   pos read_fwd + isize read_fwd = pos read_rev + ref_span (cigar read_rev) /\
   read_span (cigar (fst read_pair)) = rlen (fst read_pair) /\
   read_span (cigar (snd read_pair)) = rlen (snd read_pair)).
Proof.
  cbv zeta. unfold test_read_pair_integrity.
  repeat match goal with
         | |- context [?a <? ?b] => destruct (Z.ltb_spec a b)
         | |- context [?a <=? ?b] => destruct (Z.leb_spec a b)
         | |- context [?a =? ?b] => destruct (Z.eqb_spec a b)
         end; cbn [negb orb]; split; intros Hyp; try discriminate; try reflexivity;
    try (exfalso; lia); repeat split; try lia.
Qed.

Lemma read_span_nonneg (c : Cigar) :
  Forall (fun b => 0 <= snd b) c -> 0 <= read_span c.
Proof.
  induction 1 as [|[bt bl] c Hb Hc IH]; [reflexivity|].
  rewrite read_span_cons. cbn [snd] in Hb. destruct ((bt =? 0) || (bt =? 1)); lia.
Qed.

Lemma crossoverhang_fwd_walk_bounds (end_rev trim : Z) (c : Cigar) :
  Forall (fun b => 0 <= snd b) c ->
  forall ref_pos read_pos c' read_pos',
    ref_pos <= end_rev - trim ->
    crossoverhang_fwd_walk c end_rev trim ref_pos read_pos = Returned (c', read_pos') ->
    0 <= read_span c' <= read_span c.
Proof.
  induction 1 as [|[bt bl] rest Hb Hrest IH]; intros ref_pos read_pos c' read_pos' Hinv;
    cbn [crossoverhang_fwd_walk].
  - intros [= <- <-]. change (read_span []) with 0. lia.
  - cbn [snd] in Hb. pose proof (read_span_nonneg rest Hrest) as Hnn.
    rewrite (read_span_cons bt bl rest).
    destruct (Z.eqb_spec bt 0) as [->|H0].
    + cbn [Z.eqb Pos.eqb orb].
      destruct (Z.leb_spec (end_rev - trim) (ref_pos + bl)) as [Hstop|Hgo].
      * intros [= <- <-]. rewrite read_span_cons. cbn [Z.eqb Pos.eqb orb].
        change (read_span []) with 0. lia.
      * destruct (crossoverhang_fwd_walk rest end_rev trim (ref_pos + bl) (read_pos + bl))
          as [[c'' q'']|e] eqn:Hrec; cbn [Py.bind]; [|discriminate].
        intros [= <- <-]. rewrite read_span_cons. cbn [Z.eqb Pos.eqb orb].
        apply IH in Hrec; lia.
    + destruct (Z.eqb_spec bt 1) as [->|H1].
      * cbn [Z.eqb Pos.eqb orb].
        destruct (crossoverhang_fwd_walk rest end_rev trim ref_pos (read_pos + bl))
          as [[c'' q'']|e] eqn:Hrec; cbn [Py.bind]; [|discriminate].
        intros [= <- <-]. rewrite read_span_cons. cbn [Z.eqb Pos.eqb orb].
        apply IH in Hrec; lia.
      * destruct (Z.eqb_spec bt 2) as [->|H2]; [|discriminate].
        cbn [Z.eqb Pos.eqb orb].
        destruct (Z.leb_spec (end_rev - trim) (ref_pos + bl)) as [Hstop|Hgo].
        -- intros [= <- <-]. change (read_span []) with 0. lia.
        -- destruct (crossoverhang_fwd_walk rest end_rev trim (ref_pos + bl) read_pos)
             as [[c'' q'']|e] eqn:Hrec; cbn [Py.bind]; [|discriminate].
           intros [= <- <-]. rewrite read_span_cons. cbn [Z.eqb Pos.eqb orb].
           apply IH in Hrec; lia.
Qed.

Lemma crossoverhang_rev_walk_bounds (start_fwd trim : Z) (rc : Cigar) :
  Forall (fun b => 0 <= snd b) rc ->
  forall ref_pos read_pos appended read_pos' ref_pos',
    start_fwd + trim <= ref_pos ->
    crossoverhang_rev_walk rc start_fwd trim ref_pos read_pos
    = Returned (appended, read_pos', ref_pos') ->
    0 <= read_span appended <= read_span rc.
Proof.
  induction 1 as [|[bt bl] rest Hb Hrest IH];
    intros ref_pos read_pos appended read_pos' ref_pos' Hinv;
    cbn [crossoverhang_rev_walk].
  - intros [= <- <- <-]. change (read_span []) with 0. lia.
  - cbn [snd] in Hb. pose proof (read_span_nonneg rest Hrest) as Hnn.
    rewrite (read_span_cons bt bl rest).
    destruct (Z.eqb_spec bt 0) as [->|H0].
    + cbn [Z.eqb Pos.eqb orb].
      destruct (Z.leb_spec (ref_pos - bl) (start_fwd + trim)) as [Hstop|Hgo].
      * intros [= <- <- <-]. rewrite read_span_cons. cbn [Z.eqb Pos.eqb orb].
        change (read_span []) with 0. lia.
      * destruct (crossoverhang_rev_walk rest start_fwd trim (ref_pos - bl) (read_pos - bl))
          as [[[c'' q''] p'']|e] eqn:Hrec; cbn [Py.bind]; [|discriminate].
        intros [= <- <- <-]. rewrite read_span_cons. cbn [Z.eqb Pos.eqb orb].
        apply IH in Hrec; lia.
    + destruct (Z.eqb_spec bt 1) as [->|H1].
      * cbn [Z.eqb Pos.eqb orb].
        destruct (crossoverhang_rev_walk rest start_fwd trim ref_pos (read_pos - bl))
          as [[[c'' q''] p'']|e] eqn:Hrec; cbn [Py.bind]; [|discriminate].
        intros [= <- <- <-]. rewrite read_span_cons. cbn [Z.eqb Pos.eqb orb].
        apply IH in Hrec; lia.
      * destruct (Z.eqb_spec bt 2) as [->|H2]; [|discriminate].
        cbn [Z.eqb Pos.eqb orb].
        destruct (Z.leb_spec (ref_pos - bl) (start_fwd + trim)) as [Hstop|Hgo].
        -- intros [= <- <- <-]. change (read_span []) with 0. lia.
        -- destruct (crossoverhang_rev_walk rest start_fwd trim (ref_pos - bl) read_pos)
             as [[[c'' q''] p'']|e] eqn:Hrec; cbn [Py.bind]; [|discriminate].
           intros [= <- <- <-]. rewrite read_span_cons. cbn [Z.eqb Pos.eqb orb].
           apply IH in Hrec; lia.
Qed.

Ltac trimmed_proper F R Hrev :=
  destruct (crossoverhang_fwd_walk (cigar F) (pos F + isize F) _ (pos F) 0)
    as [[cigar_fwd read_pos]|e] eqn:Hfwd; [|discriminate];
  cbn [pos set_cigar set_qual set_seq];
  destruct (crossoverhang_rev_walk (rev (cigar R)) (pos F) _ (pos F + isize F) (rlen R))
    as [[[appended read_pos_r] ref_pos]|e] eqn:Hrev_walk; [|discriminate];
  unfold fix_mate_positions, insert_size, write_insert_size;
  simpl_reads Hrev;
  intros [= <-];
  destruct (crossoverhang_fwd_walk_again _ _ _ _ _ _ _ Hfwd) as [Hq _];
  destruct (crossoverhang_rev_walk_again _ _ _ _ _ _ _ _ Hrev_walk) as (Hrq & Hrp & _);
  apply crossoverhang_fwd_walk_bounds in Hfwd; [|assumption|lia];
  apply crossoverhang_rev_walk_bounds in Hrev_walk;
    [|apply Forall_rev; assumption|lia];
  rewrite read_span_rev in Hrev_walk;
  apply integrity_passes_iff;
  simpl_reads Hrev;
  unfold rlen in *;
  cbn [seq set_cigar set_qual set_seq set_pos set_mpos set_isize];
  rewrite ?read_span_rev, ?ref_span_rev;
  rewrite slice_prefix, slice_suffix by lia;
  rewrite length_firstn, length_skipn;
  repeat split; lia.

(** X10.  A proper pair of reads with no negative block length, trimmed
    with a [trim] no larger than its insert size, is proper afterwards:
    [test_read_pair_integrity] is [False] before and after. *)
Lemma trim_read_pair_crossoverhangs_keeps_integrity
      (read_pair trimmed : ReadPair) (trim : Z) :
  test_read_pair_integrity read_pair = false ->
  trim <= isize (get_read read_pair (is_reverse (fst read_pair))) ->
  Forall (fun b => 0 <= snd b) (cigar (fst read_pair)) ->
  Forall (fun b => 0 <= snd b) (cigar (snd read_pair)) ->
  trim_read_pair_crossoverhangs read_pair trim = (trimmed, Returned tt) ->
  test_read_pair_integrity trimmed = false.
Proof.
  intros Hint. apply integrity_passes_iff in Hint. revert Hint.
  destruct read_pair as [a b]. unfold trim_read_pair_crossoverhangs.
  cbn [fst snd]. destruct (is_reverse a) eqn:Hrev; cbn [negb get_read upd_read fst snd];
    intros (Hpos & Hm0 & Hm1 & Hi0 & Hi1 & Hend & Hs0 & Hs1) Htrim Hnn0 Hnn1.
  - trimmed_proper b a Hrev.
  - trimmed_proper a b Hrev.
Qed.

(** * Further properties of the module *)

(** ** Reading a stream two items at a time *)

Lemma list_pair_ind {A} (P : list A -> Prop) :
  P [] -> (forall x, P [x]) -> (forall x y l, P l -> P (x :: y :: l)) ->
  forall l, P l.
Proof.
  intros Hnil Hone Hstep.
  assert (H : forall l, P l /\ forall x, P (x :: l)).
  { induction l as [|y l [IH1 IH2]]; split; auto. }
  intros l. apply H.
Qed.

(** X1.  [pair_generator] yields half as many pairs as there are items,
    rounded down; laid end to end the pairs give the items back, in
    order, up to the last item of an odd stream, which is lost. *)
Theorem pair_generator_items {A} (iterable : list A) (d : A) :
  length (pair_generator iterable) = (length iterable / 2)%nat /\
  concat (map (fun p => [fst p; snd p]) (pair_generator iterable))
  ++ (if Nat.even (length iterable) then [] else [last iterable d])
  = iterable.
Proof.
  induction iterable as [|x|x y l [IHlen IHcat]] using list_pair_ind.
  - split; reflexivity.
  - split; reflexivity.
  - split.
    + cbn [pair_generator length]. rewrite IHlen.
      change (S (S (length l))) with (2 + length l)%nat.
      replace (2 + length l)%nat with (length l + 1 * 2)%nat by lia.
      rewrite Nat.div_add by lia. lia.
    + assert (Htail : (if Nat.even (length (x :: y :: l)) then []
                       else [last (x :: y :: l) d])
                      = (if Nat.even (length l) then [] else [last l d])).
      { destruct l as [|z l]; reflexivity. }
      rewrite Htail. cbn [pair_generator map concat fst snd app].
      now rewrite IHcat.
Qed.

(** ** The mask of the good CIGAR blocks *)

Section SetSlice.
Context {A : Type}.
Variables (lo hi : nat) (v : A).

Lemma set_slice_cells_app (l1 l2 : list A) :
  forall s,
    map (set_slice_cell lo hi v) (combine (List.seq s (length (l1 ++ l2))) (l1 ++ l2))
    = map (set_slice_cell lo hi v) (combine (List.seq s (length l1)) l1)
      ++ map (set_slice_cell lo hi v) (combine (List.seq (s + length l1) (length l2)) l2).
Proof.
  induction l1 as [|x l1 IH]; intros s; cbn [app length List.seq combine map].
  - now rewrite Nat.add_0_r.
  - rewrite IH. now rewrite Nat.add_succ_comm.
Qed.

Lemma set_slice_cells_outside (l : list A) :
  forall s, (s + length l <= lo \/ hi <= s)%nat ->
            map (set_slice_cell lo hi v) (combine (List.seq s (length l)) l) = l.
Proof.
  induction l as [|x l IH]; intros s Hs; cbn [length List.seq combine map]; [reflexivity|].
  cbn [length] in Hs. rewrite IH by lia. unfold set_slice_cell. cbn [fst snd].
  destruct (Nat.leb_spec lo s), (Nat.ltb_spec s hi); cbn [andb]; try reflexivity; lia.
Qed.

Lemma set_slice_cells_inside (l : list A) :
  forall s, (lo <= s)%nat -> (s + length l <= hi)%nat ->
            map (set_slice_cell lo hi v) (combine (List.seq s (length l)) l) = repeat v (length l).
Proof.
  induction l as [|x l IH]; intros s Hlo Hhi; cbn [length List.seq combine map repeat];
    [reflexivity|].
  cbn [length] in Hhi. rewrite IH by lia. unfold set_slice_cell. cbn [fst snd].
  destruct (Nat.leb_spec lo s), (Nat.ltb_spec s hi); cbn [andb]; try reflexivity; lia.
Qed.

(** The assignment changes the cells from [lo] to [hi - 1] and no other. *)
Lemma set_slice_three (l1 l2 l3 : list A) :
  length l1 = lo -> (length l1 + length l2)%nat = hi ->
  set_slice (l1 ++ l2 ++ l3) lo hi v = l1 ++ repeat v (length l2) ++ l3.
Proof.
  intros H1 H2. unfold set_slice.
  change (fun ix : nat * A => if (lo <=? fst ix)%nat && (fst ix <? hi)%nat then v else snd ix)
    with (set_slice_cell lo hi v).
  rewrite set_slice_cells_app, set_slice_cells_app.
  rewrite (set_slice_cells_outside l1) by lia.
  rewrite (set_slice_cells_inside l2) by lia.
  rewrite (set_slice_cells_outside l3) by lia.
  reflexivity.
Qed.

End SetSlice.

Section Splits.
Context {A : Type}.
Variable f : A -> bool.

Lemma map_none (l : list A) :
  existsb f l = false -> map f l = repeat false (length l).
Proof.
  induction l as [|x l IH]; cbn [existsb map length repeat]; [reflexivity|].
  intros H. apply orb_false_elim in H as [-> H]. now rewrite IH.
Qed.

Lemma last_good_split (l : list A) :
  existsb f l = true ->
  exists pre b post, l = pre ++ b :: post /\ f b = true /\ existsb f post = false.
Proof.
  intros H. rewrite <- existsb_rev in H.
  destruct (first_good_split f (rev l) H) as (rpost & b & rpre & Hl & Hpost & Hb).
  exists (rev rpre), b, (rev rpost). repeat split.
  - apply (f_equal (@rev A)) in Hl. rewrite rev_involutive in Hl. rewrite Hl.
    rewrite rev_app_distr. cbn [rev]. now rewrite <- app_assoc.
  - exact Hb.
  - now rewrite existsb_rev.
Qed.

(** A list with a good item has one only, or a first and a last. *)
Lemma good_items_split (l : list A) :
  existsb f l = true ->
  (exists pre b post,
      l = pre ++ b :: post /\
      existsb f pre = false /\ f b = true /\ existsb f post = false) \/
  (exists pre b1 mid b2 post,
      l = pre ++ b1 :: mid ++ b2 :: post /\
      existsb f pre = false /\ f b1 = true /\ f b2 = true /\ existsb f post = false).
Proof.
  intros H. destruct (first_good_split f l H) as (pre & b1 & rest & -> & Hpre & Hb1).
  destruct (existsb f rest) eqn:Hrest.
  - right. destruct (last_good_split rest Hrest) as (mid & b2 & post & -> & Hb2 & Hpost).
    now exists pre, b1, mid, b2, post.
  - left. now exists pre, b1, rest.
Qed.

End Splits.

Section Select.
Context {B : Type}.

Lemma select_false (l1 l : list B) (m : list bool) :
  map snd (filter fst (combine (repeat false (length l1) ++ m) (l1 ++ l)))
  = map snd (filter fst (combine m l)).
Proof. induction l1 as [|x l1 IH]; [reflexivity | exact IH]. Qed.

Lemma select_true (l2 l : list B) (m : list bool) :
  map snd (filter fst (combine (repeat true (length l2) ++ m) (l2 ++ l)))
  = l2 ++ map snd (filter fst (combine m l)).
Proof.
  induction l2 as [|x l2 IH]; [reflexivity|].
  cbn [length repeat app combine filter fst map snd]. now rewrite IH.
Qed.

Lemma select_three (l1 l2 l3 : list B) :
  map snd (filter fst
             (combine (repeat false (length l1) ++ repeat true (length l2)
                       ++ repeat false (length l3))
                      (l1 ++ l2 ++ l3)))
  = l2.
Proof.
  rewrite select_false, select_true.
  assert (Hnone : map snd (filter fst (combine (repeat false (length l3)) l3)) = []).
  { induction l3 as [|x l IH]; [reflexivity | exact IH]. }
  rewrite Hnone. apply app_nil_r.
Qed.

Lemma select_span (l : list B) (a k : nat) :
  (a + k <= length l)%nat ->
  map snd (filter fst
             (combine (repeat false a ++ repeat true k
                       ++ repeat false (length l - (a + k)))
                      l))
  = firstn k (skipn a l).
Proof.
  intros Hlen.
  assert (H1 : length (firstn a l) = a) by (rewrite length_firstn; lia).
  assert (H2 : length (firstn k (skipn a l)) = k)
    by (rewrite length_firstn, length_skipn; lia).
  assert (H3 : length (skipn k (skipn a l)) = (length l - (a + k))%nat)
    by (rewrite !length_skipn; lia).
  rewrite <- H1 at 1. rewrite <- H2 at 1. rewrite <- H3.
  rewrite <- (firstn_skipn a l) at 4.
  rewrite <- (firstn_skipn k (skipn a l)) at 3.
  apply select_three.
Qed.

End Select.

Lemma filter_true_repeat_false (n : nat) :
  filter (fun b : bool => b) (repeat false n) = [].
Proof. induction n as [|n IH]; [reflexivity | exact IH]. Qed.

(** The array and the two indices [get_ind_good_cigars] returns. *)
Lemma get_ind_good_cigars_shape (c : Cigar) (match_len_min : Z) :
  (existsb (criterion match_len_min) c = false ->
   get_ind_good_cigars c match_len_min = (repeat false (length c), None, None)) /\
  (existsb (criterion match_len_min) c = true ->
   let first := first_good_cigar match_len_min c in
   let last := last_good_cigar match_len_min c in
   (first <= last < length c)%nat /\
   get_ind_good_cigars c match_len_min
   = (repeat false first ++ repeat true (S last - first)
      ++ repeat false (length c - S last),
      Some first, Some last)).
Proof.
  split; intros Hgood.
  - unfold get_ind_good_cigars. rewrite (map_none _ _ Hgood).
    now rewrite filter_true_repeat_false.
  - cbv zeta.
    destruct (good_items_split _ _ Hgood)
      as [(pre & b & post & -> & Hpre & Hb & Hpost)
         |(pre & b1 & mid & b2 & post & -> & Hpre & Hb1 & Hb2 & Hpost)].
    + rewrite (first_good_cigar_split _ _ _ _ Hpre Hb),
        (last_good_cigar_split _ _ _ _ Hpost Hb).
      assert (Hmask : get_ind_good_cigars (pre ++ b :: post) match_len_min
                      = (repeat false (length pre) ++ repeat true 1
                         ++ repeat false (length post),
                         Some (length pre), Some (length pre))).
      { unfold get_ind_good_cigars.
        assert (Hmap : map (criterion match_len_min) (pre ++ b :: post)
                       = repeat false (length pre) ++ true :: repeat false (length post)).
        { rewrite map_app. cbn [map].
          now rewrite Hb, (map_none _ pre Hpre), (map_none _ post Hpost). }
        pose proof (first_good_cigar_split match_len_min pre post b Hpre Hb) as Hfirst.
        unfold first_good_cigar in Hfirst. rewrite Hfirst, Hmap.
        rewrite filter_app, filter_true_repeat_false. cbn [app filter].
        now rewrite filter_true_repeat_false. }
      rewrite Hmask. rewrite length_app. cbn [length fst].
      replace (S (length pre) - length pre)%nat with 1%nat by lia.
      replace (length pre + S (length post) - S (length pre))%nat
        with (length post) by lia.
      split; [lia|reflexivity].
    + assert (Hfirst : first_good_cigar match_len_min (pre ++ b1 :: mid ++ b2 :: post)
                       = length pre)
        by (apply first_good_cigar_split; assumption).
      assert (Hlast : last_good_cigar match_len_min (pre ++ b1 :: mid ++ b2 :: post)
                      = (length pre + S (length mid))%nat).
      { replace (pre ++ b1 :: mid ++ b2 :: post) with ((pre ++ b1 :: mid) ++ b2 :: post)
          by (rewrite <- app_assoc; reflexivity).
        rewrite (last_good_cigar_split _ _ _ _ Hpost Hb2), length_app. reflexivity. }
      assert (Hlen : length (pre ++ b1 :: mid ++ b2 :: post)
                     = (length pre + S (length mid + S (length post)))%nat).
      { rewrite length_app. cbn [length]. rewrite length_app. reflexivity. }
      assert (Hmask : get_ind_good_cigars (pre ++ b1 :: mid ++ b2 :: post) match_len_min
                      = (repeat false (length pre)
                         ++ repeat true (length (b1 :: mid ++ [b2]))
                         ++ repeat false (length post),
                         Some (length pre), Some (length pre + S (length mid))%nat)).
      { unfold get_ind_good_cigars.
        unfold first_good_cigar in Hfirst. unfold last_good_cigar in Hlast.
        rewrite Hfirst, Hlast.
        assert (Hmap : map (criterion match_len_min) (pre ++ b1 :: mid ++ b2 :: post)
                       = repeat false (length pre)
                         ++ (true :: map (criterion match_len_min) mid ++ [true])
                         ++ repeat false (length post)).
        { rewrite map_app. cbn [map]. rewrite map_app. cbn [map].
          rewrite Hb1, Hb2, (map_none _ pre Hpre), (map_none _ post Hpost).
          cbn [app]. now rewrite <- app_assoc. }
        rewrite Hmap.
        assert (Hcount : (2 <=? length (filter (fun b : bool => b)
                                          (repeat false (length pre)
                                           ++ (true :: map (criterion match_len_min) mid
                                               ++ [true])
                                           ++ repeat false (length post))))%nat = true).
        { apply Nat.leb_le. rewrite filter_app, filter_true_repeat_false. cbn [app filter].
          rewrite !filter_app. cbn [filter length]. rewrite !length_app. cbn [length]. lia. }
        rewrite Hcount.
        rewrite set_slice_three; [| now rewrite repeat_length |].
        - cbn [length]. rewrite !length_app, length_map. reflexivity.
        - rewrite repeat_length. cbn [length]. rewrite length_app, length_map.
          cbn [length]. lia. }
      assert (Hmid : length (b1 :: mid ++ [b2]) = S (length mid + 1))
        by (cbn [length]; now rewrite length_app).
      rewrite Hmask, Hfirst, Hlast, Hlen. cbn [fst].
      split; [lia|].
      rewrite Hmid.
      replace (S (length pre + S (length mid)) - length pre)%nat
        with (S (length mid + 1)) by lia.
      replace (length pre + S (length mid + S (length post))
               - S (length pre + S (length mid)))%nat with (length post) by lia.
      reflexivity.
Qed.

(** X2.  [get_ind_good_cigars] flags the blocks from the first to the
    last good one, the blocks between them included, and no other; the
    flagged blocks are the blocks [get_range_good_cigars] measures.
    Without a good block nothing is flagged and both indices are
    [None]. *)
Theorem get_ind_good_cigars_mask (c : Cigar) (match_len_min : Z) :
  (existsb (criterion match_len_min) c = false ->
   get_ind_good_cigars c match_len_min = (repeat false (length c), None, None)) /\
  (existsb (criterion match_len_min) c = true ->
   let first := first_good_cigar match_len_min c in
   let last := last_good_cigar match_len_min c in
   (first <= last < length c)%nat /\
   get_ind_good_cigars c match_len_min
   = (repeat false first ++ repeat true (S last - first)
      ++ repeat false (length c - S last),
      Some first, Some last) /\
   map snd (filter fst (combine (fst (fst (get_ind_good_cigars c match_len_min))) c))
   = good_span match_len_min c).
Proof.
  destruct (get_ind_good_cigars_shape c match_len_min) as [Hnone Hsome].
  split; [exact Hnone|]. intros Hgood. specialize (Hsome Hgood). cbv zeta in *.
  destruct Hsome as [Hb Hm]. split; [exact Hb|]. split; [exact Hm|].
  rewrite Hm. cbn [fst]. unfold good_span.
  set (first := first_good_cigar match_len_min c) in *.
  set (last := last_good_cigar match_len_min c) in *.
  replace (length c - S last)%nat with (length c - (first + (S last - first)))%nat by lia.
  apply select_span. lia.
Qed.

(** ** The trims at the two ends of the good blocks *)

Lemma nonzero_from_repeat_false (n : nat) (l : list bool) :
  forall i, Py.nonzero_from i (repeat false n ++ l) = Py.nonzero_from (i + n) l.
Proof.
  induction n as [|n IH]; intros i; cbn [repeat app Py.nonzero_from].
  - now rewrite Nat.add_0_r.
  - rewrite IH. now rewrite Nat.add_succ_comm.
Qed.

Lemma nonzero_from_repeat_true (n : nat) (l : list bool) :
  forall i, Py.nonzero_from i (repeat true n ++ l)
            = List.seq i n ++ Py.nonzero_from (i + n) l.
Proof.
  induction n as [|n IH]; intros i; cbn [repeat app Py.nonzero_from List.seq].
  - now rewrite Nat.add_0_r.
  - rewrite IH. now rewrite Nat.add_succ_comm.
Qed.

Lemma nonzero_flagged_span (a k b : nat) :
  Py.nonzero (repeat false a ++ repeat true k ++ repeat false b) = List.seq a k.
Proof.
  unfold Py.nonzero. rewrite nonzero_from_repeat_false, nonzero_from_repeat_true.
  rewrite <- (app_nil_r (repeat false b)), nonzero_from_repeat_false.
  cbn [Py.nonzero_from]. apply app_nil_r.
Qed.

Lemma any_flagged_span (a k b : nat) :
  Py.any (repeat false a ++ repeat true (S k) ++ repeat false b) = true.
Proof.
  unfold Py.any. rewrite existsb_app. apply orb_true_iff. right.
  cbn [repeat app existsb]. reflexivity.
Qed.

Lemma any_repeat_false (n : nat) : Py.any (repeat false n) = false.
Proof. induction n as [|n IH]; [reflexivity | exact IH]. Qed.

Lemma last_seq (a k : nat) : last (List.seq a (S k)) 0%nat = (a + k)%nat.
Proof.
  revert a. induction k as [|k IH]; intros a.
  - cbn. lia.
  - change (List.seq a (S (S k))) with (a :: List.seq (S a) (S k)).
    change (last (a :: List.seq (S a) (S k)) 0%nat) with (last (List.seq (S a) (S k)) 0%nat).
    rewrite IH. lia.
Qed.

Section Rows.
Context {A : Type}.
Variable f : nat * A -> A.

Lemma nth_map_index_from (a : list A) (d : A) :
  forall s i, (i < length a)%nat ->
              nth i (map f (combine (List.seq s (length a)) a)) d
              = f ((s + i)%nat, nth i a d).
Proof.
  induction a as [|x a IH]; intros s i Hi; cbn [length] in Hi; [lia|].
  cbn [length List.seq combine map]. destruct i as [|i]; cbn [nth].
  - now rewrite Nat.add_0_r.
  - rewrite IH by lia. now rewrite Nat.add_succ_comm.
Qed.

Lemma length_map_index (a : list A) :
  length (map f (combine (List.seq 0 (length a)) a)) = length a.
Proof. rewrite length_map, length_combine, length_seq. apply Nat.min_id. Qed.

End Rows.

Lemma nth_set_row_left (a : list (Z * Z)) (k i : nat) (v : Z) (d : Z * Z) :
  nth i (set_row_left a k v) d
  = if (i =? k)%nat && (i <? length a)%nat then (v, snd (nth i a d)) else nth i a d.
Proof.
  unfold set_row_left. destruct (Nat.ltb_spec i (length a)) as [Hi|Hi].
  - rewrite nth_map_index_from by exact Hi. cbn [fst snd Nat.add].
    now rewrite andb_true_r.
  - rewrite andb_false_r. rewrite !nth_overflow; [reflexivity|lia|].
    now rewrite length_map_index.
Qed.

Lemma nth_set_row_right (a : list (Z * Z)) (k i : nat) (v : Z) (d : Z * Z) :
  nth i (set_row_right a k v) d
  = if (i =? k)%nat && (i <? length a)%nat then (fst (nth i a d), v) else nth i a d.
Proof.
  unfold set_row_right. destruct (Nat.ltb_spec i (length a)) as [Hi|Hi].
  - rewrite nth_map_index_from by exact Hi. cbn [fst snd Nat.add].
    now rewrite andb_true_r.
  - rewrite andb_false_r. rewrite !nth_overflow; [reflexivity|lia|].
    now rewrite length_map_index.
Qed.

Lemma nth_repeat_zero (n i : nat) : nth i (repeat (0, 0) n) (0, 0) = (0, 0).
Proof.
  destruct (Nat.ltb_spec i n); [now apply nth_repeat_lt|].
  apply nth_overflow. now rewrite repeat_length.
Qed.

(** X3.  Fed the array of [get_ind_good_cigars], the function
    [get_trims_from_good_cigars] gives one row per block, all zero but
    for the left trim in the row of the first good block, unless that is
    the first block of all, and the right trim in the row of the last
    good block, unless that is the last block of all: the two shifts
    [get_range_good_cigars] applies to its ranges. *)
Theorem get_trims_from_good_cigars_rows
        (c : Cigar) (match_len_min trim_left trim_right : Z) (i : nat) :
  let good_cigars := fst (fst (get_ind_good_cigars c match_len_min)) in
  let trims := get_trims_from_good_cigars good_cigars trim_left trim_right in
  let first := first_good_cigar match_len_min c in
  let last := last_good_cigar match_len_min c in
  length trims = length c /\
  nth i trims (0, 0)
  = if existsb (criterion match_len_min) c
    then (if (i =? first)%nat && negb (first =? 0)%nat then trim_left else 0,
          if (i =? last)%nat && negb (last =? length c - 1)%nat then trim_right else 0)
    else (0, 0).
Proof.
  cbv zeta. destruct (get_ind_good_cigars_shape c match_len_min) as [Hnone Hsome].
  destruct (existsb (criterion match_len_min) c) eqn:Hgood.
  - destruct (Hsome eq_refl) as [Hb Hm]. cbv zeta in Hb, Hm. rewrite Hm. cbn [fst].
    set (first := first_good_cigar match_len_min c) in *.
    set (last := last_good_cigar match_len_min c) in *.
    unfold get_trims_from_good_cigars.
    replace (S last - first)%nat with (S (last - first)) by lia.
    rewrite any_flagged_span, nonzero_flagged_span, last_seq.
    cbn [List.seq hd]. rewrite !length_app, !repeat_length.
    replace (first + (last - first))%nat with last by lia.
    replace (first + (S (last - first) + (length c - S last)))%nat with (length c) by lia.
    split.
    + destruct (negb (first =? 0)%nat), (negb (last =? length c - 1)%nat);
        unfold set_row_left, set_row_right;
        rewrite ?length_map_index, ?repeat_length; reflexivity.
    + destruct (Nat.eqb_spec first 0) as [H0|H0],
               (Nat.eqb_spec last (length c - 1)) as [Hl|Hl]; cbn [negb];
        rewrite ?nth_set_row_right, ?nth_set_row_left, ?length_map_index,
                ?repeat_length, ?nth_repeat_zero; unfold set_row_left;
        rewrite ?length_map_index, ?repeat_length;
        destruct (Nat.eqb_spec i first), (Nat.eqb_spec i last),
                 (Nat.ltb_spec i (length c));
        cbn [andb fst snd]; try reflexivity; lia.
  - rewrite (Hnone eq_refl). cbn [fst]. unfold get_trims_from_good_cigars.
    rewrite any_repeat_false, !repeat_length. split; [reflexivity|].
    apply nth_repeat_zero.
Qed.

(** ** The range of the good blocks lies in the read *)

Lemma read_span_app (c1 c2 : Cigar) : read_span (c1 ++ c2) = read_span c1 + read_span c2.
Proof. unfold read_span. now rewrite filter_app, map_app, sum_app. Qed.

Lemma ref_span_app (c1 c2 : Cigar) : ref_span (c1 ++ c2) = ref_span c1 + ref_span c2.
Proof. unfold ref_span. now rewrite filter_app, map_app, sum_app. Qed.

Lemma ref_span_nonneg (c : Cigar) :
  Forall (fun b => 0 <= snd b) c -> 0 <= ref_span c.
Proof.
  induction 1 as [|[bt bl] c Hb Hc IH]; [reflexivity|].
  rewrite ref_span_cons. cbn [snd] in Hb. destruct ((bt =? 0) || (bt =? 2)); lia.
Qed.

(** On the three operations of the data model the walk adds up the two
    spans of the blocks. *)
Lemma walk_blocks_spans (blocks : Cigar) :
  forallb known_op blocks = true ->
  forall p_read p_ref,
    walk_blocks blocks p_read p_ref
    = Returned (p_read + read_span blocks, p_ref + ref_span blocks).
Proof.
  induction blocks as [|[bt bl] rest IH]; intros Hk p_read p_ref; cbn [walk_blocks].
  - change (read_span []) with 0. change (ref_span []) with 0. now rewrite !Z.add_0_r.
  - cbn [forallb] in Hk. apply andb_prop in Hk as [Hb Hk].
    unfold known_op in Hb. cbn [fst] in Hb.
    rewrite read_span_cons, ref_span_cons.
    destruct (Z.eqb_spec bt 0) as [->|H0]; cbn [Z.eqb Pos.eqb orb].
    + rewrite (IH Hk). apply returned_pair_eq; lia.
    + destruct (Z.eqb_spec bt 1) as [->|H1]; cbn [Z.eqb Pos.eqb orb].
      * rewrite (IH Hk). apply returned_pair_eq; lia.
      * destruct (Z.eqb_spec bt 2) as [->|H2]; [|discriminate]. cbn [Z.eqb Pos.eqb orb].
        rewrite (IH Hk). apply returned_pair_eq; lia.
Qed.

Lemma firstn_length_app {A} (l1 l2 : list A) : firstn (length l1) (l1 ++ l2) = l1.
Proof. induction l1 as [|x l1 IH]; cbn [length firstn app]; [now destruct l2 | now rewrite IH]. Qed.

Lemma criterion_match (match_len_min : Z) (b : Z * Z) :
  criterion match_len_min b = true -> exists bl, b = (0, bl) /\ match_len_min <= bl.
Proof.
  destruct b as [bt bl]. unfold criterion. cbn [fst snd]. intros H.
  apply andb_prop in H as [Hbt Hbl]. apply Z.eqb_eq in Hbt. apply Z.leb_le in Hbl.
  subst bt. now exists bl.
Qed.

(** X4.  For a CIGAR of matches, insertions and deletions of no negative
    length that has a good block, and trims that together are shorter
    than [match_len_min] (the condition the code's comment asks for),
    [get_range_good_cigars] returns two ranges that are not empty and
    lie within the read and within the stretch of the reference the
    read is aligned to. *)
Theorem get_range_good_cigars_within
        (c : Cigar) (pos0 match_len_min trim_left trim_right : Z) :
  forallb known_op c = true ->
  Forall (fun b => 0 <= snd b) c ->
  existsb (criterion match_len_min) c = true ->
  0 <= trim_left -> 0 <= trim_right -> trim_left + trim_right < match_len_min ->
  exists start_read end_read start_ref end_ref,
    get_range_good_cigars c pos0 match_len_min trim_left trim_right
    = Returned (Some ((start_read, end_read), (start_ref, end_ref))) /\
    0 <= start_read /\ start_read < end_read /\ end_read <= read_span c /\
    pos0 <= start_ref /\ start_ref < end_ref /\ end_ref <= pos0 + ref_span c /\
    match_len_min - trim_left - trim_right <= end_read - start_read.
Proof.
  intros Hk Hnn Hgood Hl Hr Hlr. unfold get_range_good_cigars.
  rewrite any_map, Hgood. cbn [negb].
  destruct (good_items_split _ _ Hgood)
    as [(pre & b & post & -> & Hpre & Hb & Hpost)
       |(pre & b1 & mid & b2 & post & -> & Hpre & Hb1 & Hb2 & Hpost)].
  - rewrite (first_good_cigar_split _ _ _ _ Hpre Hb),
      (last_good_cigar_split _ _ _ _ Hpost Hb), (good_span_one _ _ _ _ Hpre Hb Hpost).
    rewrite firstn_length_app.
    destruct (criterion_match _ _ Hb) as (bl & -> & Hbl).
    rewrite forallb_app in Hk. apply andb_prop in Hk as [Hkpre Hk].
    apply Forall_app in Hnn as [Hnpre Hnn]. apply Forall_cons_iff in Hnn as [_ Hnpost].
    rewrite (walk_blocks_spans pre Hkpre). cbn [Py.bind walk_blocks Z.eqb].
    rewrite read_span_app, ref_span_app, read_span_cons, ref_span_cons. cbn [Z.eqb orb].
    pose proof (read_span_nonneg pre Hnpre). pose proof (ref_span_nonneg pre Hnpre).
    pose proof (read_span_nonneg post Hnpost). pose proof (ref_span_nonneg post Hnpost).
    repeat match goal with
           | |- context [negb (Nat.eqb ?a ?b)] => destruct (negb (Nat.eqb a b))
           end;
      eexists _, _, _, _; (split; [reflexivity|]); lia.
  - replace (pre ++ b1 :: mid ++ b2 :: post) with ((pre ++ b1 :: mid) ++ b2 :: post)
      by (rewrite <- app_assoc; reflexivity).
    rewrite (last_good_cigar_split _ _ _ _ Hpost Hb2).
    replace ((pre ++ b1 :: mid) ++ b2 :: post) with (pre ++ b1 :: mid ++ b2 :: post)
      by (rewrite <- app_assoc; reflexivity).
    rewrite (first_good_cigar_split _ _ _ _ Hpre Hb1),
      (good_span_two _ _ _ _ _ _ Hpre Hb1 Hb2 Hpost).
    rewrite firstn_length_app.
    destruct (criterion_match _ _ Hb1) as (bl1 & -> & Hbl1).
    destruct (criterion_match _ _ Hb2) as (bl2 & -> & Hbl2).
    rewrite forallb_app in Hk. apply andb_prop in Hk as [Hkpre Hk].
    cbn [forallb] in Hk. apply andb_prop in Hk as [_ Hk].
    rewrite forallb_app in Hk. apply andb_prop in Hk as [Hkmid _].
    apply Forall_app in Hnn as [Hnpre Hnn]. apply Forall_cons_iff in Hnn as [_ Hnn].
    apply Forall_app in Hnn as [Hnmid Hnn]. apply Forall_cons_iff in Hnn as [_ Hnpost].
    rewrite (walk_blocks_spans pre Hkpre). cbn [Py.bind walk_blocks Z.eqb].
    assert (Hkspan : forallb known_op (mid ++ [(0, bl2)]) = true)
      by (rewrite forallb_app, Hkmid; reflexivity).
    rewrite (walk_blocks_spans _ Hkspan). cbn [Py.bind].
    rewrite !read_span_app, !ref_span_app, !read_span_cons, !ref_span_cons.
    rewrite !read_span_app, !ref_span_app, !read_span_cons, !ref_span_cons.
    cbn [Z.eqb orb]. change (read_span []) with 0. change (ref_span []) with 0.
    pose proof (read_span_nonneg pre Hnpre). pose proof (ref_span_nonneg pre Hnpre).
    pose proof (read_span_nonneg mid Hnmid). pose proof (ref_span_nonneg mid Hnmid).
    pose proof (read_span_nonneg post Hnpost). pose proof (ref_span_nonneg post Hnpost).
    repeat match goal with
           | |- context [negb (Nat.eqb ?a ?b)] => destruct (negb (Nat.eqb a b))
           end;
      eexists _, _, _, _; (split; [reflexivity|]); lia.
Qed.

Lemma get_range_good_cigars_within_witness :
  exists start_read end_read start_ref end_ref,
    get_range_good_cigars [(1, 4); (0, 30); (2, 3); (0, 25); (1, 2)] 100 20 3 3
    = Returned (Some ((start_read, end_read), (start_ref, end_ref))) /\
    0 <= start_read /\ start_read < end_read /\
    end_read <= read_span [(1, 4); (0, 30); (2, 3); (0, 25); (1, 2)] /\
    100 <= start_ref /\ start_ref < end_ref /\
    end_ref <= 100 + ref_span [(1, 4); (0, 30); (2, 3); (0, 25); (1, 2)] /\
    20 - 3 - 3 <= end_read - start_read.
Proof.
  apply (get_range_good_cigars_within [(1, 4); (0, 30); (2, 3); (0, 25); (1, 2)] 100 20 3 3);
    try reflexivity; try lia.
  repeat constructor; cbn; lia.
Defined.

(** ** What the short-CIGAR trimmer leaves of a read *)

Lemma trim_left_walk_split (match_len_min trim_pad : Z) (c : Cigar) :
  forallb known_op c = true ->
  forall pos_ref pos_read cigar_new pos_ref' pos_read',
    trim_left_walk match_len_min trim_pad c pos_ref pos_read
    = Some (cigar_new, pos_ref', pos_read') ->
    exists dropped bl rest,
      c = dropped ++ (0, bl) :: rest /\ match_len_min <= bl /\
      cigar_new = (0, bl - trim_pad) :: rest /\
      pos_ref' = pos_ref + ref_span dropped + trim_pad /\
      pos_read' = pos_read + read_span dropped + trim_pad.
Proof.
  induction c as [|[bt bl] rest IH]; intros Hk pos_ref pos_read cigar_new pos_ref' pos_read';
    cbn [trim_left_walk]; [discriminate|].
  cbn [forallb] in Hk. apply andb_prop in Hk as [Hb Hk].
  unfold known_op in Hb. cbn [fst] in Hb.
  assert (Hskip : forall p q,
             trim_left_walk match_len_min trim_pad rest p q
             = Some (cigar_new, pos_ref', pos_read') ->
             p = pos_ref + (if (bt =? 0) || (bt =? 2) then bl else 0) ->
             q = pos_read + (if (bt =? 0) || (bt =? 1) then bl else 0) ->
             exists dropped bl0 rest0,
               (bt, bl) :: rest = dropped ++ (0, bl0) :: rest0 /\ match_len_min <= bl0 /\
               cigar_new = (0, bl0 - trim_pad) :: rest0 /\
               pos_ref' = pos_ref + ref_span dropped + trim_pad /\
               pos_read' = pos_read + read_span dropped + trim_pad).
  { intros p q H Hp Hq.
    destruct (IH Hk _ _ _ _ _ H) as (dropped & bl0 & rest0 & -> & Hbl0 & -> & -> & ->).
    exists ((bt, bl) :: dropped), bl0, rest0.
    rewrite ref_span_cons, read_span_cons. repeat split; [exact Hbl0|lia|lia]. }
  destruct (Z.eqb_spec bt 2) as [->|H2].
  - intros H. apply (Hskip _ _ H); cbn [Z.eqb Pos.eqb orb]; lia.
  - destruct (Z.eqb_spec bt 1) as [->|H1].
    + intros H. apply (Hskip _ _ H); cbn [Z.eqb Pos.eqb orb]; lia.
    + destruct (Z.eqb_spec bt 0) as [->|H0]; [|discriminate].
      destruct (Z.ltb_spec bl match_len_min) as [Hshort|Hlong].
      * intros H. apply (Hskip _ _ H); cbn [Z.eqb orb]; lia.
      * intros [= <- <- <-]. exists [], bl, rest.
        change (ref_span []) with 0. change (read_span []) with 0.
        repeat split; [exact Hlong|lia|lia].
Qed.

Lemma trim_right_walk_split (match_len_min trim_pad : Z) (rc : Cigar) :
  forallb known_op rc = true ->
  forall pos_read cigar_new pos_read',
    trim_right_walk match_len_min trim_pad rc pos_read = Some (cigar_new, pos_read') ->
    exists dropped bl rest,
      rc = dropped ++ (0, bl) :: rest /\ match_len_min <= bl /\
      cigar_new = rev rest ++ [(0, bl - trim_pad)] /\
      pos_read' = pos_read - read_span dropped - trim_pad.
Proof.
  induction rc as [|[bt bl] rest IH]; intros Hk pos_read cigar_new pos_read';
    cbn [trim_right_walk]; [discriminate|].
  cbn [forallb] in Hk. apply andb_prop in Hk as [Hb Hk].
  unfold known_op in Hb. cbn [fst] in Hb.
  assert (Hskip : forall q,
             trim_right_walk match_len_min trim_pad rest q = Some (cigar_new, pos_read') ->
             q = pos_read - (if (bt =? 0) || (bt =? 1) then bl else 0) ->
             exists dropped bl0 rest0,
               (bt, bl) :: rest = dropped ++ (0, bl0) :: rest0 /\ match_len_min <= bl0 /\
               cigar_new = rev rest0 ++ [(0, bl0 - trim_pad)] /\
               pos_read' = pos_read - read_span dropped - trim_pad).
  { intros q H Hq.
    destruct (IH Hk _ _ _ H) as (dropped & bl0 & rest0 & -> & Hbl0 & -> & ->).
    exists ((bt, bl) :: dropped), bl0, rest0.
    rewrite read_span_cons. repeat split; [exact Hbl0|lia]. }
  destruct (Z.eqb_spec bt 2) as [->|H2].
  - intros H. apply (Hskip _ H); cbn [Z.eqb Pos.eqb orb]; lia.
  - destruct (Z.eqb_spec bt 1) as [->|H1].
    + intros H. apply (Hskip _ H); cbn [Z.eqb Pos.eqb orb]; lia.
    + destruct (Z.eqb_spec bt 0) as [->|H0]; [|discriminate].
      destruct (Z.ltb_spec bl match_len_min) as [Hshort|Hlong].
      * intros H. apply (Hskip _ H); cbn [Z.eqb orb]; lia.
      * intros [= <- <-]. exists [], bl, rest. change (read_span []) with 0.
        repeat split; [exact Hlong|lia].
Qed.

Lemma forallb_rev {A} (f : A -> bool) (l : list A) : forallb f (rev l) = forallb f l.
Proof.
  induction l as [|x l IH]; [reflexivity|].
  cbn [rev forallb]. rewrite forallb_app, IH. cbn [forallb].
  rewrite andb_true_r. apply andb_comm.
Qed.

(** The left edge of a well-formed read: the read stays well formed, its
    start does not move to the left, its end does not move, and it
    begins with a match of at least [match_len_min - trim_pad]. *)
Lemma trim_left_edge_trimmed (read read1 : AlignedRead) (match_len_min trim_pad : Z) :
  0 <= trim_pad <= match_len_min ->
  well_formed read ->
  trim_left_edge read match_len_min trim_pad = Returned (Trimmed read1) ->
  well_formed read1 /\
  pos read <= pos read1 /\
  pos read1 + ref_span (cigar read1) = pos read + ref_span (cigar read) /\
  match_len_min - trim_pad <= ref_span (cigar read1).
Proof.
  intros Hpad (Hk & Hnn & Hspan & Hqual). unfold trim_left_edge.
  destruct (cigar read) as [|c0 rest] eqn:Hc; [discriminate|].
  rewrite edge_block_short_criterion.
  destruct (criterion match_len_min c0) eqn:Hc0; cbn [negb].
  - intros [= <-]. rewrite Hc. split; [unfold well_formed; now rewrite Hc|].
    destruct (criterion_match _ _ Hc0) as (bl & -> & Hbl).
    apply Forall_cons_iff in Hnn as [_ Hnn]. pose proof (ref_span_nonneg rest Hnn).
    rewrite ref_span_cons. cbn [Z.eqb orb]. lia.
  - destruct (trim_left_walk match_len_min trim_pad (c0 :: rest) (pos read) 0)
      as [[[cigar_new pos_ref] pos_read]|] eqn:Hw; [|discriminate].
    intros [= <-].
    destruct (trim_left_walk_split _ _ _ Hk _ _ _ _ _ Hw)
      as (dropped & bl & rest0 & Hsplit & Hbl & -> & -> & ->).
    rewrite Hsplit in Hk, Hnn, Hspan.
    rewrite forallb_app in Hk. apply andb_prop in Hk as [_ Hk].
    cbn [forallb] in Hk. apply andb_prop in Hk as [_ Hk].
    apply Forall_app in Hnn as [Hnd Hnn]. apply Forall_cons_iff in Hnn as [_ Hnr].
    rewrite read_span_app, read_span_cons in Hspan. cbn [Z.eqb orb] in Hspan.
    pose proof (read_span_nonneg dropped Hnd). pose proof (ref_span_nonneg dropped Hnd).
    pose proof (read_span_nonneg rest0 Hnr). pose proof (ref_span_nonneg rest0 Hnr).
    unfold well_formed, rlen in *.
    cbn [cigar seq qual pos set_pos set_cigar set_qual set_seq].
    rewrite Hsplit, ref_span_app, !ref_span_cons, read_span_cons. cbn [Z.eqb orb].
    rewrite !slice_suffix by lia. rewrite !length_skipn, Hqual.
    repeat split; try lia.
    + exact Hk.
    + constructor; [cbn [snd]; lia | exact Hnr].
Qed.

(** The right edge: the read stays well formed, its start does not move,
    its end does not move to the right, and it ends with a match of at
    least [match_len_min - trim_pad]. *)
Lemma trim_right_edge_trimmed (read read2 : AlignedRead) (match_len_min trim_pad : Z) :
  0 <= trim_pad <= match_len_min ->
  well_formed read ->
  trim_right_edge read match_len_min trim_pad = Returned (Trimmed read2) ->
  well_formed read2 /\
  pos read2 = pos read /\
  ref_span (cigar read2) <= ref_span (cigar read) /\
  match_len_min - trim_pad <= ref_span (cigar read2).
Proof.
  intros Hpad (Hk & Hnn & Hspan & Hqual). unfold trim_right_edge.
  rewrite <- forallb_rev in Hk. apply Forall_rev in Hnn.
  rewrite <- read_span_rev in Hspan. rewrite <- (ref_span_rev (cigar read)).
  destruct (rev (cigar read)) as [|cl rest] eqn:Hc; [discriminate|].
  rewrite edge_block_short_criterion.
  destruct (criterion match_len_min cl) eqn:Hcl; cbn [negb].
  - intros [= <-]. split; [|split; [reflexivity|]].
    + unfold well_formed. rewrite <- forallb_rev, <- read_span_rev, Hc.
      repeat split; try assumption.
      rewrite <- (rev_involutive (cigar read)), Hc. now apply Forall_rev.
    + rewrite <- (ref_span_rev (cigar read)), Hc.
      destruct (criterion_match _ _ Hcl) as (bl & -> & Hbl).
      apply Forall_cons_iff in Hnn as [_ Hnn]. pose proof (ref_span_nonneg rest Hnn).
      rewrite ref_span_cons. cbn [Z.eqb orb]. lia.
  - destruct (trim_right_walk match_len_min trim_pad (cl :: rest)
                (Z.of_nat (length (seq read)))) as [[cigar_new pos_read]|] eqn:Hw;
      [|discriminate].
    intros [= <-].
    destruct (trim_right_walk_split _ _ _ Hk _ _ _ Hw)
      as (dropped & bl & rest0 & Hsplit & Hbl & -> & ->).
    rewrite Hsplit in Hk, Hnn, Hspan.
    rewrite forallb_app in Hk. apply andb_prop in Hk as [_ Hk].
    cbn [forallb] in Hk. apply andb_prop in Hk as [_ Hk].
    apply Forall_app in Hnn as [Hnd Hnn]. apply Forall_cons_iff in Hnn as [_ Hnr].
    rewrite read_span_app, read_span_cons in Hspan. cbn [Z.eqb orb] in Hspan.
    pose proof (read_span_nonneg dropped Hnd). pose proof (ref_span_nonneg dropped Hnd).
    pose proof (read_span_nonneg rest0 Hnr). pose proof (ref_span_nonneg rest0 Hnr).
    unfold well_formed, rlen in *.
    cbn [cigar seq qual pos set_pos set_cigar set_qual set_seq].
    rewrite Hsplit, ref_span_app, !ref_span_app, !ref_span_cons, read_span_app,
      read_span_cons, read_span_rev, ref_span_rev.
    cbn [Z.eqb orb]. change (ref_span []) with 0. change (read_span []) with 0.
    rewrite !slice_prefix by lia. rewrite !length_firstn, Hqual.
    repeat split; try lia.
    + rewrite forallb_app, forallb_rev, Hk. reflexivity.
    + apply Forall_app. split; [now apply Forall_rev|].
      constructor; [cbn [snd]; lia | constructor].
Qed.

(** Whatever the outcome, the read [trim_short_cigars] leaves is the read
    it was given or a well-formed part of it. *)
Lemma trim_short_cigars_trimmed (read : AlignedRead) (match_len_min trim_pad : Z)
      (throw : bool) :
  0 <= trim_pad <= match_len_min ->
  well_formed read ->
  let read' := fst (trim_short_cigars read match_len_min trim_pad throw) in
  well_formed read' /\
  pos read <= pos read' /\
  pos read' + ref_span (cigar read') <= pos read + ref_span (cigar read) /\
  (read' = read \/ match_len_min - trim_pad <= ref_span (cigar read')).
Proof.
  intros Hpad Hwf. cbv zeta. unfold trim_short_cigars.
  destruct (trim_left_edge read match_len_min trim_pad) as [[read1|]|e] eqn:Hleft;
    cbn [fst]; try (split; [assumption|]; split; [lia|]; split; [lia|]; now left).
  destruct (trim_left_edge_trimmed _ _ _ _ Hpad Hwf Hleft) as (Hwf1 & Hp1 & He1 & Hs1).
  destruct (trim_right_edge read1 match_len_min trim_pad) as [[read2|]|e] eqn:Hright;
    cbn [fst]; try (split; [assumption|]; split; [lia|]; split; [lia|]; now right).
  destruct (trim_right_edge_trimmed _ _ _ _ Hpad Hwf1 Hright) as (Hwf2 & Hp2 & He2 & Hs2).
  split; [assumption|]. split; [lia|]. split; [lia|]. now right.
Qed.

(** X5.  [trim_short_cigars] keeps a read well formed, whatever its
    outcome: the CIGAR it leaves has matches, insertions and deletions
    of no negative length and accounts for every base left, with one
    quality per base.  The pad must not exceed [match_len_min]. *)
Theorem trim_short_cigars_keeps_well_formed
        (read : AlignedRead) (match_len_min trim_pad : Z) (throw : bool) :
  0 <= trim_pad <= match_len_min ->
  well_formed read ->
  well_formed (fst (trim_short_cigars read match_len_min trim_pad throw)).
Proof.
  intros Hpad Hwf.
  exact (proj1 (trim_short_cigars_trimmed read match_len_min trim_pad throw Hpad Hwf)).
Qed.

Lemma read_ragged_well_formed : well_formed read_ragged.
Proof.
  unfold well_formed. repeat split; try reflexivity.
  repeat constructor; cbn; lia.
Defined.

Lemma trim_short_cigars_keeps_well_formed_witness :
  well_formed (fst (trim_short_cigars read_ragged 20 3 true)).
Proof.
  apply (trim_short_cigars_keeps_well_formed read_ragged 20 3 true);
    [lia | exact read_ragged_well_formed].
Defined.

(** X6.  [trim_short_cigars] never widens the stretch of the reference a
    well-formed read is aligned to: the start reported by
    [get_read_start_end] does not decrease and the end does not
    increase; and a read the function has changed still covers at least
    [match_len_min - trim_pad] reference positions. *)
Theorem trim_short_cigars_within_alignment
        (read : AlignedRead) (match_len_min trim_pad : Z) (throw : bool) :
  0 <= trim_pad <= match_len_min ->
  well_formed read ->
  let read' := fst (trim_short_cigars read match_len_min trim_pad throw) in
  fst (get_read_start_end read) <= fst (get_read_start_end read') /\
  snd (get_read_start_end read') <= snd (get_read_start_end read) /\
  (read' = read \/
   match_len_min - trim_pad
   <= snd (get_read_start_end read') - fst (get_read_start_end read')).
Proof.
  intros Hpad Hwf. cbv zeta.
  destruct (trim_short_cigars_trimmed read match_len_min trim_pad throw Hpad Hwf)
    as (_ & Hs & He & Hc).
  unfold get_read_start_end. cbn [fst snd].
  split; [exact Hs|]. split; [exact He|].
  destruct Hc as [Hc|Hc]; [now left | right; lia].
Qed.

Lemma trim_short_cigars_within_alignment_witness :
  let read' := fst (trim_short_cigars read_ragged 20 3 true) in
  fst (get_read_start_end read_ragged) <= fst (get_read_start_end read') /\
  snd (get_read_start_end read') <= snd (get_read_start_end read_ragged) /\
  (read' = read_ragged \/
   20 - 3 <= snd (get_read_start_end read') - fst (get_read_start_end read')).
Proof.
  apply (trim_short_cigars_within_alignment read_ragged 20 3 true);
    [lia | exact read_ragged_well_formed].
Defined.

Lemma fix_read_pair_alignment (reads : ReadPair) :
  pos (fst (fix_read_pair reads)) = pos (fst reads) /\
  cigar (fst (fix_read_pair reads)) = cigar (fst reads) /\
  pos (snd (fix_read_pair reads)) = pos (snd reads) /\
  cigar (snd (fix_read_pair reads)) = cigar (snd reads).
Proof.
  destruct reads as [a b]. unfold fix_read_pair. cbn [fst snd].
  destruct (is_reverse a); repeat split.
Qed.

(** X7.  A pair of well-formed reads that lies within a reference of
    length [length0] still does after [trim_short_cigars_pair], whether
    the call returns or raises, for a pad shorter than [match_len_min]:
    [test_read_pair_exceed_reference] stays [False]. *)
Theorem trim_short_cigars_pair_within_reference
        (reads : ReadPair) (match_len_min trim_pad length0 : Z) (throw : bool) :
  0 <= trim_pad < match_len_min ->
  well_formed (fst reads) -> well_formed (snd reads) ->
  test_read_pair_exceed_reference reads length0 = false ->
  test_read_pair_exceed_reference
    (fst (trim_short_cigars_pair reads match_len_min trim_pad throw)) length0 = false.
Proof.
  intros Hpad Hwf0 Hwf1.
  assert (Hpad' : 0 <= trim_pad <= match_len_min) by lia.
  pose proof (trim_short_cigars_trimmed (fst reads) match_len_min trim_pad throw Hpad' Hwf0)
    as (_ & Hs0 & He0 & Hc0).
  pose proof (trim_short_cigars_trimmed (snd reads) match_len_min trim_pad throw Hpad' Hwf1)
    as (_ & Hs1 & He1 & Hc1).
  assert (Hkeep : forall read read' : AlignedRead,
             pos read <= pos read' ->
             pos read' + ref_span (cigar read') <= pos read + ref_span (cigar read) ->
             read' = read \/ match_len_min - trim_pad <= ref_span (cigar read') ->
             (length0 <? pos read + ref_span (cigar read)) || (length0 <=? pos read) = false ->
             (length0 <? pos read' + ref_span (cigar read')) || (length0 <=? pos read')
             = false).
  { intros read read' Hs He Hc H. apply orb_false_elim in H as [H1 H2].
    apply Z.ltb_ge in H1. apply Z.leb_gt in H2.
    destruct Hc as [->|Hc]; apply orb_false_intro;
      try (apply Z.ltb_ge; lia); apply Z.leb_gt; lia. }
  unfold test_read_pair_exceed_reference, get_read_start_end.
  destruct ((length0 <? pos (fst reads) + ref_span (cigar (fst reads)))
            || (length0 <=? pos (fst reads))) eqn:Hx0; [discriminate|].
  destruct ((length0 <? pos (snd reads) + ref_span (cigar (snd reads)))
            || (length0 <=? pos (snd reads))) eqn:Hx1; [discriminate|].
  intros _. pose proof Hx1 as Hy1.
  apply (Hkeep _ _ Hs0 He0 Hc0) in Hx0. apply (Hkeep _ _ Hs1 He1 Hc1) in Hx1.
  unfold trim_short_cigars_pair.
  destruct (trim_short_cigars (fst reads) match_len_min trim_pad throw) as [read0 o0].
  destruct (trim_short_cigars (snd reads) match_len_min trim_pad throw) as [read1 o1].
  cbn [fst snd] in *.
  destruct o0 as [r0|e0].
  - destruct o1 as [r1|e1]; cbn [fst snd].
    + destruct (fix_read_pair_alignment (read0, read1)) as (-> & -> & -> & ->).
      cbn [fst snd]. now rewrite Hx0, Hx1.
    + now rewrite Hx0, Hx1.
  - cbn [fst snd]. now rewrite Hx0, Hy1.
Qed.

Lemma reads_ragged_well_formed : well_formed (fst reads_ragged) /\ well_formed (snd reads_ragged).
Proof.
  split; unfold well_formed; repeat split; try reflexivity;
    repeat constructor; cbn; lia.
Defined.

Lemma trim_short_cigars_pair_within_reference_witness :
  test_read_pair_exceed_reference reads_ragged 1000 = false /\
  test_read_pair_exceed_reference
    (fst (trim_short_cigars_pair reads_ragged 20 3 true)) 1000 = false.
Proof.
  split; [reflexivity|].
  apply (trim_short_cigars_pair_within_reference reads_ragged 20 3 1000 true);
    [lia | exact (proj1 reads_ragged_well_formed)
     | exact (proj2 reads_ragged_well_formed) | reflexivity].
Defined.

Lemma trim_left_walk_head (match_len_min trim_pad : Z) (c : Cigar) :
  forall pos_ref pos_read cigar_new pos_ref' pos_read',
    trim_left_walk match_len_min trim_pad c pos_ref pos_read
    = Some (cigar_new, pos_ref', pos_read') ->
    exists bl rest, cigar_new = (0, bl - trim_pad) :: rest /\ match_len_min <= bl.
Proof.
  induction c as [|[bt bl] rest IH]; intros pos_ref pos_read cigar_new pos_ref' pos_read';
    cbn [trim_left_walk]; [discriminate|].
  destruct (bt =? 2); [apply IH|].
  destruct (bt =? 1); [apply IH|].
  destruct (Z.ltb_spec bl match_len_min); [apply IH|].
  intros [= <- _ _]. now exists bl, rest.
Qed.

Lemma hd_rev_app {A} (l l2 : list A) (d : A) : l <> [] -> hd d (rev l ++ l2) = last l d.
Proof.
  intros Hne. destruct (exists_last Hne) as (l' & x & ->).
  rewrite rev_app_distr, last_last. reflexivity.
Qed.

Lemma last_rev {A} (l : list A) (d : A) : last (rev l) d = hd d l.
Proof.
  destruct l as [|x l]; [reflexivity|]. cbn [rev hd]. apply last_last.
Qed.

Lemma criterion_weaken (m m' : Z) (b : Z * Z) :
  m' <= m -> criterion m b = true -> criterion m' b = true.
Proof.
  unfold criterion. intros Hm H. apply andb_prop in H as [-> H]. apply Z.leb_le in H.
  cbn [andb]. apply Z.leb_le. lia.
Qed.

(** The right walk leaves a CIGAR that ends with a match of at least
    [match_len_min - trim_pad]; it begins with one if the CIGAR it
    walked did. *)
Lemma trim_right_walk_edges (match_len_min trim_pad : Z) (rc : Cigar) :
  forall pos_read cigar_new pos_read',
    criterion (match_len_min - trim_pad) (last rc (1, 0)) = true ->
    trim_right_walk match_len_min trim_pad rc pos_read = Some (cigar_new, pos_read') ->
    criterion (match_len_min - trim_pad) (hd (1, 0) cigar_new) = true /\
    criterion (match_len_min - trim_pad) (last cigar_new (1, 0)) = true.
Proof.
  induction rc as [|[bt bl] rest IH]; intros pos_read cigar_new pos_read' Hlast;
    cbn [trim_right_walk]; [discriminate|].
  assert (Hskip : forall q,
             trim_right_walk match_len_min trim_pad rest q = Some (cigar_new, pos_read') ->
             criterion (match_len_min - trim_pad) (hd (1, 0) cigar_new) = true /\
             criterion (match_len_min - trim_pad) (last cigar_new (1, 0)) = true).
  { intros q H. destruct rest as [|b rest]; [discriminate|].
    apply (IH q _ _ Hlast H). }
  destruct (bt =? 2); [apply Hskip|].
  destruct (bt =? 1); [apply Hskip|].
  destruct (Z.ltb_spec bl match_len_min) as [Hshort|Hlong]; [apply Hskip|].
  intros [= <- _]. rewrite last_last.
  assert (Hb : criterion (match_len_min - trim_pad) (0, bl - trim_pad) = true).
  { unfold criterion. cbn [fst snd Z.eqb andb]. apply Z.leb_le. lia. }
  split; [|exact Hb].
  destruct rest as [|b rest]; [exact Hb|].
  rewrite hd_rev_app by discriminate. exact Hlast.
Qed.

(** X8.  When [trim_short_cigars] succeeds (it returns [None] with
    [throw] set and [False] without), the CIGAR it leaves begins and
    ends with a match of length at least [match_len_min - trim_pad]. *)
Theorem trim_short_cigars_success_edges
        (read : AlignedRead) (match_len_min trim_pad : Z) (throw : bool) :
  0 <= trim_pad ->
  snd (trim_short_cigars read match_len_min trim_pad throw)
  = Returned (if throw then None else Some false) ->
  let cigar' := cigar (fst (trim_short_cigars read match_len_min trim_pad throw)) in
  criterion (match_len_min - trim_pad) (hd (1, 0) cigar') = true /\
  criterion (match_len_min - trim_pad) (last cigar' (1, 0)) = true.
Proof.
  intros Hpad. cbv zeta. unfold trim_short_cigars.
  destruct (trim_left_edge read match_len_min trim_pad) as [[read1|]|e] eqn:Hleft;
    cbn [fst snd]; [|destruct throw; discriminate|discriminate].
  assert (Hhead : criterion (match_len_min - trim_pad) (hd (1, 0) (cigar read1)) = true).
  { unfold trim_left_edge in Hleft.
    destruct (cigar read) as [|c0 rest] eqn:Hc; [discriminate|].
    rewrite edge_block_short_criterion in Hleft.
    destruct (criterion match_len_min c0) eqn:Hc0; cbn [negb] in Hleft.
    - injection Hleft as <-. rewrite Hc. cbn [hd].
      apply (criterion_weaken match_len_min); [lia | exact Hc0].
    - destruct (trim_left_walk match_len_min trim_pad (c0 :: rest) (pos read) 0)
        as [[[cigar_new pos_ref] pos_read]|] eqn:Hw; [|discriminate].
      injection Hleft as <-. cbn [cigar set_pos set_cigar].
      destruct (trim_left_walk_head _ _ _ _ _ _ _ _ Hw) as (bl & rest0 & -> & Hbl).
      unfold criterion. cbn [hd fst snd Z.eqb andb]. apply Z.leb_le. lia. }
  destruct (trim_right_edge read1 match_len_min trim_pad) as [[read2|]|e] eqn:Hright;
    cbn [fst snd]; [|destruct throw; discriminate|discriminate].
  intros _. unfold trim_right_edge in Hright.
  destruct (rev (cigar read1)) as [|cl rest] eqn:Hc; [discriminate|].
  rewrite edge_block_short_criterion in Hright.
  destruct (criterion match_len_min cl) eqn:Hcl; cbn [negb] in Hright.
  - injection Hright as <-. split; [exact Hhead|].
    rewrite <- (rev_involutive (cigar read1)), Hc, last_rev. cbn [hd].
    apply (criterion_weaken match_len_min); [lia | exact Hcl].
  - destruct (trim_right_walk match_len_min trim_pad (cl :: rest)
                (Z.of_nat (length (seq read1)))) as [[cigar_new pos_read]|] eqn:Hw;
      [|discriminate].
    injection Hright as <-. cbn [cigar set_cigar].
    apply (trim_right_walk_edges _ _ _ _ _ _) with (2 := Hw).
    rewrite <- Hc, last_rev. exact Hhead.
Qed.

Lemma trim_short_cigars_success_edges_witness :
  let cigar' := cigar (fst (trim_short_cigars read_ragged 20 3 true)) in
  criterion (20 - 3) (hd (1, 0) cigar') = true /\
  criterion (20 - 3) (last cigar' (1, 0)) = true.
Proof.
  apply (trim_short_cigars_success_edges read_ragged 20 3 true); [lia | reflexivity].
Defined.

(** ** What cross-overhang trimming leaves of a pair *)

Lemma crossoverhang_fwd_walk_ref (end_rev trim : Z) (c : Cigar) :
  forall ref_pos read_pos c' read_pos',
    crossoverhang_fwd_walk c end_rev trim ref_pos read_pos = Returned (c', read_pos') ->
    ref_pos + ref_span c' <= Z.max ref_pos (end_rev - trim).
Proof.
  induction c as [|[bt bl] rest IH]; intros ref_pos read_pos c' read_pos';
    cbn [crossoverhang_fwd_walk].
  - intros [= <- <-]. change (ref_span []) with 0. lia.
  - destruct (Z.eqb_spec bt 0) as [->|H0].
    + destruct (Z.leb_spec (end_rev - trim) (ref_pos + bl)) as [Hstop|Hgo].
      * intros [= <- <-]. rewrite ref_span_cons. cbn [Z.eqb orb].
        change (ref_span []) with 0. lia.
      * destruct (crossoverhang_fwd_walk rest end_rev trim (ref_pos + bl) (read_pos + bl))
          as [[c'' q'']|e] eqn:Hrec; cbn [Py.bind]; [|discriminate].
        intros [= <- <-]. rewrite ref_span_cons. cbn [Z.eqb orb].
        apply IH in Hrec. lia.
    + destruct (Z.eqb_spec bt 1) as [->|H1].
      * destruct (crossoverhang_fwd_walk rest end_rev trim ref_pos (read_pos + bl))
          as [[c'' q'']|e] eqn:Hrec; cbn [Py.bind]; [|discriminate].
        intros [= <- <-]. rewrite ref_span_cons. cbn [Z.eqb Pos.eqb orb].
        apply IH in Hrec. lia.
      * destruct (Z.eqb_spec bt 2) as [->|H2]; [|discriminate].
        destruct (Z.leb_spec (end_rev - trim) (ref_pos + bl)) as [Hstop|Hgo].
        -- intros [= <- <-]. change (ref_span []) with 0. lia.
        -- destruct (crossoverhang_fwd_walk rest end_rev trim (ref_pos + bl) read_pos)
             as [[c'' q'']|e] eqn:Hrec; cbn [Py.bind]; [|discriminate].
           intros [= <- <-]. rewrite ref_span_cons. cbn [Z.eqb Pos.eqb orb].
           apply IH in Hrec. lia.
Qed.

Lemma crossoverhang_rev_walk_ref (start_fwd trim : Z) (rc : Cigar) :
  forall ref_pos read_pos appended read_pos' ref_pos',
    crossoverhang_rev_walk rc start_fwd trim ref_pos read_pos
    = Returned (appended, read_pos', ref_pos') ->
    Z.min ref_pos (start_fwd + trim) <= ref_pos'.
Proof.
  induction rc as [|[bt bl] rest IH]; intros ref_pos read_pos appended read_pos' ref_pos';
    cbn [crossoverhang_rev_walk].
  - intros [= <- <- <-]. lia.
  - destruct (Z.eqb_spec bt 0) as [->|H0].
    + destruct (Z.leb_spec (ref_pos - bl) (start_fwd + trim)) as [Hstop|Hgo].
      * intros [= <- <- <-]. lia.
      * destruct (crossoverhang_rev_walk rest start_fwd trim (ref_pos - bl) (read_pos - bl))
          as [[[c'' q''] p'']|e] eqn:Hrec; cbn [Py.bind]; [|discriminate].
        intros [= <- <- <-]. apply IH in Hrec. lia.
    + destruct (Z.eqb_spec bt 1) as [->|H1].
      * destruct (crossoverhang_rev_walk rest start_fwd trim ref_pos (read_pos - bl))
          as [[[c'' q''] p'']|e] eqn:Hrec; cbn [Py.bind]; [|discriminate].
        intros [= <- <- <-]. apply IH in Hrec. lia.
      * destruct (Z.eqb_spec bt 2) as [->|H2]; [|discriminate].
        destruct (Z.leb_spec (ref_pos - bl) (start_fwd + trim)) as [Hstop|Hgo].
        -- intros [= <- <- <-]. lia.
        -- destruct (crossoverhang_rev_walk rest start_fwd trim (ref_pos - bl) read_pos)
             as [[[c'' q''] p'']|e] eqn:Hrec; cbn [Py.bind]; [|discriminate].
           intros [= <- <- <-]. apply IH in Hrec. lia.
Qed.

Ltac trimmed_clear F R Hrev :=
  destruct (crossoverhang_fwd_walk (cigar F) (pos F + isize F) _ (pos F) 0)
    as [[cigar_fwd read_pos]|e] eqn:Hfwd; [|discriminate];
  cbn [pos set_cigar set_qual set_seq];
  destruct (crossoverhang_rev_walk (rev (cigar R)) (pos F) _ (pos F + isize F) (rlen R))
    as [[[appended read_pos_r] ref_pos]|e] eqn:Hrev_walk; [|discriminate];
  unfold fix_mate_positions, insert_size, write_insert_size;
  simpl_reads Hrev;
  intros [= <-];
  apply crossoverhang_fwd_walk_ref in Hfwd;
  pose proof (crossoverhang_rev_walk_ref _ _ _ _ _ _ _ _ Hrev_walk) as Hlow;
  destruct (crossoverhang_rev_walk_again _ _ _ _ _ _ _ _ Hrev_walk) as (_ & Hrp & _);
  unfold test_read_pair_crossoverhang;
  simpl_reads Hrev;
  rewrite ?ref_span_rev;
  split; [apply orb_false_intro; apply Z.ltb_ge; lia | repeat split; lia].

(** X9.  Cross-overhang trimming does what [test_read_pair_crossoverhang]
    checks for: after a call that returns, with a [trim] and an insert
    size that are not negative, the forward read ends within the insert
    and the reverse read does not start before the forward read, so the
    test is [False].  The forward read keeps its position and the pair
    its insert size. *)
Theorem trim_read_pair_crossoverhangs_clears
        (read_pair trimmed : ReadPair) (trim : Z) :
  let i_fwd := is_reverse (fst read_pair) in
  0 <= trim ->
  0 <= isize (get_read read_pair i_fwd) ->
  trim_read_pair_crossoverhangs read_pair trim = (trimmed, Returned tt) ->
  test_read_pair_crossoverhang trimmed = false /\
  pos (get_read trimmed i_fwd) = pos (get_read read_pair i_fwd) /\
  isize (get_read trimmed i_fwd) = isize (get_read read_pair i_fwd) /\
  isize (get_read trimmed (negb i_fwd)) = - isize (get_read read_pair i_fwd).
Proof.
  cbv zeta. destruct read_pair as [a b]. unfold trim_read_pair_crossoverhangs.
  cbn [fst snd]. destruct (is_reverse a) eqn:Hrev; cbn [negb get_read upd_read fst snd];
    intros Htrim Hisize.
  - trimmed_clear b a Hrev.
  - trimmed_clear a b Hrev.
Qed.

Lemma trim_read_pair_crossoverhangs_clears_witness :
  test_read_pair_crossoverhang reads_overhanging = true /\
  test_read_pair_crossoverhang (fst (trim_read_pair_crossoverhangs reads_overhanging 5))
  = false.
Proof.
  split; [reflexivity|].
  apply (trim_read_pair_crossoverhangs_clears reads_overhanging
           (fst (trim_read_pair_crossoverhangs reads_overhanging 5)) 5);
    [lia | cbn; lia | vm_compute; reflexivity].
Defined.

(** ** Pairs without exotic operation codes *)

Lemma crossoverhang_fwd_walk_known (end_rev trim : Z) (c : Cigar) :
  forallb known_op c = true ->
  forall ref_pos read_pos, exists c' read_pos',
    crossoverhang_fwd_walk c end_rev trim ref_pos read_pos = Returned (c', read_pos').
Proof.
  induction c as [|[bt bl] rest IH]; intros Hk ref_pos read_pos;
    cbn [crossoverhang_fwd_walk]; [eexists _, _; reflexivity|].
  cbn [forallb] in Hk. apply andb_prop in Hk as [Hb Hk].
  unfold known_op in Hb. cbn [fst] in Hb.
  destruct (bt =? 0).
  - destruct (end_rev - trim <=? ref_pos + bl); [eexists _, _; reflexivity|].
    destruct (IH Hk (ref_pos + bl) (read_pos + bl)) as (c' & q & ->).
    eexists _, _; reflexivity.
  - destruct (bt =? 1).
    + destruct (IH Hk ref_pos (read_pos + bl)) as (c' & q & ->).
      eexists _, _; reflexivity.
    + destruct (bt =? 2); [|discriminate].
      destruct (end_rev - trim <=? ref_pos + bl); [eexists _, _; reflexivity|].
      destruct (IH Hk (ref_pos + bl) read_pos) as (c' & q & ->).
      eexists _, _; reflexivity.
Qed.

Lemma crossoverhang_rev_walk_known (start_fwd trim : Z) (rc : Cigar) :
  forallb known_op rc = true ->
  forall ref_pos read_pos, exists appended read_pos' ref_pos',
    crossoverhang_rev_walk rc start_fwd trim ref_pos read_pos
    = Returned (appended, read_pos', ref_pos').
Proof.
  induction rc as [|[bt bl] rest IH]; intros Hk ref_pos read_pos;
    cbn [crossoverhang_rev_walk]; [eexists _, _, _; reflexivity|].
  cbn [forallb] in Hk. apply andb_prop in Hk as [Hb Hk].
  unfold known_op in Hb. cbn [fst] in Hb.
  destruct (bt =? 0).
  - destruct (ref_pos - bl <=? start_fwd + trim); [eexists _, _, _; reflexivity|].
    destruct (IH Hk (ref_pos - bl) (read_pos - bl)) as (c' & q & p & ->).
    eexists _, _, _; reflexivity.
  - destruct (bt =? 1).
    + destruct (IH Hk ref_pos (read_pos - bl)) as (c' & q & p & ->).
      eexists _, _, _; reflexivity.
    + destruct (bt =? 2); [|discriminate].
      destruct (ref_pos - bl <=? start_fwd + trim); [eexists _, _, _; reflexivity|].
      destruct (IH Hk (ref_pos - bl) read_pos) as (c' & q & p & ->).
      eexists _, _, _; reflexivity.
Qed.

Lemma no_exotic_known_op (read_pair : ReadPair) :
  test_read_pair_exotic_cigars read_pair = false ->
  forallb known_op (cigar (fst read_pair)) = true /\
  forallb known_op (cigar (snd read_pair)) = true.
Proof.
  assert (Hk : forall c : Cigar,
             existsb (fun b => negb ((fst b =? 0) || (fst b =? 1) || (fst b =? 2))) c = false ->
             forallb known_op c = true).
  { induction c as [|b c IH]; [reflexivity|]. cbn [existsb forallb]. intros H.
    apply orb_false_elim in H as [Hb H]. rewrite (IH H). unfold known_op.
    apply negb_false_iff in Hb. now rewrite Hb. }
  unfold test_read_pair_exotic_cigars. intros H.
  split; apply Hk.
  - destruct (existsb _ (cigar (fst read_pair))); [discriminate | reflexivity].
  - destruct (existsb _ (cigar (fst read_pair))); [discriminate|].
    destruct (existsb _ (cigar (snd read_pair))); [discriminate | reflexivity].
Qed.

(** X11.  A pair that passes [test_read_pair_exotic_cigars] makes
    neither of the two functions that reject unknown operation codes
    raise: [trim_read_pair_crossoverhangs] returns, and so does
    [get_range_good_cigars] on the CIGAR of either read. *)
Theorem no_exotic_cigars_no_exception
        (read_pair : ReadPair) (trim pos0 match_len_min trim_left trim_right : Z) :
  test_read_pair_exotic_cigars read_pair = false ->
  snd (trim_read_pair_crossoverhangs read_pair trim) = Returned tt /\
  forall read, read = fst read_pair \/ read = snd read_pair ->
    exists ranges,
      get_range_good_cigars (cigar read) pos0 match_len_min trim_left trim_right
      = Returned ranges.
Proof.
  intros Hex. apply no_exotic_known_op in Hex as [Hk0 Hk1]. split.
  - assert (Hkf : forall i, forallb known_op (cigar (get_read read_pair i)) = true)
      by (intros [|]; assumption).
    unfold trim_read_pair_crossoverhangs.
    set (i_fwd := is_reverse (fst read_pair)).
    destruct (crossoverhang_fwd_walk_known
                (pos (get_read read_pair i_fwd) + isize (get_read read_pair i_fwd)) trim
                _ (Hkf i_fwd) (pos (get_read read_pair i_fwd)) 0) as (c' & q & ->).
    match goal with
    | |- context [crossoverhang_rev_walk ?rc ?s ?t ?p ?q] =>
        destruct (crossoverhang_rev_walk_known s t rc) with (ref_pos := p) (read_pos := q)
          as (app & q' & p' & ->)
    end; [|reflexivity].
    rewrite forallb_rev. destruct read_pair as [a b]. subst i_fwd. cbn [fst snd] in *.
    destruct (is_reverse a); cbn [negb get_read upd_read fst snd cigar set_cigar set_qual
                                   set_seq]; assumption.
  - intros read Hread.
    assert (Hk : forallb known_op (cigar read) = true)
      by (destruct Hread as [->| ->]; assumption).
    unfold get_range_good_cigars.
    destruct (negb (Py.any (map (criterion match_len_min) (cigar read))));
      [eexists; reflexivity|].
    destruct (walk_blocks_known
                (firstn (first_good_cigar match_len_min (cigar read)) (cigar read))
                (forallb_firstn _ _ _ Hk) 0 pos0) as (sr & sf & ->).
    cbn [Py.bind].
    assert (Hks : forallb known_op (good_span match_len_min (cigar read)) = true)
      by (unfold good_span; apply forallb_firstn, forallb_skipn, Hk).
    destruct (walk_blocks_known _ Hks sr sf) as (er & ef & ->). cbn [Py.bind].
    destruct (negb (first_good_cigar match_len_min (cigar read) =? 0)%nat),
      (negb (last_good_cigar match_len_min (cigar read) =? length (cigar read) - 1)%nat);
      eexists; reflexivity.
Qed.

Lemma no_exotic_cigars_no_exception_witness :
  snd (trim_read_pair_crossoverhangs reads_overhanging 5) = Returned tt /\
  forall read, read = fst reads_overhanging \/ read = snd reads_overhanging ->
    exists ranges, get_range_good_cigars (cigar read) 0 30 3 3 = Returned ranges.
Proof.
  apply (no_exotic_cigars_no_exception reads_overhanging 5 0 30 3 3). reflexivity.
Defined.

(** ** Reconciling a pair again *)

(** What [fix_read_pair] writes, for a forward and for a reverse first
    read. *)
Lemma fix_read_pair_value (a b : AlignedRead) :
  fix_read_pair (a, b)
  = if is_reverse a
    then (set_isize (- (pos a - pos b + ref_span (cigar a))) (set_mpos (pos b) a),
          set_isize (pos a - pos b + ref_span (cigar a)) (set_mpos (pos a) b))
    else (set_isize (pos b - pos a + ref_span (cigar b)) (set_mpos (pos b) a),
          set_isize (- (pos b - pos a + ref_span (cigar b))) (set_mpos (pos a) b)).
Proof.
  unfold fix_read_pair. cbn [fst]. destruct (is_reverse a); reflexivity.
Qed.

(** X12.  [fix_read_pair] is idempotent, and what it writes does not
    depend on the mate positions and insert sizes the two reads had:
    it can be called again after any edit of the reads, and a stale
    mate field never leaks into the result. *)
Theorem fix_read_pair_idempotent (reads : ReadPair) (mpos0 isize0 mpos1 isize1 : Z) :
  fix_read_pair (fix_read_pair reads) = fix_read_pair reads /\
  fix_read_pair (set_mpos mpos0 (set_isize isize0 (fst reads)),
                 set_mpos mpos1 (set_isize isize1 (snd reads)))
  = fix_read_pair reads.
Proof.
  destruct reads as [a b]. cbn [fst snd]. split.
  - rewrite (fix_read_pair_value a b).
    destruct (is_reverse a) eqn:Hrev; rewrite fix_read_pair_value;
      cbn [is_reverse set_isize set_mpos]; rewrite Hrev; reflexivity.
  - rewrite !fix_read_pair_value. cbn [is_reverse set_isize set_mpos].
    destruct (is_reverse a); reflexivity.
Qed.

(** ** Cross-overhang trimming keeps a pair proper *)

Lemma trim_read_pair_crossoverhangs_keeps_integrity_witness :
  test_read_pair_integrity reads_overhanging = false /\
  test_read_pair_integrity (fst (trim_read_pair_crossoverhangs reads_overhanging 5))
  = false.
Proof.
  split; [reflexivity|].
  apply (trim_read_pair_crossoverhangs_keeps_integrity reads_overhanging
           (fst (trim_read_pair_crossoverhangs reads_overhanging 5)) 5);
    [reflexivity | cbn; lia | repeat constructor; cbn; lia
     | repeat constructor; cbn; lia | vm_compute; reflexivity].
Defined.

(** ** What the quality trimmer leaves of a read *)

Lemma left_edge_loop_window_le (phred : list Z) (phred_min rlen0 : Z) :
  forall (fuel : nat) (read_start p : Z),
    left_edge_loop fuel phred phred_min rlen0 read_start = Some (Window p) ->
    p - shift <= rlen0 - read_size_min.
Proof.
  induction fuel as [|fuel IH]; intros read_start p H; [discriminate|].
  simpl in H. destruct (Z.ltb_spec (rlen0 - read_size_min) read_start); [discriminate|].
  match type of H with context [if ?c then _ else _] => destruct c end.
  - now apply IH in H.
  - injection H as <-. lia.
Qed.

Lemma right_edge_loop_window (phred : list Z) (phred_min read_start : Z) :
  forall (fuel : nat) (read_end p : Z),
    right_edge_loop fuel phred phred_min read_start read_end = Some (Window p) ->
    read_start + read_size_min <= p + shift <= read_end.
Proof.
  induction fuel as [|fuel IH]; intros read_end p H; [discriminate|].
  simpl in H. destruct (Z.ltb_spec read_end (read_start + read_size_min)); [discriminate|].
  match type of H with context [if ?c then _ else _] => destruct c end.
  - apply IH in H. unfold shift in *. lia.
  - injection H as <-. lia.
Qed.

(** The span the two edge scans keep. *)
Lemma edge_scans_window (phred : list Z) (phred_min rlen0 read_start read_end : Z) :
  left_edge phred phred_min rlen0 = Window read_start ->
  right_edge phred phred_min rlen0 read_start = Window read_end ->
  0 <= read_start /\ read_start + read_size_min <= read_end /\ read_end <= rlen0.
Proof.
  intros Hl Hr. split; [eapply left_edge_window_nonneg; eassumption|].
  unfold right_edge in Hr.
  destruct (right_edge_loop (edge_fuel rlen0) phred phred_min read_start rlen0)
    as [[q|]|] eqn:E; try discriminate.
  injection Hr as <-. apply right_edge_loop_window in E. lia.
Qed.

Lemma slice_map {A B} (f : A -> B) (l : list A) (lo hi : option Z) :
  Py.slice (map f l) lo hi = map f (Py.slice l lo hi).
Proof. unfold Py.slice. now rewrite length_map, skipn_map, firstn_map. Qed.

Lemma length_slice_in_range {A} (l : list A) (a b : Z) :
  0 <= a -> a <= b -> b <= Z.of_nat (length l) ->
  Z.of_nat (length (Py.slice l (Some a) (Some b))) = b - a.
Proof.
  intros Ha Hab Hb. rewrite slice_in_range by assumption.
  rewrite length_firstn, length_skipn. lia.
Qed.

(** The walk to the new start, on a CIGAR of the data model: the CIGAR
    left accounts for the bases from [read_start] on, and the reference
    position does not decrease. *)
Lemma trim_start_walk_span (blocks : Cigar) :
  forallb known_op blocks = true ->
  Forall (fun b => 0 <= snd b) blocks ->
  forall read_start read_pos ref_start,
    read_pos <= read_start < read_pos + read_span blocks ->
    let '(cigar1, ref_start') :=
      trim_start_walk blocks blocks read_start read_pos ref_start in
    read_span cigar1 = read_pos + read_span blocks - read_start /\
    ref_start <= ref_start' /\
    forallb known_op cigar1 = true /\ Forall (fun b => 0 <= snd b) cigar1.
Proof.
  induction blocks as [|[bt bl] rest IH]; intros Hk Hnn read_start read_pos ref_start Hin.
  - change (read_span []) with 0 in Hin. lia.
  - cbn [forallb] in Hk. apply andb_prop in Hk as [Hb Hk].
    unfold known_op in Hb. cbn [fst] in Hb.
    assert (Hkb : forall x, known_op (bt, x) = true) by (intros x; exact Hb).
    apply Forall_cons_iff in Hnn as [Hbl Hnn]. cbn [snd] in Hbl.
    rewrite read_span_cons in Hin. cbn [trim_start_walk tl replace_head].
    destruct ((bt =? 0) || (bt =? 1)) eqn:Hread.
    + destruct (Z.ltb_spec read_start (read_pos + bl)) as [Hcut|Hgo].
      * rewrite !read_span_cons, Hread. repeat split.
        -- lia.
        -- destruct (bt =? 0); lia.
        -- cbn [forallb]. now rewrite Hkb, Hk.
        -- constructor; [cbn [snd]; lia | exact Hnn].
      * specialize (IH Hk Hnn read_start (read_pos + bl)
                       (if bt =? 0 then ref_start + bl else ref_start)).
        destruct (trim_start_walk rest rest read_start (read_pos + bl)
                    (if bt =? 0 then ref_start + bl else ref_start)) as [cigar1 ref'].
        rewrite read_span_cons, Hread.
        destruct IH as (Hs & Hr & Hk1 & Hn1); [lia|].
        repeat split; try assumption; [lia|]. destruct (bt =? 0); lia.
    + cbn [orb] in Hb. rewrite Hb.
      specialize (IH Hk Hnn read_start read_pos ref_start).
      destruct (trim_start_walk rest rest read_start read_pos ref_start) as [cigar1 ref'].
      rewrite read_span_cons, Hread.
      destruct IH as (Hs & Hr & Hk1 & Hn1); [lia|].
      repeat split; try assumption; lia.
Qed.

(** The walk to the new end, without the early exit at a deletion. *)
Lemma trim_end_walk_span (c : Cigar) :
  forallb known_op c = true ->
  Forall (fun b => 0 <= snd b) c ->
  forall read_end read_pos,
    read_pos <= read_end <= read_pos + read_span c ->
    read_span (trim_end_walk false c read_end read_pos) = read_end - read_pos /\
    forallb known_op (trim_end_walk false c read_end read_pos) = true /\
    Forall (fun b => 0 <= snd b) (trim_end_walk false c read_end read_pos).
Proof.
  induction c as [|[bt bl] rest IH]; intros Hk Hnn read_end read_pos Hin.
  - change (read_span []) with 0 in Hin. cbn [trim_end_walk].
    change (read_span []) with 0. repeat split; [lia | constructor].
  - cbn [forallb] in Hk. apply andb_prop in Hk as [Hb Hk].
    unfold known_op in Hb. cbn [fst] in Hb.
    assert (Hkb : forall x, known_op (bt, x) = true) by (intros x; exact Hb).
    apply Forall_cons_iff in Hnn as [Hbl Hnn]. cbn [snd] in Hbl.
    rewrite read_span_cons in Hin. cbn [trim_end_walk andb].
    destruct ((bt =? 0) || (bt =? 1)) eqn:Hread.
    + destruct (Z.leb_spec read_end (read_pos + bl)) as [Hcut|Hgo].
      * rewrite read_span_cons, Hread. change (read_span []) with 0.
        repeat split; [lia| |].
        -- cbn [forallb]. now rewrite Hkb.
        -- constructor; [cbn [snd]; lia | constructor].
      * destruct (IH Hk Hnn read_end (read_pos + bl)) as (Hs & Hk1 & Hn1); [lia|].
        rewrite read_span_cons, Hread. repeat split; [lia| |].
        -- cbn [forallb]. now rewrite Hkb, Hk1.
        -- constructor; [exact Hbl | exact Hn1].
    + cbn [orb] in Hb. rewrite Hb.
      destruct (IH Hk Hnn read_end read_pos) as (Hs & Hk1 & Hn1); [lia|].
      rewrite read_span_cons, Hread. repeat split; [lia| |].
      * cbn [forallb]. now rewrite Hkb, Hk1.
      * constructor; [exact Hbl | exact Hn1].
Qed.

(** Rewriting a well-formed read to the span [read_start .. read_end]
    of its bases gives a well-formed read of that many bases, which does
    not start further left on the reference. *)
Lemma rewrite_read_well_formed (read : AlignedRead) (read_start read_end : Z) :
  well_formed read ->
  0 <= read_start -> read_start < read_end -> read_end <= rlen read ->
  let read' := rewrite_read false read read_start (read_end - read_start) in
  well_formed read' /\ rlen read' = read_end - read_start /\ pos read <= pos read' /\
  seq read' = Py.slice (seq read) (Some read_start) (Some read_end) /\
  qual read' = Py.slice (qual read) (Some read_start) (Some read_end).
Proof.
  intros (Hk & Hnn & Hspan & Hqual) Hs Hse He. cbv zeta. unfold rewrite_read, trim_start.
  assert (Hstart : let '(cigar1, ref_start) :=
                     if read_start =? 0 then (cigar read, pos read)
                     else trim_start_walk (cigar read) (cigar read) read_start 0 (pos read) in
                   read_span cigar1 = rlen read - read_start /\
                   pos read <= ref_start /\
                   forallb known_op cigar1 = true /\ Forall (fun b => 0 <= snd b) cigar1).
  { destruct (Z.eqb_spec read_start 0) as [->|Hne].
    - repeat split; try assumption; lia.
    - pose proof (trim_start_walk_span (cigar read) Hk Hnn read_start 0 (pos read)) as H.
      destruct (trim_start_walk (cigar read) (cigar read) read_start 0 (pos read))
        as [cigar1 ref_start].
      destruct H as (H1 & H2 & H3 & H4); [lia|]. repeat split; try assumption; lia. }
  destruct (if read_start =? 0 then (cigar read, pos read)
            else trim_start_walk (cigar read) (cigar read) read_start 0 (pos read))
    as [cigar1 ref_start].
  destruct Hstart as (Hs1 & Hr1 & Hk1 & Hn1).
  replace (read_start + (read_end - read_start)) with read_end by lia.
  assert (Hend : let cigar2 :=
                   if read_end - read_start + read_start <? rlen read
                   then trim_end_walk false cigar1 (read_end - read_start) 0
                   else cigar1 in
                 read_span cigar2 = read_end - read_start /\
                 forallb known_op cigar2 = true /\ Forall (fun b => 0 <= snd b) cigar2).
  { cbv zeta. destruct (Z.ltb_spec (read_end - read_start + read_start) (rlen read)).
    - destruct (trim_end_walk_span cigar1 Hk1 Hn1 (read_end - read_start) 0)
        as (H1 & H2 & H3); [lia|]. repeat split; try assumption; lia.
    - repeat split; try assumption; lia. }
  cbv zeta in Hend. destruct Hend as (Hs2 & Hk2 & Hn2).
  unfold well_formed, rlen in *.
  cbn [cigar seq qual pos set_pos set_cigar set_qual set_seq].
  assert (Hlen : Z.of_nat (length (Py.slice (seq read) (Some read_start) (Some read_end)))
                 = read_end - read_start) by (apply length_slice_in_range; lia).
  assert (Hlenq : Z.of_nat (length (Py.slice (qual read) (Some read_start) (Some read_end)))
                  = read_end - read_start) by (apply length_slice_in_range; lia).
  repeat split; try assumption; lia.
Qed.

(** X13.  A read the quality trimmer rewrites is a contiguous piece of
    the read it was given, with its qualities: well formed, strictly
    shorter, at least [read_size_min] = 50 bases long, and with at least
    nine in ten of its bases at [phred_min] or above. *)
Theorem trim_low_quality_read_rewritten (phred_min : Z) (read read' : AlignedRead) :
  well_formed read ->
  trim_low_quality_read phred_min read = Rewritten read' ->
  well_formed read' /\
  read_size_min <= rlen read' < rlen read /\
  9 * rlen read' <= 10 * count_good phred_min (phred_of_qual (qual read')) /\
  exists read_start read_end,
    0 <= read_start <= read_end /\ read_end <= rlen read /\
    seq read' = Py.slice (seq read) (Some read_start) (Some read_end) /\
    qual read' = Py.slice (qual read) (Some read_start) (Some read_end).
Proof.
  intros Hwf. unfold trim_low_quality_read.
  destruct (Py.all _); [discriminate|].
  destruct (left_edge (phred_of_qual (qual read)) phred_min (rlen read))
    as [read_start|] eqn:Hl; [|discriminate].
  destruct (right_edge (phred_of_qual (qual read)) phred_min (rlen read) read_start)
    as [read_end|] eqn:Hr; [|discriminate].
  destruct (edge_scans_window _ _ _ _ _ Hl Hr) as (Hs & Hse & He).
  unfold read_size_min in *.
  destruct (Z.ltb_spec
              (10 * count_good phred_min
                      (Py.slice (phred_of_qual (qual read)) (Some read_start) (Some read_end)))
              (9 * Z.of_nat (length (Py.slice (phred_of_qual (qual read))
                                              (Some read_start) (Some read_end)))))
    as [|Hmean]; [discriminate|].
  destruct ((read_start =? 0) && (read_end =? rlen read)) eqn:Hall; [discriminate|].
  intros [= <-].
  destruct (rewrite_read_well_formed read read_start read_end Hwf)
    as (Hwf' & Hlen & _ & Hseq & Hqual); try lia.
  split; [exact Hwf'|]. split.
  - split; [lia|]. rewrite Hlen.
    apply andb_false_iff in Hall as [H|H]; apply Z.eqb_neq in H; lia.
  - split.
    + rewrite Hqual. unfold phred_of_qual in *. rewrite <- slice_map.
      rewrite Hlen. rewrite length_slice_in_range in Hmean; try lia.
      rewrite length_map. destruct Hwf as (_ & _ & _ & Hq). unfold rlen in He. lia.
    + exists read_start, read_end. repeat split; try assumption; lia.
Qed.

Lemma trim_low_quality_read_rewritten_witness :
  exists read',
    trim_low_quality_read 20 (fst reads_low_start) = Rewritten read' /\
    read_size_min <= rlen read' < rlen (fst reads_low_start) /\
    9 * rlen read' <= 10 * count_good 20 (phred_of_qual (qual read')).
Proof.
  eexists. split; [vm_compute; reflexivity|].
  refine (let H := trim_low_quality_read_rewritten 20 (fst reads_low_start) _ _ _ in
          conj (proj1 (proj2 H)) (proj1 (proj2 (proj2 H)))).
  - unfold well_formed. repeat split; try reflexivity. repeat constructor; cbn; lia.
  - vm_compute. reflexivity.
Defined.

Lemma trim_low_quality_read_trimmed_from (phred_min : Z) (read read' : AlignedRead) :
  well_formed read ->
  trim_low_quality_read phred_min read = Rewritten read' ->
  trimmed_from read read'.
Proof.
  intros Hwf H. destruct (trim_low_quality_read_keeps phred_min _ _ H) as (Hi & Hm & Hr & _).
  revert H. unfold trim_low_quality_read.
  destruct (Py.all _); [discriminate|].
  destruct (left_edge (phred_of_qual (qual read)) phred_min (rlen read))
    as [read_start|] eqn:Hl; [|discriminate].
  destruct (right_edge (phred_of_qual (qual read)) phred_min (rlen read) read_start)
    as [read_end|] eqn:Hre; [|discriminate].
  destruct (edge_scans_window _ _ _ _ _ Hl Hre) as (Hs & Hse & He).
  unfold read_size_min in *.
  destruct (_ <? _); [discriminate|]. destruct (_ && _); [discriminate|].
  intros [= <-].
  destruct (rewrite_read_well_formed read read_start read_end Hwf)
    as (Hwf' & _ & Hpos & _); try lia.
  unfold trimmed_from.
  split; [exact Hwf'|]. split; [exact Hpos|]. split; [exact Hr|].
  split; [exact Hm | exact Hi].
Qed.

Lemma trimmed_from_refl (read : AlignedRead) : well_formed read -> trimmed_from read read.
Proof.
  intros H. unfold trimmed_from. split; [exact H|]. split; [lia|]. repeat split.
Qed.

(** The pair after the mate positions and the insert size are written,
    and that insert size, for a forward and for a reverse first read. *)
Lemma reconcile_value (a b : AlignedRead) :
  insert_size (fix_mate_positions (a, b))
  = (if is_reverse a then pos a + ref_span (cigar a) - pos b
     else pos b + ref_span (cigar b) - pos a) /\
  forall isize',
    write_insert_size isize' (fix_mate_positions (a, b))
    = if is_reverse a
      then (set_isize (- isize') (set_mpos (pos b) a), set_isize isize' (set_mpos (pos a) b))
      else (set_isize isize' (set_mpos (pos b) a), set_isize (- isize') (set_mpos (pos a) b)).
Proof.
  unfold insert_size, write_insert_size, fix_mate_positions. cbn [fst snd].
  destruct (is_reverse a) eqn:Hrev; simpl_reads Hrev; split; reflexivity.
Qed.

(** Writing the mate positions and a positive insert size into two
    reads trimmed from a proper pair gives a proper pair. *)
Lemma reconcile_trimmed_pair (read_pair read_pair' : ReadPair) :
  test_read_pair_integrity read_pair = false ->
  trimmed_from (fst read_pair) (fst read_pair') ->
  trimmed_from (snd read_pair) (snd read_pair') ->
  0 < insert_size (fix_mate_positions read_pair') ->
  test_read_pair_integrity
    (write_insert_size (insert_size (fix_mate_positions read_pair'))
                       (fix_mate_positions read_pair')) = false.
Proof.
  intros Hint. apply integrity_passes_iff in Hint. revert Hint.
  destruct read_pair as [a b], read_pair' as [a' b']. cbn [fst snd].
  intros Hint ((_ & _ & Hsa & _) & Hpa & Hra & _) ((_ & _ & Hsb & _) & Hpb & Hrb & _).
  destruct (reconcile_value a' b') as [-> ->]. rewrite Hra.
  destruct (is_reverse a) eqn:Hrev; cbn [negb get_read fst snd] in Hint;
    intros Hpos; apply integrity_passes_iff;
    cbn [fst snd is_reverse set_isize set_mpos]; rewrite Hra;
    cbn [negb get_read fst snd pos mpos isize cigar set_mpos set_isize];
    unfold rlen in *; cbn [seq set_mpos set_isize];
    repeat split; lia.
Qed.

(** X14.  The quality trimmer keeps a proper pair of well-formed reads
    proper whenever it returns [False]: the assertion the function makes
    on exit under [include_tests] holds, and both reads are still well
    formed. *)
Theorem trim_read_pair_low_quality_keeps_integrity
        (read_pair trimmed : ReadPair) (phred_min : Z) :
  well_formed (fst read_pair) -> well_formed (snd read_pair) ->
  test_read_pair_integrity read_pair = false ->
  trim_read_pair_low_quality read_pair phred_min = (trimmed, false) ->
  test_read_pair_integrity trimmed = false /\
  well_formed (fst trimmed) /\ well_formed (snd trimmed).
Proof.
  intros Hwf0 Hwf1 Hint. unfold trim_read_pair_low_quality.
  assert (Hloop : match for_each_read (trim_low_quality_read phred_min) read_pair with
                  | ReturnedTrue _ => True
                  | Completed read_pair' false => read_pair' = read_pair
                  | Completed read_pair' true =>
                      trimmed_from (fst read_pair) (fst read_pair') /\
                      trimmed_from (snd read_pair) (snd read_pair')
                  end).
  { unfold for_each_read. destruct read_pair as [a b]. cbn [fst snd] in *.
    destruct (trim_low_quality_read phred_min a) as [| |a'] eqn:Ha; cbn [fst snd];
      [exact I| |].
    - destruct (trim_low_quality_read phred_min b) as [| |b'] eqn:Hb;
        [exact I|reflexivity|].
      cbn [fst snd]. split; [now apply trimmed_from_refl|].
      eapply trim_low_quality_read_trimmed_from; eassumption.
    - pose proof (trim_low_quality_read_trimmed_from _ _ _ Hwf0 Ha) as Hta.
      destruct (trim_low_quality_read phred_min b) as [| |b'] eqn:Hb; cbn [fst snd];
        [exact I| |].
      + split; [exact Hta | now apply trimmed_from_refl].
      + split; [exact Hta|]. eapply trim_low_quality_read_trimmed_from; eassumption. }
  destruct (for_each_read (trim_low_quality_read phred_min) read_pair)
    as [read_pair' [|]|read_pair']; [| |discriminate].
  - destruct Hloop as [Ht0 Ht1].
    destruct (Z.leb_spec (insert_size (fix_mate_positions read_pair')) 0) as [|Hpos];
      [discriminate|].
    intros [= <-]. split.
    + now apply (reconcile_trimmed_pair read_pair read_pair').
    + destruct Ht0 as (Hw0 & _), Ht1 as (Hw1 & _).
      destruct read_pair' as [a' b']. cbn [fst snd] in *.
      destruct (reconcile_value a' b') as [_ ->].
      destruct (is_reverse a'); cbn [fst snd]; split; assumption.
  - subst read_pair'. intros [= <-]. split; [exact Hint|]. split; assumption.
Qed.

Lemma trim_read_pair_low_quality_keeps_integrity_witness :
  fst (trim_read_pair_low_quality reads_low_start 20) <> reads_low_start /\
  test_read_pair_integrity (fst (trim_read_pair_low_quality reads_low_start 20)) = false.
Proof.
  split; [vm_compute; discriminate|].
  apply (trim_read_pair_low_quality_keeps_integrity reads_low_start
           (fst (trim_read_pair_low_quality reads_low_start 20)) 20).
  - unfold well_formed. repeat split; try reflexivity. repeat constructor; cbn; lia.
  - unfold well_formed. repeat split; try reflexivity. repeat constructor; cbn; lia.
  - reflexivity.
  - vm_compute. reflexivity.
Defined.

(** ** The main high-quality block *)

Lemma blocks_from_nil (s : Z) (b : bool) (i : Z) : blocks_from s b i [] = [(s, i)].
Proof. unfold blocks_from. cbn [switches_from length app combine]. now rewrite Z.add_0_r. Qed.

Lemma blocks_from_same (s : Z) (b : bool) (i : Z) (ind : list bool) :
  blocks_from s b i (b :: ind) = blocks_from s b (i + 1) ind.
Proof.
  unfold blocks_from. cbn [switches_from length]. rewrite Bool.eqb_reflx.
  replace (i + Z.of_nat (S (length ind))) with (i + 1 + Z.of_nat (length ind)) by lia.
  reflexivity.
Qed.

Lemma blocks_from_switch (s : Z) (b : bool) (i : Z) (ind : list bool) :
  blocks_from s b i (negb b :: ind) = (s, i) :: blocks_from i (negb b) (i + 1) ind.
Proof.
  unfold blocks_from. cbn [switches_from length].
  replace (Bool.eqb b (negb b)) with false by (now destruct b).
  replace (i + Z.of_nat (S (length ind))) with (i + 1 + Z.of_nat (length ind)) by lia.
  reflexivity.
Qed.

Lemma every_other_cons {A} (x : A) (l : list A) :
  every_other (x :: l) = x :: every_other (tl l).
Proof. destruct l; reflexivity. Qed.

Lemma ind_at_cons (b x : bool) (i : Z) (ind : list bool) (j : Z) :
  i <= j -> ind_at b i (x :: ind) j = ind_at x (i + 1) ind j.
Proof.
  intros Hj. unfold ind_at. destruct (Z.ltb_spec j i); [lia|].
  destruct (Z.ltb_spec j (i + 1)).
  - replace (j - i) with 0 by lia. reflexivity.
  - replace (Z.to_nat (j - i)) with (S (Z.to_nat (j - (i + 1)))) by lia. reflexivity.
Qed.

Lemma ind_at_before (b : bool) (i : Z) (ind : list bool) (j : Z) :
  j < i -> ind_at b i ind j = b.
Proof. intros Hj. unfold ind_at. destruct (Z.ltb_spec j i); [reflexivity | lia]. Qed.

(** Every high-quality block holds positions of high quality only. *)
Lemma good_blocks_sound (ind : list bool) :
  forall s b i, s < i ->
    forall s' e', In (s', e') (high_q_blocks b (blocks_from s b i ind)) ->
      (s' = s \/ i <= s') /\ s' < e' /\ e' <= i + Z.of_nat (length ind) /\
      forall j, s' <= j < e' -> ind_at b i ind j = true.
Proof.
  induction ind as [|x ind IH]; intros s b i Hsi s' e'.
  - rewrite blocks_from_nil. destruct b; cbn [high_q_blocks every_other tl In];
      [|contradiction].
    intros [[= <- <-]|[]]. cbn [length]. repeat split; try lia.
    intros j Hj. apply ind_at_before. lia.
  - destruct (Bool.eqb b x) eqn:Hbx.
    + apply Bool.eqb_prop in Hbx. subst x. rewrite blocks_from_same. intros Hin.
      destruct (IH s b (i + 1) ltac:(lia) s' e' Hin) as (Hs' & Hlt & He' & Hall).
      cbn [length]. repeat split; try lia.
      intros j Hj. destruct (Z.lt_ge_cases j i) as [Hji|Hji].
      * rewrite ind_at_before by exact Hji. rewrite <- (Hall j Hj).
        symmetry. apply ind_at_before. lia.
      * rewrite ind_at_cons by exact Hji. now apply Hall.
    + assert (Hx : x = negb b) by (destruct b, x; try reflexivity; discriminate).
      subst x. rewrite blocks_from_switch.
      assert (Hrest : In (s', e') (high_q_blocks (negb b)
                                     (blocks_from i (negb b) (i + 1) ind)) ->
                      (s' = s \/ i <= s') /\ s' < e' /\
                      e' <= i + Z.of_nat (length (negb b :: ind)) /\
                      forall j, s' <= j < e' -> ind_at b i (negb b :: ind) j = true).
      { intros Hin.
        destruct (IH i (negb b) (i + 1) ltac:(lia) s' e' Hin) as (Hs' & Hlt & He' & Hall).
        cbn [length]. repeat split; try lia.
        intros j Hj. rewrite ind_at_cons by lia. now apply Hall. }
      destruct b; cbn [high_q_blocks negb tl] in *.
      * rewrite every_other_cons. cbn [In]. intros [[= <- <-]|Hin]; [|now apply Hrest].
        cbn [length]. repeat split; try lia.
        intros j Hj. apply ind_at_before. lia.
      * exact Hrest.
Qed.

(** Every stretch of positions of high quality lies in one high-quality
    block. *)
Lemma good_blocks_complete (ind : list bool) :
  forall s b i, s < i ->
    forall a c, s <= a -> a < c -> c <= i + Z.of_nat (length ind) ->
      (forall j, a <= j < c -> ind_at b i ind j = true) ->
      exists s' e', In (s', e') (high_q_blocks b (blocks_from s b i ind)) /\
                    s' <= a /\ c <= e'.
Proof.
  induction ind as [|x ind IH]; intros s b i Hsi a c Hsa Hac Hc Hall.
  - cbn [length] in Hc. rewrite blocks_from_nil.
    assert (Hb : b = true).
    { rewrite <- (Hall a ltac:(lia)). symmetry. apply ind_at_before. lia. }
    subst b. exists s, i. cbn [high_q_blocks every_other In]. split; [now left | lia].
  - cbn [length] in Hc. destruct (Bool.eqb b x) eqn:Hbx.
    + apply Bool.eqb_prop in Hbx. subst x. rewrite blocks_from_same.
      apply (IH s b (i + 1) ltac:(lia) a c); try lia.
      intros j Hj. specialize (Hall j Hj).
      destruct (Z.lt_ge_cases j i) as [Hji|Hji].
      * rewrite ind_at_before in Hall by exact Hji. subst b. apply ind_at_before. lia.
      * now rewrite ind_at_cons in Hall by exact Hji.
    + assert (Hx : x = negb b) by (destruct b, x; try reflexivity; discriminate).
      subst x. rewrite blocks_from_switch.
      destruct (Z.lt_ge_cases a i) as [Hai|Hai].
      * assert (Hb : b = true).
        { rewrite <- (Hall a ltac:(lia)). symmetry. now apply ind_at_before. }
        subst b. cbn [negb] in *.
        assert (Hci : c <= i).
        { destruct (Z.le_gt_cases c i) as [|Hgt]; [assumption|].
          specialize (Hall i ltac:(lia)). unfold ind_at in Hall.
          rewrite Z.ltb_irrefl, Z.sub_diag in Hall. discriminate. }
        exists s, i. cbn [high_q_blocks]. rewrite every_other_cons.
        split; [now left | lia].
      * destruct (IH i (negb b) (i + 1) ltac:(lia) a c) as (s' & e' & Hin & Hs' & He');
          try lia.
        { intros j Hj. rewrite <- ind_at_cons with (b := b) by lia. now apply Hall. }
        exists s', e'. split; [|lia].
        destruct b; cbn [high_q_blocks negb tl] in *; [|exact Hin].
        rewrite every_other_cons. now right.
Qed.

Lemma combine_every_other {A B} (l1 : list A) :
  forall l2 : list B,
    length l1 = length l2 ->
    combine (every_other l1) (every_other l2) = every_other (combine l1 l2).
Proof.
  induction l1 as [|x|x y l1 IH] using list_pair_ind; intros l2 Hlen.
  - reflexivity.
  - destruct l2 as [|x2 [|y2 l2]]; try discriminate. reflexivity.
  - destruct l2 as [|x2 [|y2 l2]]; try discriminate.
    cbn [every_other combine]. rewrite IH; [reflexivity|].
    cbn [length] in Hlen. lia.
Qed.

Lemma combine_high_q_blocks {A B} (b : bool) (l1 : list A) (l2 : list B) :
  length l1 = length l2 ->
  combine (high_q_blocks b l1) (high_q_blocks b l2) = high_q_blocks b (combine l1 l2).
Proof.
  intros Hlen. destruct b; cbn [high_q_blocks].
  - now apply combine_every_other.
  - destruct l1 as [|x l1], l2 as [|y l2]; try discriminate; [reflexivity|].
    cbn [tl combine]. apply combine_every_other. cbn [length] in Hlen. lia.
Qed.

Lemma length_every_other {A B} (l1 : list A) :
  forall l2 : list B,
    length l1 = length l2 -> length (every_other l1) = length (every_other l2).
Proof.
  induction l1 as [|x|x y l1 IH] using list_pair_ind; intros l2 Hlen.
  - destruct l2; [reflexivity | discriminate].
  - destruct l2 as [|x2 [|y2 l2]]; try discriminate. reflexivity.
  - destruct l2 as [|x2 [|y2 l2]]; try discriminate.
    cbn [every_other length]. f_equal. apply IH. cbn [length] in Hlen. lia.
Qed.

(** The two arrays of [high_q_block_bounds], read as pairs. *)
Lemma high_q_block_bounds_pairs (b : bool) (ind : list bool) :
  let bounds := high_q_block_bounds (b :: ind) in
  length (fst bounds) = length (snd bounds) /\
  combine (fst bounds) (snd bounds) = high_q_blocks b (blocks_from 0 b 1 ind).
Proof.
  cbv zeta. unfold high_q_block_bounds, blocks_from. cbn [fst snd hd switches].
  replace (Z.of_nat (length (b :: ind))) with (1 + Z.of_nat (length ind))
    by (cbn [length]; lia).
  assert (Hlen : length (0 :: switches_from 1 b ind)
                 = length (switches_from 1 b ind ++ [1 + Z.of_nat (length ind)]))
    by (rewrite length_app; cbn [length]; lia).
  split; [|now apply combine_high_q_blocks].
  destruct b; cbn [high_q_blocks].
  - now apply length_every_other.
  - destruct (switches_from 1 false ind) as [|x sw]; [reflexivity|].
    cbn [tl app]. apply length_every_other. cbn [length app] in *. lia.
Qed.

Lemma argmax_from_max (a : list Z) :
  forall best_i best i,
    (best_i < i)%nat ->
    let r := argmax_from best_i best i a in
    let v := if (r <? i)%nat then best else nth (r - i) a 0 in
    (r = best_i \/ (i <= r < i + length a)%nat) /\
    best <= v /\ forall x, In x a -> x <= v.
Proof.
  induction a as [|y a IH]; intros best_i best i Hlt; cbv zeta; cbn [argmax_from].
  - destruct (Nat.ltb_spec best_i i); [|lia]. split; [now left|]. split; [lia|].
    intros x [].
  - destruct (Z.ltb_spec best y) as [Hy|Hy].
    + specialize (IH i y (S i) ltac:(lia)). cbv zeta in IH.
      destruct IH as (Hr & Hv & Hall).
      set (r := argmax_from i y (S i) a) in *.
      assert (Hval : (if (r <? S i)%nat then y else nth (r - S i) a 0)
                     = (if (r <? i)%nat then best else nth (r - i) (y :: a) 0)).
      { destruct (Nat.ltb_spec r (S i)), (Nat.ltb_spec r i); try lia.
        - replace (r - i)%nat with 0%nat by lia. reflexivity.
        - replace (r - i)%nat with (S (r - S i)) by lia. reflexivity. }
      rewrite <- Hval. split; [cbn [length]; lia|]. split; [lia|].
      intros x [<-|Hx]; [exact Hv | now apply Hall].
    + specialize (IH best_i best (S i) ltac:(lia)). cbv zeta in IH.
      destruct IH as (Hr & Hv & Hall).
      set (r := argmax_from best_i best (S i) a) in *.
      assert (Hval : (if (r <? S i)%nat then best else nth (r - S i) a 0)
                     = (if (r <? i)%nat then best else nth (r - i) (y :: a) 0)).
      { destruct (Nat.ltb_spec r (S i)), (Nat.ltb_spec r i); try lia; try reflexivity.
        replace (r - i)%nat with (S (r - S i)) by lia. reflexivity. }
      rewrite <- Hval. split; [cbn [length]; lia|]. split; [lia|].
      intros x [<-|Hx]; [lia | now apply Hall].
Qed.

(** [argmax] gives the index of a largest entry. *)
Lemma argmax_max (a : list Z) :
  a <> [] ->
  (argmax a < length a)%nat /\ forall x, In x a -> x <= nth (argmax a) a 0.
Proof.
  destruct a as [|y a]; [congruence|]. intros _. unfold argmax.
  pose proof (argmax_from_max a 0%nat y 1%nat ltac:(lia)) as H. cbv zeta in H.
  destruct H as (Hr & Hv & Hall).
  set (r := argmax_from 0 y 1 a) in *.
  assert (Hval : (if (r <? 1)%nat then y else nth (r - 1) a 0) = nth r (y :: a) 0).
  { destruct (Nat.ltb_spec r 1).
    - replace r with 0%nat by lia. reflexivity.
    - replace r with (S (r - 1)) at 2 by lia. reflexivity. }
  rewrite Hval in *. split; [cbn [length]; lia|].
  intros x [<-|Hx]; [exact Hv | now apply Hall].
Qed.

Lemma ind_at_full (b : bool) (ind : list bool) (j : Z) :
  0 <= j -> ind_at b 1 ind j = nth (Z.to_nat j) (b :: ind) false.
Proof.
  intros Hj. unfold ind_at. destruct (Z.ltb_spec j 1).
  - replace j with 0 by lia. reflexivity.
  - replace (Z.to_nat j) with (S (Z.to_nat (j - 1))) by lia. reflexivity.
Qed.

Lemma all_map {A} (f : A -> bool) (l : list A) : Py.all (map f l) = forallb f l.
Proof. induction l as [|x l IH]; cbn; [reflexivity|]. now rewrite <- IH. Qed.

(** A slice holds flagged positions only when each of its positions is
    flagged. *)
Lemma all_slice_iff (ind : list bool) (a c : Z) :
  0 <= a -> a <= c -> c <= Z.of_nat (length ind) ->
  Py.all (Py.slice ind (Some a) (Some c)) = true <->
  forall j, a <= j < c -> nth (Z.to_nat j) ind false = true.
Proof.
  intros Ha Hac Hc. rewrite slice_in_range by assumption. unfold Py.all.
  rewrite forallb_forall. split.
  - intros H j Hj. apply H.
    replace (nth (Z.to_nat j) ind false)
      with (nth (Z.to_nat j - Z.to_nat a)
                (firstn (Z.to_nat (c - a)) (skipn (Z.to_nat a) ind)) false).
    + apply nth_In. rewrite length_firstn, length_skipn. lia.
    + rewrite nth_firstn, nth_skipn.
      destruct (Nat.ltb_spec (Z.to_nat j - Z.to_nat a) (Z.to_nat (c - a))); [|lia].
      f_equal. lia.
  - intros H x Hx. destruct (In_nth _ _ false Hx) as (k & Hk & <-).
    rewrite length_firstn, length_skipn in Hk.
    rewrite nth_firstn, nth_skipn.
    destruct (Nat.ltb_spec k (Z.to_nat (c - a))); [|lia].
    replace (Z.to_nat a + k)%nat with (Z.to_nat (a + Z.of_nat k)) by lia.
    apply H. lia.
Qed.

(** The block [main_block_read] keeps: a longest stretch of bases at
    [phred_min] or above, of at least [read_len_min] bases. *)
Lemma main_block_read_block (phred_min read_len_min : Z) (read read' : AlignedRead) :
  length (qual read) = length (seq read) ->
  main_block_read phred_min read_len_min read = Rewritten read' ->
  exists read_start read_end,
    read' = rewrite_read true read read_start (read_end - read_start) /\
    0 <= read_start /\ read_start < read_end /\ read_end <= rlen read /\
    read_len_min <= read_end - read_start /\
    forallb (fun q => phred_min <=? q)
            (Py.slice (phred_of_qual (qual read)) (Some read_start) (Some read_end)) = true /\
    forall a c,
      0 <= a -> a <= c -> c <= rlen read ->
      forallb (fun q => phred_min <=? q)
              (Py.slice (phred_of_qual (qual read)) (Some a) (Some c)) = true ->
      c - a <= read_end - read_start.
Proof.
  intros Hqual. unfold main_block_read.
  set (phred := phred_of_qual (qual read)).
  set (ind := map (fun q => phred_min <=? q) phred).
  assert (Hlen : Z.of_nat (length ind) = rlen read).
  { unfold ind, phred, phred_of_qual, rlen. now rewrite !length_map, Hqual. }
  destruct (Py.any ind) eqn:Hany; cbn [negb]; [|discriminate].
  destruct (Py.all ind); [discriminate|].
  pose proof (main_block_has_block ind Hany) as Hne.
  destruct ind as [|b ind'] eqn:Hind; [discriminate|].
  destruct (high_q_block_bounds_pairs b ind') as [Hlens Hpairs].
  unfold blocks_length in *.
  destruct (high_q_block_bounds (b :: ind')) as [starts ends].
  cbn [fst snd] in *.
  set (pairs := combine starts ends) in *.
  set (blocks_len := map (fun se : Z * Z => snd se - fst se) pairs) in *.
  destruct (argmax_max blocks_len Hne) as [Hk Hmax].
  set (k := argmax blocks_len) in *.
  assert (Hkp : (k < length pairs)%nat) by (unfold blocks_len in Hk; now rewrite length_map in Hk).
  assert (Hnth : nth k pairs (0, 0) = (nth k starts 0, nth k ends 0))
    by (unfold pairs; now apply combine_nth).
  assert (Hval : nth k blocks_len 0 = nth k ends 0 - nth k starts 0).
  { unfold blocks_len.
    change 0 with ((fun se : Z * Z => snd se - fst se) (0, 0)) at 1.
    rewrite map_nth, Hnth. reflexivity. }
  rewrite Hval.
  destruct (Z.ltb_spec (nth k ends 0 - nth k starts 0) read_len_min) as [|Hmin];
    [discriminate|].
  intros [= <-].
  assert (Hin : In (nth k starts 0, nth k ends 0) pairs)
    by (rewrite <- Hnth; now apply nth_In).
  rewrite Hpairs in Hin.
  destruct (good_blocks_sound ind' 0 b 1 ltac:(lia) _ _ Hin) as (Hs & Hse & He & Hall).
  set (read_start := nth k starts 0) in *. set (read_end := nth k ends 0) in *.
  pose proof Hlen as Hlen'. cbn [length] in Hlen'.
  assert (Hend : read_end <= rlen read) by lia.
  exists read_start, read_end.
  split; [reflexivity|]. split; [lia|]. split; [exact Hse|]. split; [exact Hend|].
  split; [lia|].
  assert (Hflags : forall a c, 0 <= a -> a <= c -> c <= rlen read ->
             (forallb (fun q => phred_min <=? q) (Py.slice phred (Some a) (Some c)) = true <->
              forall j, a <= j < c -> ind_at b 1 ind' j = true)).
  { intros a c Ha Hac Hc. rewrite <- all_map, <- slice_map. fold ind. rewrite Hind.
    rewrite all_slice_iff by lia.
    split; intros H j Hj; [rewrite ind_at_full by lia | rewrite <- ind_at_full by lia];
      now apply H. }
  split.
  - apply Hflags; try lia. exact Hall.
  - intros a c Ha Hac Hc Hgood.
    destruct (Z.eq_dec a c) as [->|Hne']; [lia|].
    pose proof (proj1 (Hflags a c Ha Hac Hc) Hgood) as Hgood'.
    destruct (good_blocks_complete ind' 0 b 1 ltac:(lia) a c) as (s' & e' & Hin' & Hs' & He');
      try lia; try exact Hgood'.
    rewrite <- Hpairs in Hin'.
    assert (Hle : e' - s' <= nth k blocks_len 0).
    { apply Hmax. unfold blocks_len.
      change (e' - s') with ((fun se : Z * Z => snd se - fst se) (s', e')).
      now apply in_map. }
    rewrite Hval in Hle. lia.
Qed.

(** X15.  A read [main_block_read_pair_low_quality] rewrites is a
    contiguous piece of the read it was given, with its qualities, in
    which every base is at [phred_min] or above; it is at least
    [read_len_min] bases long, and no stretch of the read with every
    base at [phred_min] or above is longer. *)
Theorem main_block_read_rewritten (phred_min read_len_min : Z) (read read' : AlignedRead) :
  length (qual read) = length (seq read) ->
  main_block_read phred_min read_len_min read = Rewritten read' ->
  exists read_start read_end,
    0 <= read_start /\ read_start < read_end /\ read_end <= rlen read /\
    seq read' = Py.slice (seq read) (Some read_start) (Some read_end) /\
    qual read' = Py.slice (qual read) (Some read_start) (Some read_end) /\
    read_len_min <= read_end - read_start /\
    forallb (fun q => phred_min <=? q) (phred_of_qual (qual read')) = true /\
    forall a c,
      0 <= a -> a <= c -> c <= rlen read ->
      forallb (fun q => phred_min <=? q)
              (Py.slice (phred_of_qual (qual read)) (Some a) (Some c)) = true ->
      c - a <= read_end - read_start.
Proof.
  intros Hqual Hmain.
  destruct (main_block_read_block _ _ _ _ Hqual Hmain)
    as (read_start & read_end & -> & Hs & Hse & He & Hmin & Hgood & Hmax).
  assert (Hseq : seq (rewrite_read true read read_start (read_end - read_start))
                 = Py.slice (seq read) (Some read_start) (Some read_end) /\
                 qual (rewrite_read true read read_start (read_end - read_start))
                 = Py.slice (qual read) (Some read_start) (Some read_end)).
  { unfold rewrite_read. destruct (trim_start read read_start) as [cigar1 ref_start].
    cbn [seq qual set_pos set_seq set_qual set_cigar].
    replace (read_start + (read_end - read_start)) with read_end by lia. split; reflexivity. }
  destruct Hseq as [Hseq Hq].
  exists read_start, read_end.
  split; [exact Hs|]. split; [exact Hse|]. split; [exact He|].
  split; [exact Hseq|]. split; [exact Hq|]. split; [exact Hmin|].
  split; [|exact Hmax].
  rewrite Hq. unfold phred_of_qual in *. now rewrite <- slice_map.
Qed.

Lemma main_block_read_rewritten_witness :
  exists read',
    main_block_read 20 50 read_good_middle = Rewritten read' /\
    rlen read' = 60 /\
    forallb (fun q => 20 <=? q) (phred_of_qual (qual read')) = true.
Proof.
  destruct (main_block_read_rewritten 20 50 read_good_middle
              (rewrite_read true read_good_middle 10 60) eq_refl)
    as (s & e & _ & _ & _ & _ & _ & _ & Hgood & _); [vm_compute; reflexivity|].
  eexists. split; [vm_compute; reflexivity|]. split; [reflexivity | exact Hgood].
Defined.

(** ** FASTQ records of reads *)

Lemma fold_left_min_bound (l : list Z) :
  forall x m, (m <= fold_left Z.min l x <-> m <= x /\ Forall (fun y => m <= y) l).
Proof.
  induction l as [|y l IH]; intros x m; cbn [fold_left].
  - split; [intros H; split; [exact H | constructor] | intros [H _]; exact H].
  - rewrite IH. split.
    + intros [Hm Hl]. split; [lia|]. constructor; [lia | exact Hl].
    + intros [Hx Hl]. apply Forall_cons_iff in Hl as [Hy Hl]. split; [lia | exact Hl].
Qed.

Lemma fold_left_max_bound (l : list Z) :
  forall x m, (fold_left Z.max l x <= m <-> x <= m /\ Forall (fun y => y <= m) l).
Proof.
  induction l as [|y l IH]; intros x m; cbn [fold_left].
  - split; [intros H; split; [exact H | constructor] | intros [H _]; exact H].
  - rewrite IH. split.
    + intros [Hm Hl]. split; [lia|]. constructor; [lia | exact Hl].
    + intros [Hx Hl]. apply Forall_cons_iff in Hl as [Hy Hl]. split; [lia | exact Hl].
Qed.

(** The range check passes exactly when every quality is in 0 .. 93. *)
Lemma quality_range_check (qualities : list Z) :
  match qualities with [] => false | _ => true end
  && ((py_min qualities <? 0) || (93 <? py_max qualities)) = false <->
  Forall (fun quality => 0 <= quality <= 93) qualities.
Proof.
  destruct qualities as [|x l]; [split; [constructor | reflexivity]|].
  cbn [andb py_min py_max].
  pose proof (fold_left_min_bound l x 0) as Hmin.
  pose proof (fold_left_max_bound l x 93) as Hmax.
  destruct (Z.ltb_spec (fold_left Z.min l x) 0) as [Hlo|Hlo];
    destruct (Z.ltb_spec 93 (fold_left Z.max l x)) as [Hhi|Hhi]; cbn [orb]; split;
    try discriminate; try reflexivity; intros H.
  - exfalso. apply Forall_cons_iff in H as [Hx Hl].
    assert (0 <= fold_left Z.min l x); [|lia].
    apply Hmin. split; [lia|]. eapply Forall_impl; [|exact Hl]. cbn. intros; lia.
  - exfalso. apply Forall_cons_iff in H as [Hx Hl].
    assert (0 <= fold_left Z.min l x); [|lia].
    apply Hmin. split; [lia|]. eapply Forall_impl; [|exact Hl]. cbn. intros; lia.
  - exfalso. apply Forall_cons_iff in H as [Hx Hl].
    assert (fold_left Z.max l x <= 93); [|lia].
    apply Hmax. split; [lia|]. eapply Forall_impl; [|exact Hl]. cbn. intros; lia.
  - destruct (proj1 Hmin Hlo) as [Hx0 Hl0]. destruct (proj1 Hmax Hhi) as [Hx1 Hl1].
    constructor; [lia|].
    apply Forall_forall. intros y Hy.
    rewrite Forall_forall in Hl0, Hl1. specialize (Hl0 y Hy). specialize (Hl1 y Hy). lia.
Qed.

Lemma qualities_of_returns (q : list ascii) :
  match qualities_of q with
  | inr qualities =>
      qualities = map (fun letter => Z.of_nat (nat_of_ascii letter) - 33) q
  | inl e => exists letter, In letter q /\ Z.of_nat (nat_of_ascii letter) = 255
  end.
Proof.
  induction q as [|letter rest IH]; cbn [qualities_of map]; [reflexivity|].
  unfold q_mapping, SANGER_SCORE_OFFSET.
  destruct (Z.ltb_spec (Z.of_nat (nat_of_ascii letter)) 255) as [Hlt|Hge].
  - destruct (qualities_of rest) as [e|qualities].
    + destruct IH as (l & Hl & Hcode). exists l. split; [now right | exact Hcode].
    + now rewrite IH.
  - exists letter. split; [now left|].
    pose proof (nat_ascii_bounded letter). lia.
Qed.

Lemma sanger_letter_phred (q : list ascii) :
  forallb sanger_letter q = true <->
  Forall (fun quality => 0 <= quality <= 93)
         (map (fun letter => Z.of_nat (nat_of_ascii letter) - 33) q).
Proof.
  induction q as [|letter rest IH]; cbn [forallb map]; [split; [constructor | reflexivity]|].
  rewrite Forall_cons_iff, <- IH, andb_true_iff. unfold sanger_letter.
  rewrite andb_true_iff, !Z.leb_le. split; intros [H1 H2]; (split; [lia | exact H2]).
Qed.

Lemma phred_of_qual_sanger (q : list ascii) :
  forallb sanger_letter q = true ->
  phred_of_qual q = map (fun letter => Z.of_nat (nat_of_ascii letter) - 33) q.
Proof.
  induction q as [|letter rest IH]; cbn [forallb]; [reflexivity|].
  intros H. apply andb_prop in H as [Hl H]. unfold phred_of_qual in *. cbn [map].
  rewrite (IH H). f_equal. unfold sanger_letter in Hl.
  apply andb_prop in Hl as [H1 H2]. apply Z.leb_le in H1, H2.
  unfold wrap_int8. rewrite Z.mod_small by lia. lia.
Qed.

Lemma read_to_seqrecord_returns (read : AlignedRead) :
  (forallb sanger_letter (qual read) = true ->
   read_to_seqrecord read = inr (record_of read)) /\
  (forall record, read_to_seqrecord read = inr record ->
                  forallb sanger_letter (qual read) = true).
Proof.
  unfold read_to_seqrecord. pose proof (qualities_of_returns (qual read)) as Hq.
  pose proof (sanger_letter_phred (qual read)) as Hs.
  destruct (qualities_of (qual read)) as [e|qualities].
  - destruct Hq as (letter & Hin & Hcode). split; [|discriminate].
    intros H. rewrite forallb_forall in H. specialize (H letter Hin).
    unfold sanger_letter in H. apply andb_prop in H as [_ H]. apply Z.leb_le in H. lia.
  - subst qualities.
    pose proof (quality_range_check
                  (map (fun letter => Z.of_nat (nat_of_ascii letter) - 33) (qual read)))
      as Hc.
    destruct (match map _ (qual read) with [] => false | _ => true end && _).
    + split; [|discriminate]. intros H. apply Hs, Hc in H. discriminate.
    + split.
      * intros H. unfold record_of. now rewrite (phred_of_qual_sanger _ H).
      * intros record _. apply Hs, Hc. reflexivity.
Qed.

(** X16.  [reads_to_seqrecord] returns exactly when every quality
    letter of every read is between ["!"] and ["~"].  The records it
    then returns carry, read by read, the name and the sequence of the
    read and, as [phred_quality], the Phred scores the quality trimmers
    compute from the same string: on such strings the 8-bit arithmetic
    of the trimmers does not wrap around. *)
Theorem reads_to_seqrecord_phred (reads : list AlignedRead) :
  (forallb (fun read => forallb sanger_letter (qual read)) reads = true ->
   reads_to_seqrecord reads = inr (map record_of reads)) /\
  (forall seqs,
      reads_to_seqrecord reads = inr seqs ->
      forallb (fun read => forallb sanger_letter (qual read)) reads = true).
Proof.
  induction reads as [|read rest [IH1 IH2]]; cbn [reads_to_seqrecord forallb map].
  - split; reflexivity.
  - destruct (read_to_seqrecord_returns read) as [Hr1 Hr2]. split.
    + intros H. apply andb_prop in H as [Hread Hrest].
      now rewrite (Hr1 Hread), (IH1 Hrest).
    + intros seqs. destruct (read_to_seqrecord read) as [e|record]; [discriminate|].
      destruct (reads_to_seqrecord rest) as [e|seqs']; [discriminate|].
      intros _. rewrite (Hr2 record eq_refl), (IH2 seqs' eq_refl). reflexivity.
Qed.

Lemma reads_to_seqrecord_phred_witness :
  reads_to_seqrecord [fst reads_low_start; snd reads_low_start]
  = inr [record_of (fst reads_low_start); record_of (snd reads_low_start)].
Proof.
  apply (proj1 (reads_to_seqrecord_phred [fst reads_low_start; snd reads_low_start])).
  reflexivity.
Defined.

(** ** When the short-CIGAR trimmer fails *)

(** The two outcomes of [trim_short_cigars] on a read of the data
    model. *)
Lemma trim_short_cigars_outcome
      (read : AlignedRead) (match_len_min trim_pad : Z) (throw : bool) :
  cigar read <> [] ->
  forallb known_op (cigar read) = true ->
  (untrimmable match_len_min trim_pad read /\
   exists e, snd (trim_short_cigars read match_len_min trim_pad throw)
             = if throw then Raised e else Returned (Some true)) \/
  (~ untrimmable match_len_min trim_pad read /\
   snd (trim_short_cigars read match_len_min trim_pad throw)
   = Returned (if throw then None else Some false)).
Proof.
  intros Hne Hk. unfold trim_short_cigars, untrimmable.
  destruct (trim_left_edge_cases read match_len_min trim_pad Hne Hk)
    as [[Hbad ->] | [Hgood (read1 & -> & Hne1 & Hk1)]].
  - left. split; [now left|]. exists ValueError_short_left. now destruct throw.
  - destruct (trim_right_edge_cases read1 match_len_min trim_pad Hne1 Hk1)
      as [[Hbad1 ->] | [Hgood1 (read2 & ->)]]; cbn [snd].
    + left. split; [right; exists read1; tauto|].
      exists ValueError_short_right. now destruct throw.
    + right. split; [|reflexivity].
      intros [H | (r & Hr & Hbad)]; [congruence|].
      injection Hr as <-. congruence.
Qed.

(** X17.  Which reads [trim_short_cigars] fails on, told from the CIGAR
    on entry (not empty, of matches, insertions and deletions): the
    call fails - it raises with [throw] set and returns [True] without -
    exactly when the CIGAR has no good block, or has one good block
    only, which is not its first block and which the pad shortens below
    [match_len_min], so that the right edge finds nothing to anchor on
    once the left edge has been trimmed. *)
Theorem trim_short_cigars_fails_iff
        (read : AlignedRead) (match_len_min trim_pad : Z) (throw : bool) :
  cigar read <> [] ->
  forallb known_op (cigar read) = true ->
  snd (trim_short_cigars read match_len_min trim_pad throw)
  <> Returned (if throw then None else Some false) <->
  (existsb (criterion match_len_min) (cigar read) = false \/
   exists p pre bl post,
     cigar read = (p :: pre) ++ (0, bl) :: post /\
     existsb (criterion match_len_min) (p :: pre) = false /\
     match_len_min <= bl /\ bl - trim_pad < match_len_min /\
     existsb (criterion match_len_min) post = false).
Proof.
  intros Hne Hk.
  pose proof (untrimmable_iff read match_len_min trim_pad Hk) as Hiff.
  unfold has_good_block in Hiff. rewrite <- Hiff.
  destruct (trim_short_cigars_outcome read match_len_min trim_pad throw Hne Hk)
    as [[Hu (e & ->)] | [Hu ->]].
  - split; [intros _; exact Hu | intros _; destruct throw; discriminate].
  - split; [intros H; now destruct H | intros H; now destruct Hu].
Qed.

Lemma trim_short_cigars_fails_iff_witness :
  snd (trim_short_cigars read_single_anchor 20 3 false) <> Returned (Some false) /\
  snd (trim_short_cigars read_single_anchor 20 0 false) = Returned (Some false).
Proof.
  split.
  - apply (proj2 (trim_short_cigars_fails_iff read_single_anchor 20 3 false
                    ltac:(discriminate) eq_refl)).
    right. exists (1, 2), [], 21, [].
    split; [reflexivity|]. split; [reflexivity|]. split; [lia|].
    split; [lia | reflexivity].
  - reflexivity.
Defined.

(** ** The sliding windows of the quality trimmer stop *)

(** X18.  The two [while] loops of [trim_read_pair_low_quality] end: on
    a read of [rlen0] bases the left loop, started at 0, and the right
    loop, started at [rlen0] with a left trim point that is not
    negative, leave within [rlen0 + 1] iterations, and running them
    with more iterations to spare does not change where they leave. *)
Theorem edge_loops_terminate (phred : list Z) (phred_min rlen0 : Z) :
  (exists exit_left,
      forall fuel, (edge_fuel rlen0 <= fuel)%nat ->
                   left_edge_loop fuel phred phred_min rlen0 0 = Some exit_left) /\
  (forall read_start,
      0 <= read_start ->
      exists exit_right,
        forall fuel, (edge_fuel rlen0 <= fuel)%nat ->
                     right_edge_loop fuel phred phred_min read_start rlen0
                     = Some exit_right).
Proof.
  split.
  - destruct (left_edge_loop_terminates phred phred_min rlen0 (edge_fuel rlen0) 0)
      as [s Hs]; [unfold edge_fuel; lia|].
    exists s. intros fuel Hfuel.
    now apply (left_edge_loop_more_fuel phred phred_min rlen0 s (edge_fuel rlen0)).
  - intros read_start Hstart.
    destruct (right_edge_loop_terminates phred phred_min read_start (edge_fuel rlen0) rlen0)
      as [s Hs]; [unfold edge_fuel; lia|].
    exists s. intros fuel Hfuel.
    now apply (right_edge_loop_more_fuel phred phred_min read_start s (edge_fuel rlen0)).
Qed.

(** ** The main block of a pair without deletions *)







(** ** The trimmer keeps the range of the good blocks *)

Lemma some_triple_eq {A B C} (a a' : A) (b b' : B) (c c' : C) :
  a = a' -> b = b' -> c = c' -> Some (a, b, c) = Some (a', b', c').
Proof. now intros -> -> ->. Qed.

Lemma some_pair_eq {A B} (a a' : A) (b b' : B) :
  a = a' -> b = b' -> Some (a, b) = Some (a', b').
Proof. now intros -> ->. Qed.

(** The left walk stops at the first good block. *)
Lemma trim_left_walk_first_good (match_len_min trim_pad : Z) (pre : Cigar) :
  forallb known_op pre = true ->
  existsb (criterion match_len_min) pre = false ->
  forall bl rest pos_ref pos_read,
    match_len_min <= bl ->
    trim_left_walk match_len_min trim_pad (pre ++ (0, bl) :: rest) pos_ref pos_read
    = Some ((0, bl - trim_pad) :: rest,
            pos_ref + ref_span pre + trim_pad, pos_read + read_span pre + trim_pad).
Proof.
  induction pre as [|[bt b] pre IH]; intros Hk Hng bl rest pos_ref pos_read Hbl;
    cbn [app trim_left_walk].
  - cbn [Z.eqb]. destruct (Z.ltb_spec bl match_len_min); [lia|].
    change (ref_span []) with 0. change (read_span []) with 0.
    apply some_triple_eq; [reflexivity | lia | lia].
  - cbn [forallb existsb] in Hk, Hng. apply andb_prop in Hk as [Hb Hk].
    apply orb_false_elim in Hng as [Hc Hng].
    unfold known_op in Hb. unfold criterion in Hc. cbn [fst snd] in Hb, Hc.
    rewrite ref_span_cons, read_span_cons.
    destruct (Z.eqb_spec bt 2) as [->|H2].
    + rewrite (IH Hk Hng) by exact Hbl. cbn [Z.eqb Pos.eqb orb].
      apply some_triple_eq; [reflexivity | lia | lia].
    + destruct (Z.eqb_spec bt 1) as [->|H1].
      * rewrite (IH Hk Hng) by exact Hbl. cbn [Z.eqb Pos.eqb orb].
        apply some_triple_eq; [reflexivity | lia | lia].
      * destruct (Z.eqb_spec bt 0) as [->|H0]; [|discriminate].
        cbn [andb] in Hc. apply Z.leb_gt in Hc.
        destruct (Z.ltb_spec b match_len_min); [|lia].
        rewrite (IH Hk Hng) by exact Hbl. cbn [Z.eqb orb].
        apply some_triple_eq; [reflexivity | lia | lia].
Qed.

(** The right walk stops at the last good block. *)
Lemma trim_right_walk_last_good (match_len_min trim_pad : Z) (rdropped : Cigar) :
  forallb known_op rdropped = true ->
  existsb (criterion match_len_min) rdropped = false ->
  forall bl rrest pos_read,
    match_len_min <= bl ->
    trim_right_walk match_len_min trim_pad (rdropped ++ (0, bl) :: rrest) pos_read
    = Some (rev rrest ++ [(0, bl - trim_pad)],
            pos_read - read_span rdropped - trim_pad).
Proof.
  induction rdropped as [|[bt b] rdropped IH]; intros Hk Hng bl rrest pos_read Hbl;
    cbn [app trim_right_walk].
  - cbn [Z.eqb]. destruct (Z.ltb_spec bl match_len_min); [lia|].
    change (read_span []) with 0. apply some_pair_eq; [reflexivity | lia].
  - cbn [forallb existsb] in Hk, Hng. apply andb_prop in Hk as [Hb Hk].
    apply orb_false_elim in Hng as [Hc Hng].
    unfold known_op in Hb. unfold criterion in Hc. cbn [fst snd] in Hb, Hc.
    rewrite read_span_cons.
    destruct (Z.eqb_spec bt 2) as [->|H2].
    + rewrite (IH Hk Hng) by exact Hbl. cbn [Z.eqb Pos.eqb orb].
      apply some_pair_eq; [reflexivity | lia].
    + destruct (Z.eqb_spec bt 1) as [->|H1].
      * rewrite (IH Hk Hng) by exact Hbl. cbn [Z.eqb Pos.eqb orb].
        apply some_pair_eq; [reflexivity | lia].
      * destruct (Z.eqb_spec bt 0) as [->|H0]; [|discriminate].
        cbn [andb] in Hc. apply Z.leb_gt in Hc.
        destruct (Z.ltb_spec b match_len_min); [|lia].
        rewrite (IH Hk Hng) by exact Hbl. cbn [Z.eqb orb].
        apply some_pair_eq; [reflexivity | lia].
Qed.

Lemma criterion_good (match_len_min bl : Z) :
  match_len_min <= bl -> criterion match_len_min (0, bl) = true.
Proof. intros H. unfold criterion. cbn [fst snd Z.eqb andb]. now apply Z.leb_le. Qed.

(** The left edge of a read whose first good block is [(0, bl)]. *)
Lemma trim_left_edge_value
      (read : AlignedRead) (match_len_min trim_pad : Z) (pre rest : Cigar) (bl : Z) :
  cigar read = pre ++ (0, bl) :: rest ->
  forallb known_op pre = true ->
  existsb (criterion match_len_min) pre = false ->
  match_len_min <= bl ->
  trim_left_edge read match_len_min trim_pad
  = Returned
      (Trimmed
         match pre with
         | [] => read
         | _ =>
             set_pos (pos read + ref_span pre + trim_pad)
               (set_cigar ((0, bl - trim_pad) :: rest)
                  (set_qual (Py.slice (qual read) (Some (read_span pre + trim_pad)) None)
                     (set_seq (Py.slice (seq read) (Some (read_span pre + trim_pad)) None)
                        read)))
         end).
Proof.
  intros Hc Hk Hng Hbl. unfold trim_left_edge. rewrite Hc.
  destruct pre as [|p pre]; cbn [app].
  - now rewrite edge_block_short_criterion, criterion_good.
  - assert (Hp : criterion match_len_min p = false)
      by (cbn [existsb] in Hng; now apply orb_false_elim in Hng as [-> _]).
    rewrite edge_block_short_criterion, Hp. cbn [negb].
    change (p :: pre ++ (0, bl) :: rest) with ((p :: pre) ++ (0, bl) :: rest).
    rewrite (trim_left_walk_first_good _ _ _ Hk Hng) by exact Hbl.
    rewrite Z.add_0_l. reflexivity.
Qed.

(** The right edge of a read whose last good block is [(0, bl)]. *)
Lemma trim_right_edge_value
      (read : AlignedRead) (match_len_min trim_pad : Z) (keep post : Cigar) (bl : Z) :
  cigar read = keep ++ (0, bl) :: post ->
  forallb known_op post = true ->
  existsb (criterion match_len_min) post = false ->
  match_len_min <= bl ->
  trim_right_edge read match_len_min trim_pad
  = Returned
      (Trimmed
         match post with
         | [] => read
         | _ =>
             set_cigar (keep ++ [(0, bl - trim_pad)])
               (set_qual (Py.slice (qual read) None
                            (Some (Z.of_nat (length (seq read)) - read_span post - trim_pad)))
                  (set_seq (Py.slice (seq read) None
                              (Some (Z.of_nat (length (seq read)) - read_span post - trim_pad)))
                     read))
         end).
Proof.
  intros Hc Hk Hng Hbl. unfold trim_right_edge. rewrite Hc.
  rewrite rev_app_distr. cbn [rev]. rewrite <- app_assoc. cbn [app].
  destruct post as [|p post].
  - cbn [rev app]. now rewrite edge_block_short_criterion, criterion_good.
  - rewrite <- forallb_rev in Hk. rewrite <- existsb_rev in Hng.
    rewrite <- (read_span_rev (p :: post)).
    destruct (rev (p :: post)) as [|cl rp] eqn:Hrp.
    { apply (f_equal (@length _)) in Hrp. rewrite length_rev in Hrp. discriminate. }
    assert (Hcl : criterion match_len_min cl = false)
      by (cbn [existsb] in Hng; now apply orb_false_elim in Hng as [-> _]).
    cbn [app]. rewrite edge_block_short_criterion, Hcl. cbn [negb].
    change (cl :: rp ++ (0, bl) :: rev keep) with ((cl :: rp) ++ (0, bl) :: rev keep).
    rewrite (trim_right_walk_last_good _ _ _ Hk Hng) by exact Hbl.
    now rewrite rev_involutive.
Qed.

Lemma trim_left_edge_fields
      (read : AlignedRead) (match_len_min trim_pad : Z) (pre rest : Cigar) (bl : Z) :
  cigar read = pre ++ (0, bl) :: rest ->
  forallb known_op pre = true ->
  existsb (criterion match_len_min) pre = false ->
  match_len_min <= bl ->
  let a := match pre with [] => 0 | _ => trim_pad end in
  exists read1,
    trim_left_edge read match_len_min trim_pad = Returned (Trimmed read1) /\
    cigar read1 = (0, bl - a) :: rest /\
    pos read1 = pos read + ref_span pre + a /\
    seq read1 = Py.slice (seq read) (Some (read_span pre + a)) None /\
    qual read1 = Py.slice (qual read) (Some (read_span pre + a)) None.
Proof.
  intros Hc Hk Hng Hbl. cbv zeta.
  rewrite (trim_left_edge_value read match_len_min trim_pad pre rest bl Hc Hk Hng Hbl).
  eexists. split; [reflexivity|]. destruct pre as [|p pre].
  - change (ref_span []) with 0. change (read_span []) with 0. cbn [app] in Hc.
    rewrite Z.sub_0_r, !Z.add_0_r, !slice_from_zero. repeat split. exact Hc.
  - repeat split.
Qed.

Lemma trim_right_edge_fields
      (read : AlignedRead) (match_len_min trim_pad : Z) (keep post : Cigar) (bl : Z) :
  cigar read = keep ++ (0, bl) :: post ->
  forallb known_op post = true ->
  existsb (criterion match_len_min) post = false ->
  match_len_min <= bl ->
  length (qual read) = length (seq read) ->
  let b := match post with [] => 0 | _ => trim_pad end in
  let pos_read := Z.of_nat (length (seq read)) - read_span post - b in
  exists read2,
    trim_right_edge read match_len_min trim_pad = Returned (Trimmed read2) /\
    cigar read2 = keep ++ [(0, bl - b)] /\
    pos read2 = pos read /\
    seq read2 = Py.slice (seq read) None (Some pos_read) /\
    qual read2 = Py.slice (qual read) None (Some pos_read).
Proof.
  intros Hc Hk Hng Hbl Hqual. cbv zeta.
  rewrite (trim_right_edge_value read match_len_min trim_pad keep post bl Hc Hk Hng Hbl).
  eexists. split; [reflexivity|]. destruct post as [|p post].
  - change (read_span []) with 0. rewrite !Z.sub_0_r.
    rewrite <- Hqual at 2. rewrite !slice_prefix_all. repeat split. exact Hc.
  - repeat split.
Qed.

Lemma edge_flag_first (pre : Cigar) :
  negb (length pre =? 0)%nat = match pre with [] => false | _ => true end.
Proof. now destruct pre. Qed.

Lemma edge_flag_last (done post : Cigar) (b : Z * Z) :
  negb (length done =? length (done ++ b :: post) - 1)%nat
  = match post with [] => false | _ => true end.
Proof.
  rewrite length_app. cbn [length]. destruct post as [|p post]; cbn [length].
  - replace (length done + 1 - 1)%nat with (length done) by lia.
    now rewrite Nat.eqb_refl.
  - apply negb_true_iff, Nat.eqb_neq. lia.
Qed.

Lemma returned_ranges_eq (x1 x2 y1 y2 x1' x2' y1' y2' : Z) :
  x1 = x1' -> x2 = x2' -> y1 = y1' -> y2 = y2' ->
  @Returned (option ((Z * Z) * (Z * Z))) (Some ((x1, x2), (y1, y2)))
  = Returned (Some ((x1', x2'), (y1', y2'))).
Proof. now intros -> -> -> ->. Qed.

(** What [get_range_good_cigars] returns for one good block and for
    two or more. *)
Lemma get_range_good_cigars_one
      (pre post : Cigar) (bl pos0 match_len_min trim_left trim_right : Z) :
  forallb known_op pre = true ->
  existsb (criterion match_len_min) pre = false ->
  match_len_min <= bl ->
  existsb (criterion match_len_min) post = false ->
  let a := match pre with [] => 0 | _ => trim_left end in
  let b := match post with [] => 0 | _ => trim_right end in
  get_range_good_cigars (pre ++ (0, bl) :: post) pos0 match_len_min trim_left trim_right
  = Returned (Some ((read_span pre + a, read_span pre + bl - b),
                    (pos0 + ref_span pre + a, pos0 + ref_span pre + bl - b))).
Proof.
  intros Hk Hpre Hbl Hpost. cbv zeta. unfold get_range_good_cigars.
  pose proof (criterion_good _ _ Hbl) as Hb.
  rewrite any_map, existsb_app. cbn [existsb]. rewrite Hb, orb_true_r. cbn [negb].
  rewrite (first_good_cigar_split _ _ _ _ Hpre Hb),
    (last_good_cigar_split _ _ _ _ Hpost Hb), (good_span_one _ _ _ _ Hpre Hb Hpost).
  rewrite firstn_length_app, (walk_blocks_spans pre Hk). cbn [Py.bind walk_blocks Z.eqb].
  rewrite edge_flag_first, edge_flag_last.
  destruct pre, post; try change (read_span []) with 0; try change (ref_span []) with 0;
    apply returned_ranges_eq; lia.
Qed.

Lemma get_range_good_cigars_two
      (pre mid post : Cigar) (bl1 bl2 pos0 match_len_min trim_left trim_right : Z) :
  forallb known_op pre = true ->
  forallb known_op mid = true ->
  existsb (criterion match_len_min) pre = false ->
  match_len_min <= bl1 -> match_len_min <= bl2 ->
  existsb (criterion match_len_min) post = false ->
  let a := match pre with [] => 0 | _ => trim_left end in
  let b := match post with [] => 0 | _ => trim_right end in
  get_range_good_cigars (pre ++ (0, bl1) :: mid ++ (0, bl2) :: post)
                        pos0 match_len_min trim_left trim_right
  = Returned (Some ((read_span pre + a,
                     read_span pre + bl1 + read_span mid + bl2 - b),
                    (pos0 + ref_span pre + a,
                     pos0 + ref_span pre + bl1 + ref_span mid + bl2 - b))).
Proof.
  intros Hk Hkm Hpre Hbl1 Hbl2 Hpost. cbv zeta. unfold get_range_good_cigars.
  pose proof (criterion_good _ _ Hbl1) as Hb1. pose proof (criterion_good _ _ Hbl2) as Hb2.
  rewrite any_map, existsb_app. cbn [existsb]. rewrite Hb1, orb_true_r. cbn [negb].
  rewrite (first_good_cigar_split _ _ _ _ Hpre Hb1),
    (good_span_two _ _ _ _ _ _ Hpre Hb1 Hb2 Hpost).
  assert (Hlast : last_good_cigar match_len_min (pre ++ (0, bl1) :: mid ++ (0, bl2) :: post)
                  = length (pre ++ (0, bl1) :: mid)).
  { replace (pre ++ (0, bl1) :: mid ++ (0, bl2) :: post)
      with ((pre ++ (0, bl1) :: mid) ++ (0, bl2) :: post)
      by (rewrite <- app_assoc; reflexivity).
    now apply last_good_cigar_split. }
  rewrite Hlast.
  assert (Hflag : negb (Nat.eqb (length (pre ++ (0, bl1) :: mid))
                                 (Nat.sub (length (pre ++ (0, bl1) :: mid ++ (0, bl2) :: post))
                                          1%nat))
                  = match post with [] => false | _ => true end).
  { replace (pre ++ (0, bl1) :: mid ++ (0, bl2) :: post)
      with ((pre ++ (0, bl1) :: mid) ++ (0, bl2) :: post)
      by (rewrite <- app_assoc; reflexivity).
    apply edge_flag_last. }
  rewrite Hflag, edge_flag_first.
  rewrite firstn_length_app, (walk_blocks_spans pre Hk). cbn [Py.bind walk_blocks Z.eqb].
  assert (Hks : forallb known_op (mid ++ [(0, bl2)]) = true)
    by (rewrite forallb_app, Hkm; reflexivity).
  rewrite (walk_blocks_spans _ Hks). cbn [Py.bind].
  rewrite read_span_app, ref_span_app, read_span_cons, ref_span_cons.
  cbn [Z.eqb orb]. change (read_span []) with 0. change (ref_span []) with 0.
  destruct pre, post; try change (read_span []) with 0; try change (ref_span []) with 0;
    apply returned_ranges_eq; lia.
Qed.

Section Slices.
Context {A : Type}.
Variable l : list A.

Lemma slice_suffix_range (a : Z) :
  0 <= a <= Z.of_nat (length l) ->
  Py.slice l (Some a) None = Py.slice l (Some a) (Some (Z.of_nat (length l))).
Proof.
  intros Ha. rewrite slice_suffix, slice_in_range by lia.
  symmetry. apply firstn_all2. rewrite length_skipn. lia.
Qed.

Lemma slice_suffix_prefix (a b : Z) :
  0 <= a -> 0 <= b -> a + b <= Z.of_nat (length l) ->
  Py.slice (Py.slice l (Some a) None) None (Some b) = Py.slice l (Some a) (Some (a + b)).
Proof.
  intros Ha Hb Hab. rewrite slice_suffix, slice_prefix, slice_in_range by lia.
  f_equal. lia.
Qed.

Lemma length_slice_suffix (a : Z) :
  0 <= a <= Z.of_nat (length l) ->
  Z.of_nat (length (Py.slice l (Some a) None)) = Z.of_nat (length l) - a.
Proof. intros Ha. rewrite slice_suffix by lia. rewrite length_skipn. lia. Qed.

End Slices.

(** X20.  When [trim_short_cigars] succeeds on a well-formed read, what
    it keeps of the read is the range [get_range_good_cigars] reports
    for the CIGAR and the position on entry, with both trims set to
    [trim_pad]: the sequence and the qualities left are the slice from
    [start_read] to [end_read], the read starts at [start_ref] and ends
    at [end_ref] on the reference, and its CIGAR accounts for
    [end_read - start_read] bases. *)
Theorem trim_short_cigars_keeps_good_range
        (read : AlignedRead) (match_len_min trim_pad : Z) (throw : bool) :
  0 <= trim_pad <= match_len_min ->
  well_formed read ->
  snd (trim_short_cigars read match_len_min trim_pad throw)
  = Returned (if throw then None else Some false) ->
  exists start_read end_read start_ref end_ref,
    get_range_good_cigars (cigar read) (pos read) match_len_min trim_pad trim_pad
    = Returned (Some ((start_read, end_read), (start_ref, end_ref))) /\
    let read' := fst (trim_short_cigars read match_len_min trim_pad throw) in
    seq read' = Py.slice (seq read) (Some start_read) (Some end_read) /\
    qual read' = Py.slice (qual read) (Some start_read) (Some end_read) /\
    pos read' = start_ref /\
    pos read' + ref_span (cigar read') = end_ref /\
    read_span (cigar read') = end_read - start_read.
Proof.
  intros Hpad (Hk & Hnn & Hspan & Hqual) Hsucc. unfold rlen in Hspan.
  assert (Hne : cigar read <> []).
  { intros Hc. unfold trim_short_cigars, trim_left_edge in Hsucc. rewrite Hc in Hsucc.
    discriminate. }
  assert (Hgood : existsb (criterion match_len_min) (cigar read) = true).
  { destruct (trim_left_edge_cases read match_len_min trim_pad Hne Hk)
      as [[Hbad Hleft] | [Hgood _]]; [|exact Hgood].
    unfold trim_short_cigars in Hsucc. rewrite Hleft in Hsucc.
    destruct throw; discriminate. }
  assert (Hfail : forall read1,
             trim_left_edge read match_len_min trim_pad = Returned (Trimmed read1) ->
             cigar read1 <> [] -> forallb known_op (cigar read1) = true ->
             existsb (criterion match_len_min) (cigar read1) = false -> False).
  { intros read1 Hleft Hne1 Hk1 Hbad.
    destruct (trim_right_edge_cases read1 match_len_min trim_pad Hne1 Hk1)
      as [[_ Hright] | [Hgood1 _]];
      [|unfold has_good_block in Hgood1; congruence].
    unfold trim_short_cigars in Hsucc. rewrite Hleft, Hright in Hsucc.
    destruct throw; discriminate. }
  unfold trim_short_cigars in *.
  destruct (good_items_split _ _ Hgood)
    as [(pre & b & post & Hc & Hpre & Hb & Hpost)
       |(pre & b1 & mid & b2 & post & Hc & Hpre & Hb1 & Hb2 & Hpost)].
  - (* one good block *)
    destruct (criterion_match _ _ Hb) as (bl & -> & Hbl).
    rewrite Hc in Hk, Hnn, Hspan.
    rewrite forallb_app in Hk. apply andb_prop in Hk as [Hkpre Hk].
    cbn [forallb] in Hk. apply andb_prop in Hk as [_ Hkpost].
    apply Forall_app in Hnn as [Hnpre Hnn]. apply Forall_cons_iff in Hnn as [_ Hnpost].
    rewrite read_span_app, read_span_cons in Hspan. cbn [Z.eqb orb] in Hspan.
    pose proof (read_span_nonneg pre Hnpre). pose proof (read_span_nonneg post Hnpost).
    destruct (trim_left_edge_fields read match_len_min trim_pad pre post bl
                Hc Hkpre Hpre Hbl) as (read1 & Hleft & Hc1 & Hp1 & Hs1 & Hq1).
    cbv zeta in *.
    set (a := match pre with [] => 0 | _ => trim_pad end) in *.
    assert (Ha : 0 <= a <= trim_pad) by (unfold a; destruct pre; lia).
    assert (Hk1 : forallb known_op (cigar read1) = true)
      by (rewrite Hc1; cbn [forallb]; now rewrite Hkpost).
    destruct (Z.le_gt_cases match_len_min (bl - a)) as [Hbl1|Hshort].
    + assert (Hlen1 : Z.of_nat (length (seq read1)) = Z.of_nat (length (seq read))
                                                     - (read_span pre + a))
        by (rewrite Hs1; apply length_slice_suffix; lia).
      assert (Hqual1 : length (qual read1) = length (seq read1)).
      { rewrite Hs1, Hq1, !slice_suffix by lia. rewrite !length_skipn. lia. }
      destruct (trim_right_edge_fields read1 match_len_min trim_pad [] post (bl - a)
                  Hc1 Hkpost Hpost Hbl1 Hqual1)
        as (read2 & Hright & Hc2 & Hp2 & Hs2 & Hq2).
      cbv zeta in *.
      set (b := match post with [] => 0 | _ => trim_pad end) in *.
      assert (Hb0 : 0 <= b <= trim_pad) by (unfold b; destruct post; lia).
      rewrite Hleft, Hright. cbn [fst snd]. rewrite Hc.
      rewrite (get_range_good_cigars_one pre post bl (pos read) match_len_min
                 trim_pad trim_pad Hkpre Hpre Hbl Hpost).
      fold a b. eexists _, _, _, _. split; [reflexivity|].
      rewrite Hs2, Hq2, Hlen1, Hs1, Hq1, Hp2, Hp1, Hc2.
      rewrite !slice_suffix_prefix by lia.
      cbn [app]. rewrite read_span_cons, ref_span_cons. cbn [Z.eqb orb].
      change (read_span []) with 0. change (ref_span []) with 0.
      replace (read_span pre + a
               + (Z.of_nat (length (seq read)) - (read_span pre + a) - read_span post - b))
        with (read_span pre + bl - b) by lia.
      repeat split; lia.
    + exfalso. apply (Hfail read1 Hleft); [rewrite Hc1; discriminate | exact Hk1|].
      rewrite Hc1. cbn [existsb]. rewrite Hpost, orb_false_r.
      unfold criterion. cbn [fst snd Z.eqb andb]. apply Z.leb_gt. lia.
  - (* a first and a last good block *)
    destruct (criterion_match _ _ Hb1) as (bl1 & -> & Hbl1).
    destruct (criterion_match _ _ Hb2) as (bl2 & -> & Hbl2).
    rewrite Hc in Hk, Hnn, Hspan.
    rewrite forallb_app in Hk. apply andb_prop in Hk as [Hkpre Hk].
    cbn [forallb] in Hk. apply andb_prop in Hk as [_ Hk].
    rewrite forallb_app in Hk. apply andb_prop in Hk as [Hkmid Hk].
    cbn [forallb] in Hk. apply andb_prop in Hk as [_ Hkpost].
    apply Forall_app in Hnn as [Hnpre Hnn]. apply Forall_cons_iff in Hnn as [_ Hnn].
    apply Forall_app in Hnn as [Hnmid Hnn]. apply Forall_cons_iff in Hnn as [_ Hnpost].
    rewrite read_span_app, read_span_cons, read_span_app, read_span_cons in Hspan.
    cbn [Z.eqb orb] in Hspan.
    pose proof (read_span_nonneg pre Hnpre). pose proof (read_span_nonneg mid Hnmid).
    pose proof (read_span_nonneg post Hnpost).
    destruct (trim_left_edge_fields read match_len_min trim_pad pre
                (mid ++ (0, bl2) :: post) bl1 Hc Hkpre Hpre Hbl1)
      as (read1 & Hleft & Hc1 & Hp1 & Hs1 & Hq1).
    cbv zeta in *.
    set (a := match pre with [] => 0 | _ => trim_pad end) in *.
    assert (Ha : 0 <= a <= trim_pad) by (unfold a; destruct pre; lia).
    assert (Hlen1 : Z.of_nat (length (seq read1)) = Z.of_nat (length (seq read))
                                                   - (read_span pre + a))
      by (rewrite Hs1; apply length_slice_suffix; lia).
    assert (Hqual1 : length (qual read1) = length (seq read1)).
    { rewrite Hs1, Hq1, !slice_suffix by lia. rewrite !length_skipn. lia. }
    change ((0, bl1 - a) :: mid ++ (0, bl2) :: post)
      with (((0, bl1 - a) :: mid) ++ (0, bl2) :: post) in Hc1.
    destruct (trim_right_edge_fields read1 match_len_min trim_pad ((0, bl1 - a) :: mid)
                post bl2 Hc1 Hkpost Hpost Hbl2 Hqual1)
      as (read2 & Hright & Hc2 & Hp2 & Hs2 & Hq2).
    cbv zeta in *.
    set (b := match post with [] => 0 | _ => trim_pad end) in *.
    assert (Hb0 : 0 <= b <= trim_pad) by (unfold b; destruct post; lia).
    rewrite Hleft, Hright. cbn [fst snd]. rewrite Hc.
    rewrite (get_range_good_cigars_two pre mid post bl1 bl2 (pos read) match_len_min
               trim_pad trim_pad Hkpre Hkmid Hpre Hbl1 Hbl2 Hpost).
    fold a b. eexists _, _, _, _. split; [reflexivity|].
    rewrite Hs2, Hq2, Hlen1, Hs1, Hq1, Hp2, Hp1, Hc2.
    rewrite !slice_suffix_prefix by lia.
    cbn [app]. rewrite read_span_cons, ref_span_cons, read_span_app, ref_span_app,
      read_span_cons, ref_span_cons.
    cbn [Z.eqb orb]. change (read_span []) with 0. change (ref_span []) with 0.
    replace (read_span pre + a
             + (Z.of_nat (length (seq read)) - (read_span pre + a) - read_span post - b))
      with (read_span pre + bl1 + read_span mid + bl2 - b) by lia.
    repeat split; lia.
Qed.

Lemma trim_short_cigars_keeps_good_range_witness :
  exists start_read end_read start_ref end_ref,
    get_range_good_cigars (cigar read_ragged) (pos read_ragged) 20 3 3
    = Returned (Some ((start_read, end_read), (start_ref, end_ref))) /\
    let read' := fst (trim_short_cigars read_ragged 20 3 true) in
    seq read' = Py.slice (seq read_ragged) (Some start_read) (Some end_read) /\
    qual read' = Py.slice (qual read_ragged) (Some start_read) (Some end_read) /\
    pos read' = start_ref /\
    pos read' + ref_span (cigar read') = end_ref /\
    read_span (cigar read') = end_read - start_read.
Proof.
  apply (trim_short_cigars_keeps_good_range read_ragged 20 3 true);
    [lia | exact read_ragged_well_formed | reflexivity].
Defined.

(** ** Pairs that cross-overhang trimming leaves alone *)

(** A forward read that ends before the trim point is walked to its
    end. *)
Lemma crossoverhang_fwd_walk_whole (end_rev trim : Z) (c : Cigar) :
  forallb known_op c = true ->
  Forall (fun b => 0 <= snd b) c ->
  forall ref_pos read_pos,
    ref_pos + ref_span c < end_rev - trim ->
    crossoverhang_fwd_walk c end_rev trim ref_pos read_pos
    = Returned (c, read_pos + read_span c).
Proof.
  induction c as [|[bt bl] rest IH]; intros Hk Hnn ref_pos read_pos Hend;
    cbn [crossoverhang_fwd_walk].
  - change (read_span []) with 0. apply returned_pair_eq; [reflexivity | lia].
  - cbn [forallb] in Hk. apply andb_prop in Hk as [Hb Hk].
    unfold known_op in Hb. cbn [fst] in Hb.
    apply Forall_cons_iff in Hnn as [Hbl Hnn]. cbn [snd] in Hbl.
    pose proof (ref_span_nonneg rest Hnn) as Hrest.
    rewrite ref_span_cons in Hend. rewrite read_span_cons.
    destruct (Z.eqb_spec bt 0) as [->|H0]; cbn [Z.eqb Pos.eqb orb] in *.
    + destruct (Z.leb_spec (end_rev - trim) (ref_pos + bl)); [lia|].
      rewrite (IH Hk Hnn) by lia. cbn [Py.bind].
      apply returned_pair_eq; [reflexivity | lia].
    + destruct (Z.eqb_spec bt 1) as [->|H1]; cbn [Z.eqb Pos.eqb orb] in *.
      * rewrite (IH Hk Hnn) by lia. cbn [Py.bind].
        apply returned_pair_eq; [reflexivity | lia].
      * destruct (Z.eqb_spec bt 2) as [->|H2]; [|discriminate].
        cbn [Z.eqb Pos.eqb orb] in *.
        destruct (Z.leb_spec (end_rev - trim) (ref_pos + bl)); [lia|].
        rewrite (IH Hk Hnn) by lia. cbn [Py.bind].
        apply returned_pair_eq; [reflexivity | lia].
Qed.

(** A reverse read that starts after the trim point is walked to its
    start. *)
Lemma crossoverhang_rev_walk_whole (start_fwd trim : Z) (rc : Cigar) :
  forallb known_op rc = true ->
  Forall (fun b => 0 <= snd b) rc ->
  forall ref_pos read_pos,
    start_fwd + trim < ref_pos - ref_span rc ->
    crossoverhang_rev_walk rc start_fwd trim ref_pos read_pos
    = Returned (rc, read_pos - read_span rc, ref_pos - ref_span rc).
Proof.
  induction rc as [|[bt bl] rest IH]; intros Hk Hnn ref_pos read_pos Hstart;
    cbn [crossoverhang_rev_walk].
  - change (read_span []) with 0. change (ref_span []) with 0.
    apply returned_triple_eq; [reflexivity | lia | lia].
  - cbn [forallb] in Hk. apply andb_prop in Hk as [Hb Hk].
    unfold known_op in Hb. cbn [fst] in Hb.
    apply Forall_cons_iff in Hnn as [Hbl Hnn]. cbn [snd] in Hbl.
    pose proof (ref_span_nonneg rest Hnn) as Hrest.
    rewrite ref_span_cons in Hstart. rewrite read_span_cons, ref_span_cons.
    destruct (Z.eqb_spec bt 0) as [->|H0]; cbn [Z.eqb Pos.eqb orb] in *.
    + destruct (Z.leb_spec (ref_pos - bl) (start_fwd + trim)); [lia|].
      rewrite (IH Hk Hnn) by lia. cbn [Py.bind].
      apply returned_triple_eq; [reflexivity | lia | lia].
    + destruct (Z.eqb_spec bt 1) as [->|H1]; cbn [Z.eqb Pos.eqb orb] in *.
      * rewrite (IH Hk Hnn) by lia. cbn [Py.bind].
        apply returned_triple_eq; [reflexivity | lia | lia].
      * destruct (Z.eqb_spec bt 2) as [->|H2]; [|discriminate].
        cbn [Z.eqb Pos.eqb orb] in *.
        destruct (Z.leb_spec (ref_pos - bl) (start_fwd + trim)); [lia|].
        rewrite (IH Hk Hnn) by lia. cbn [Py.bind].
        apply returned_triple_eq; [reflexivity | lia | lia].
Qed.

(** Writing into a read the values it holds changes nothing. *)
Lemma read_rewritten_same (read : AlignedRead) (seq' qual' : list ascii) (cigar' : Cigar)
      (pos' mpos' isize' : Z) :
  seq' = seq read -> qual' = qual read -> cigar' = cigar read ->
  pos' = pos read -> mpos' = mpos read -> isize' = isize read ->
  set_isize isize' (set_mpos mpos' (set_cigar cigar' (set_qual qual' (set_seq seq'
    (set_pos pos' read))))) = read.
Proof. intros -> -> -> -> -> ->. now destruct read. Qed.

Lemma read_rewritten_same_fwd (read : AlignedRead) (seq' qual' : list ascii)
      (cigar' : Cigar) (mpos' isize' : Z) :
  seq' = seq read -> qual' = qual read -> cigar' = cigar read ->
  mpos' = mpos read -> isize' = isize read ->
  set_isize isize' (set_mpos mpos' (set_cigar cigar' (set_qual qual' (set_seq seq' read))))
  = read.
Proof. intros -> -> -> -> ->. now destruct read. Qed.

Lemma slice_prefix_whole {A} (l : list A) (k : Z) :
  Z.of_nat (length l) <= k -> Py.slice l None (Some k) = l.
Proof. intros Hk. rewrite slice_prefix by lia. apply firstn_all2. lia. Qed.

Ltac left_alone F R Hrev :=
  rewrite (crossoverhang_fwd_walk_whole _ _ (cigar F)) by (assumption || lia);
  cbn [pos set_cigar set_qual set_seq];
  rewrite (crossoverhang_rev_walk_whole _ _ (rev (cigar R)))
    by (rewrite ?forallb_rev, ?ref_span_rev; try apply Forall_rev; assumption || lia);
  unfold fix_mate_positions, insert_size, write_insert_size;
  simpl_reads Hrev; rewrite ?read_span_rev, ?ref_span_rev, ?rev_involutive;
  unfold rlen in *;
  rewrite (read_rewritten_same_fwd F)
    by (try (apply slice_prefix_whole); try reflexivity; lia);
  rewrite (read_rewritten_same R)
    by (try (replace (Z.of_nat (length (seq R)) - read_span (cigar R)) with 0 by lia;
             apply slice_from_zero);
        try reflexivity; lia);
  reflexivity.

(** X21.  Cross-overhang trimming leaves alone a proper pair of
    well-formed reads whose forward read ends more than [trim] bases
    before the end of the insert and whose reverse read starts more than
    [trim] bases after its start: the pair is returned as it is, every
    field of both reads included. *)
Theorem trim_read_pair_crossoverhangs_leaves_alone (read_pair : ReadPair) (trim : Z) :
  let read_fwd := get_read read_pair (is_reverse (fst read_pair)) in
  let read_rev := get_read read_pair (negb (is_reverse (fst read_pair))) in
  well_formed (fst read_pair) -> well_formed (snd read_pair) ->
  test_read_pair_integrity read_pair = false ->
  isize read_rev = - isize read_fwd ->
  pos read_fwd + ref_span (cigar read_fwd) < pos read_fwd + isize read_fwd - trim ->
  pos read_fwd + trim < pos read_rev ->
  trim_read_pair_crossoverhangs read_pair trim = (read_pair, Returned tt).
Proof.
  cbv zeta. destruct read_pair as [a b]. cbn [fst snd].
  intros (Hka & Hna & Hsa & Hqa) (Hkb & Hnb & Hsb & Hqb) Hint.
  apply integrity_passes_iff in Hint. revert Hint.
  unfold trim_read_pair_crossoverhangs. cbn [fst snd].
  destruct (is_reverse a) eqn:Hrev; cbn [negb get_read upd_read fst snd];
    intros (Hpos & Hm0 & Hm1 & Hi0 & Hi1 & Hend & _ & _) Hisize Hfwd Hrv.
  - left_alone b a Hrev.
  - left_alone a b Hrev.
Qed.

Lemma trim_read_pair_crossoverhangs_leaves_alone_witness :
  trim_read_pair_crossoverhangs reads_distant 5 = (reads_distant, Returned tt).
Proof.
  apply (trim_read_pair_crossoverhangs_leaves_alone reads_distant 5).
  - unfold well_formed. repeat split; try reflexivity. repeat constructor; cbn; lia.
  - unfold well_formed. repeat split; try reflexivity. repeat constructor; cbn; lia.
  - reflexivity.
  - reflexivity.
  - cbn. lia.
  - cbn. lia.
Defined.
